(** * Chucky Go SDK: the session protocol engine

    A shallow embedding of [pkg/types], [pkg/transport] and [pkg/chucky]
    (transport, session state machine and client registry), and the
    properties of the specification proved, or refuted, against it;
    then [pkg/tools] and the keys and tokens of [pkg/utils], and further
    properties of the code.

    Conventions of the embedding.
    - A Go method with a pointer receiver is a computation in a state and
      output monad: the state is the receiver (with what it points to), the
      output is the ordered list of externally visible actions of the call
      (frames written to the socket, callbacks invoked).
    - A Go [chan struct{}] that is only ever closed is a [bool] (closed or
      not); a [sync.Once] is a [bool] (fired or not); a buffered channel is
      the list of its buffered values, oldest first, with its capacity
      checked where the source sends on it.
    - A callback field holding user code is a [bool] (nil or not): the code
      behind it is outside the repository, calling it is recorded in the
      output.
    - What the code takes from outside (the result of dialling, the failure
      of a socket write, which ready branch a [select] takes, what other
      goroutines do while a call is parked) is an explicit argument. *)

From stdpp Require Import gmap strings list.
From Stdlib Require Import ZArith Lia Ascii.

Local Open Scope string_scope.
Local Open Scope Z_scope.
Local Open Scope list_scope.

(** ** A state and output monad *)

Section StateOutput.
Context {S O : Type}.

Definition M (A : Type) : Type := S -> A * S * list O.

Definition ret {A} (a : A) : M A := fun s => (a, s, []).

Definition bind {A B} (m : M A) (k : A -> M B) : M B :=
  fun s =>
    let r1 := m s in
    let r2 := k (fst (fst r1)) (snd (fst r1)) in
    (fst (fst r2), snd (fst r2), snd r1 ++ snd r2).

Definition get : M S := fun s => (s, s, []).
Definition gets {A} (f : S -> A) : M A := fun s => (f s, s, []).
Definition modify (f : S -> S) : M unit := fun s => (tt, f s, []).
Definition emit (o : O) : M unit := fun s => (tt, s, [o]).

(** [when b m]: Go's [if b { m }]. *)
Definition when (b : bool) (m : M unit) : M unit :=
  if b then m else ret tt.

(** [for _, x := range l { f x }]. *)
Fixpoint forEach {A} (l : list A) (f : A -> M unit) : M unit :=
  match l with
  | [] => ret tt
  | x :: l' => bind (f x) (fun _ => forEach l' f)
  end.

End StateOutput.

Arguments M : clear implicits.

(** The three parts of the outcome of a computation. *)
Abbreviation result r := (fst (fst r)).
Abbreviation final r := (snd (fst r)).
Abbreviation output r := (snd r).

Notation "x <- c1 ;; c2" := (bind c1 (fun x => c2))
  (at level 100, c1 at next level, right associativity).
Notation "c1 ;; c2" := (bind c1 (fun _ => c2))
  (at level 100, right associativity).

(** ** pkg/types *)

Module Types.

(** A Go value of type [any] as far as [encoding/json] sees it.
    [JOpaque err] is a value that the encoder rejects (a func, a channel,
    an infinite float), with the text of the encoder's error for it, such
    as "json: unsupported type: chan int". A [JObject] is a map or a
    struct; where the encoder can reject more than one of its entries,
    they are listed in the order in which it goes through them (the fields
    of a struct as declared, the keys of a map sorted): it returns the
    error of the first. *)
Local Unset Elimination Schemes.
Inductive JValue : Type :=
| JNull
| JBool (b : bool)
| JNumber (n : Z)
| JString (s : string)
| JArray (l : list JValue)
| JObject (fields : list (string * JValue))
| JOpaque (err : string).
Local Set Elimination Schemes.

(** The first error of a list of outcomes. *)
Definition first_error (l : list (option string)) : option string :=
  head (omap id l).

(** The text of the error of [json.Marshal] for a value, if it has one:
    the encoder stops at the first value that it rejects, and returns the
    error for that value. *)
Fixpoint encode_error (v : JValue) : option string :=
  match v with
  | JArray l => first_error (map encode_error l)
  | JObject fs => first_error (map (fun kv => encode_error (snd kv)) fs)
  | JOpaque err => Some err
  | _ => None
  end.

(** A [float64], kept as its 64 bits (IEEE 754: the sign, eleven bits of
    exponent, fifty-two of fraction). The code only copies such a value
    and hands it to the encoder, which rejects the infinities and the
    NaNs, the values whose exponent has all its bits set. *)
Definition float64 : Type := Z.

Definition float64_error (f : float64) : option string :=
  if bool_decide (Z.land (Z.shiftr f 52) 2047 = 2047) then
    Some ("json: unsupported value: "
          +:+ (if bool_decide (Z.land f (2 ^ 52 - 1) = 0)
               then (if Z.testbit f 63 then "-Inf" else "+Inf")
               else "NaN"))
  else None.

(** errors.go *)
Inductive ErrorCode :=
| ErrCodeConnection | ErrCodeAuthentication | ErrCodeBudgetExceeded
| ErrCodeConcurrencyLimit | ErrCodeRateLimit | ErrCodeSession
| ErrCodeToolExecution | ErrCodeTimeout | ErrCodeValidation
| ErrCodeProtocol | ErrCodeUnknown.

Definition ErrorCode_text (c : ErrorCode) : string :=
  match c with
  | ErrCodeConnection => "CONNECTION_ERROR"
  | ErrCodeAuthentication => "AUTHENTICATION_ERROR"
  | ErrCodeBudgetExceeded => "BUDGET_EXCEEDED"
  | ErrCodeConcurrencyLimit => "CONCURRENCY_LIMIT"
  | ErrCodeRateLimit => "RATE_LIMIT"
  | ErrCodeSession => "SESSION_ERROR"
  | ErrCodeToolExecution => "TOOL_EXECUTION_ERROR"
  | ErrCodeTimeout => "TIMEOUT_ERROR"
  | ErrCodeValidation => "VALIDATION_ERROR"
  | ErrCodeProtocol => "PROTOCOL_ERROR"
  | ErrCodeUnknown => "UNKNOWN_ERROR"
  end.

(** [ChuckyError]; the wrapped error is kept as its text. *)
Record ChuckyError := {
  Code : ErrorCode;
  Message : string;
  Details : list (string * JValue);
  Err : option string;
}.

(** A Go [error]: one of the SDK's, or the context's ([ctx.Err()]), or
    one returned by user code. *)
Inductive GoError :=
| Chucky (e : ChuckyError)
| ContextErr (text : string)
| OtherErr (text : string).

Definition NewChuckyError (code : ErrorCode) (message : string) : ChuckyError :=
  {| Code := code; Message := message; Details := []; Err := None |}.

Definition Wrap (e : ChuckyError) (cause : string) : ChuckyError :=
  {| Code := Code e; Message := Message e; Details := Details e;
     Err := Some cause |}.

Definition ConnectionError (message : string) := NewChuckyError ErrCodeConnection message.
Definition SessionError (message : string) := NewChuckyError ErrCodeSession message.
Definition TimeoutError (message : string) := NewChuckyError ErrCodeTimeout message.
Definition ProtocolError (message : string) := NewChuckyError ErrCodeProtocol message.

(** [ChuckyError.Error] and [error.Error]. *)
Definition ChuckyError_Error (e : ChuckyError) : string :=
  match Err e with
  | Some cause =>
      "[" +:+ ErrorCode_text (Code e) +:+ "] " +:+ Message e +:+ ": " +:+ cause
  | None => "[" +:+ ErrorCode_text (Code e) +:+ "] " +:+ Message e
  end.

Definition Error (e : GoError) : string :=
  match e with
  | Chucky c => ChuckyError_Error c
  | ContextErr t => t
  | OtherErr t => t
  end.

(** messages.go: constants *)
Definition MessageType := string.
Definition MessageTypeInit : MessageType := "init".
Definition MessageTypeUser : MessageType := "user".
Definition MessageTypeAssistant : MessageType := "assistant".
Definition MessageTypeSystem : MessageType := "system".
Definition MessageTypeResult : MessageType := "result".
Definition MessageTypeStreamEvent : MessageType := "stream_event".
Definition MessageTypeControl : MessageType := "control".
Definition MessageTypeError : MessageType := "error".
Definition MessageTypePing : MessageType := "ping".
Definition MessageTypePong : MessageType := "pong".
Definition MessageTypeToolCall : MessageType := "tool_call".
Definition MessageTypeToolResult : MessageType := "tool_result".

Definition SystemSubtype := string.
Definition SystemSubtypeInit : SystemSubtype := "init".
Definition SystemSubtypeCompactBoundary : SystemSubtype := "compact_boundary".

Definition ControlAction := string.
Definition ControlActionReady : ControlAction := "ready".
Definition ControlActionSessionInfo : ControlAction := "session_info".
Definition ControlActionClose : ControlAction := "close".

Definition Role := string.
Definition RoleUser : Role := "user".

(** tool results (declared with the tool types) *)
Inductive ToolContent :=
| TextToolContent (type text : string)
| AnyContent (v : JValue).

Record ToolResult := {
  Content : list ToolContent;
  IsError : bool;
}.

(** [ToolHandler]: user code, taken as a function of its input. It
    returns Go's pair of a result pointer and an error. *)
Definition ToolHandler : Type :=
  list (string * JValue) -> option ToolResult * option GoError.

Record ToolDefinition := {
  ToolName : string;
  ToolDescription : string;
  InputSchema : JValue;
  Handler : option ToolHandler;
}.

Inductive McpServerDefinition :=
| McpClientToolsServer (name version : string) (tools : list ToolDefinition)
| McpStdioServerConfig (name command : string) (args : list string)
    (env : list (string * string))
| McpSSEServerConfig (name url : string) (headers : list (string * string))
| McpHTTPServerConfig (name url : string) (headers : list (string * string))
| McpOtherServer (name : string).

(** [OutputFormat]: the field of the options that holds one has the
    name of the type in the source, and is [Format] here. *)
Record OutputFormat := {
  format_Type : string;
  Schema : JValue;
}.

(** [SessionOptions] with the embedded [BaseOptions]. The field
    [SettingSources] is left out: the code reads it nowhere. *)
Record SessionOptions := {
  Model : string;
  FallbackModel : string;
  SystemPrompt : JValue;
  MaxTurns : Z;
  MaxBudgetUsd : float64;
  MaxThinkingTokens : Z;
  Tools : JValue;
  McpServers : list McpServerDefinition;
  PermissionMode : string;
  Format : option OutputFormat;
  IncludePartialMessages : bool;
  Env : list (string * string);
  SessionID : string;
  ForkSession : bool;
  ResumeSessionAt : string;
  Continue : bool;
}.

Record ClientOptions := {
  BaseURL : string;
  Token : string;
  Debug : bool;
  Timeout : Z;
  KeepAliveInterval : Z;
  AutoReconnect : bool;
  MaxReconnectAttempts : Z;
}.

Definition Second : Z := 1000000000.
Definition Minute : Z := 60 * Second.

Definition DefaultClientOptions : ClientOptions :=
  {| BaseURL := "wss://conjure.chucky.cloud/ws"; Token := "";
     Debug := false; Timeout := 60 * Second;
     KeepAliveInterval := 5 * Minute;
     AutoReconnect := false; MaxReconnectAttempts := 0 |}.

Definition Merge (o other : ClientOptions) : ClientOptions :=
  {| BaseURL := if decide (BaseURL other = "") then BaseURL o else BaseURL other;
     Token := if decide (Token other = "") then Token o else Token other;
     Debug := if Debug other then true else Debug o;
     Timeout := if 0 <? Timeout other then Timeout other else Timeout o;
     KeepAliveInterval :=
       if 0 <? KeepAliveInterval other then KeepAliveInterval other
       else KeepAliveInterval o;
     AutoReconnect := if AutoReconnect other then true else AutoReconnect o;
     MaxReconnectAttempts :=
       if 0 <? MaxReconnectAttempts other then MaxReconnectAttempts other
       else MaxReconnectAttempts o |}.

(** messages.go: envelopes *)
Record InitPayload := {
  init_Model : string;
  init_FallbackModel : string;
  init_SystemPrompt : JValue;
  init_MaxTurns : Z;
  init_MaxBudgetUsd : float64;
  init_MaxThinkingTokens : Z;
  init_Tools : JValue;
  init_McpServers : JValue;
  init_PermissionMode : string;
  init_OutputFormat : option OutputFormat;
  init_IncludePartialMessages : bool;
  init_Env : list (string * string);
  init_SessionID : string;
  init_ForkSession : bool;
  init_ResumeSessionAt : string;
  init_Continue : bool;
}.

Record InitEnvelope := {
  init_Type : MessageType;
  init_Payload : InitPayload;
}.

Record SDKUserMessage := {
  user_Type : MessageType;
  user_UUID : string;
  user_SessionID : string;
  user_Role : Role;
  user_Content : string;
  user_ParentToolUseID : option string;
}.

Record ControlPayload := {
  Action : ControlAction;
  Data : JValue;
}.

Record ControlEnvelope := {
  control_Type : MessageType;
  control_Payload : ControlPayload;
}.

Record PingEnvelope := {
  ping_Type : MessageType;
  ping_Timestamp : Z;
}.

Record ToolResultPayload := {
  result_CallID : string;
  result_Result : option ToolResult;
}.

Record ToolResultEnvelope := {
  toolresult_Type : MessageType;
  toolresult_Payload : ToolResultPayload;
}.

Record SDKResultMessage := {
  res_Subtype : string;
  res_UUID : string;
  res_SessionID : string;
  res_IsError : bool;
  res_NumTurns : Z;
  res_Result : string;
}.

Record SDKSystemMessage := {
  sys_Subtype : SystemSubtype;
  sys_UUID : string;
  sys_SessionID : string;
  sys_Data : JValue;
}.

Record ErrorPayload := {
  err_Message : string;
  err_Code : string;
  err_Details : JValue;
}.

Record ToolCallPayload := {
  CallID : string;
  call_ToolName : string;
  Input : JValue;
}.

(** What [ParseIncomingMessage] returns: the dynamic type behind the
    [IncomingMessage] interface. *)
Inductive IncomingMessage :=
| Assistant (uuid session_id : string) (content : JValue)
| Result (m : SDKResultMessage)
| System (m : SDKSystemMessage)
| StreamEvent (uuid session_id : string) (event : JValue)
| Control (e : ControlEnvelope)
| ErrorEnv (p : ErrorPayload)
| Pong (timestamp : Z)
| ToolCall (p : ToolCallPayload)
| Generic (RawType : MessageType) (data : list (string * JValue)).

(** The dynamic type behind the [OutgoingMessage] interface. *)
Inductive OutgoingMessage :=
| OutInit (e : InitEnvelope)
| OutUser (m : SDKUserMessage)
| OutControl (e : ControlEnvelope)
| OutPing (e : PingEnvelope)
| OutToolResult (e : ToolResultEnvelope).

Definition content_error (c : ToolContent) : option string :=
  match c with
  | TextToolContent _ _ => None
  | AnyContent v => encode_error v
  end.

(** The text of the error of [json.Marshal(msg)], if it returns one. The
    encoder goes through the fields of the message in the order of their
    declaration and fails at the first value that it rejects: a value of
    type [any], or a float that is infinite or not a number; the other
    fields are strings, integers, booleans and maps of strings. *)
Definition Marshal_error (msg : OutgoingMessage) : option string :=
  match msg with
  | OutInit e =>
      let p := init_Payload e in
      first_error
        [encode_error (init_SystemPrompt p);
         float64_error (init_MaxBudgetUsd p);
         encode_error (init_Tools p);
         encode_error (init_McpServers p);
         match init_OutputFormat p with
         | Some f => encode_error (Schema f)
         | None => None
         end]
  | OutUser _ => None
  | OutControl e => encode_error (Data (control_Payload e))
  | OutPing _ => None
  | OutToolResult e =>
      match result_Result (toolresult_Payload e) with
      | Some r => first_error (map content_error (Content r))
      | None => None
      end
  end.

(** Whether [json.Marshal(msg)] succeeds. *)
Definition Marshal_ok (msg : OutgoingMessage) : bool :=
  match Marshal_error msg with
  | None => true
  | Some _ => false
  end.

End Types.

(** ** pkg/transport *)

Module Transport.
Import Types.

(** transport.go *)
Inductive ConnectionStatus :=
| StatusDisconnected | StatusConnecting | StatusConnected
| StatusReconnecting | StatusError.

#[global] Instance ConnectionStatus_eq_dec : EqDecision ConnectionStatus.
Proof. solve_decision. Defined.

(** [TransportEvents]: which callbacks are set. *)
Record TransportEvents := {
  OnMessage : bool;
  OnClose : bool;
  OnStatusChange : bool;
  OnError : bool;
}.

(** The socket ([websocket.Conn]) as the transport uses it. Whether a
    write fails is decided outside the program: [faults] lists the
    outcomes of the coming writes, [Some cause] for a failing one; once
    the list is used up every write succeeds. *)
Record Conn := { faults : list (option string) }.

Definition WriteMessage (c : Conn) : option string * Conn :=
  match faults c with
  | [] => (None, c)
  | o :: rest => (o, {| faults := rest |})
  end.

(** What [url.Parse] and [dialer.Dial] give [Connect]. *)
Inductive DialOutcome :=
| BadURL (cause : string)
| DialFailed (cause : string)
| Dialed (c : Conn).

(** The visible actions of the transport, in order. *)
Inductive Out :=
| Written (msg : OutgoingMessage)
| CloseFrame
| ConnClosed
| Spawn_readLoop
| Spawn_keepAliveLoop
| Call_OnStatusChange (st : ConnectionStatus)
| Call_OnError (e : GoError).

(** websocket.go *)
Record WebSocketTransport := {
  baseURL : string;
  token : string;
  timeout : Z;
  keepAliveInterval : Z;
  debug : bool;
  conn : option Conn;
  status : ConnectionStatus;
  handlers : TransportEvents;
  readyCh : bool;
  readyOnce : bool;
  closeCh : bool;
  closeOnce : bool;
  msgQueue : list OutgoingMessage;
}.

Record WebSocketTransportOptions := {
  opt_BaseURL : string;
  opt_Token : string;
  opt_Timeout : Z;
  opt_KeepAliveInterval : Z;
  opt_Debug : bool;
}.

Definition set_conn (c : option Conn) (t : WebSocketTransport) :=
  {| baseURL := baseURL t; token := token t; timeout := timeout t;
     keepAliveInterval := keepAliveInterval t; debug := debug t;
     conn := c; status := status t; handlers := handlers t;
     readyCh := readyCh t; readyOnce := readyOnce t;
     closeCh := closeCh t; closeOnce := closeOnce t;
     msgQueue := msgQueue t |}.

Definition set_status (st : ConnectionStatus) (t : WebSocketTransport) :=
  {| baseURL := baseURL t; token := token t; timeout := timeout t;
     keepAliveInterval := keepAliveInterval t; debug := debug t;
     conn := conn t; status := st; handlers := handlers t;
     readyCh := readyCh t; readyOnce := readyOnce t;
     closeCh := closeCh t; closeOnce := closeOnce t;
     msgQueue := msgQueue t |}.

Definition set_handlers (h : TransportEvents) (t : WebSocketTransport) :=
  {| baseURL := baseURL t; token := token t; timeout := timeout t;
     keepAliveInterval := keepAliveInterval t; debug := debug t;
     conn := conn t; status := status t; handlers := h;
     readyCh := readyCh t; readyOnce := readyOnce t;
     closeCh := closeCh t; closeOnce := closeOnce t;
     msgQueue := msgQueue t |}.

Definition set_ready (t : WebSocketTransport) :=
  {| baseURL := baseURL t; token := token t; timeout := timeout t;
     keepAliveInterval := keepAliveInterval t; debug := debug t;
     conn := conn t; status := status t; handlers := handlers t;
     readyCh := true; readyOnce := true;
     closeCh := closeCh t; closeOnce := closeOnce t;
     msgQueue := msgQueue t |}.

Definition set_closed (t : WebSocketTransport) :=
  {| baseURL := baseURL t; token := token t; timeout := timeout t;
     keepAliveInterval := keepAliveInterval t; debug := debug t;
     conn := conn t; status := status t; handlers := handlers t;
     readyCh := readyCh t; readyOnce := readyOnce t;
     closeCh := true; closeOnce := true;
     msgQueue := msgQueue t |}.

Definition set_msgQueue (q : list OutgoingMessage) (t : WebSocketTransport) :=
  {| baseURL := baseURL t; token := token t; timeout := timeout t;
     keepAliveInterval := keepAliveInterval t; debug := debug t;
     conn := conn t; status := status t; handlers := handlers t;
     readyCh := readyCh t; readyOnce := readyOnce t;
     closeCh := closeCh t; closeOnce := closeOnce t;
     msgQueue := q |}.

Definition T := M WebSocketTransport Out.

Definition NewWebSocketTransport (opts : WebSocketTransportOptions)
  : WebSocketTransport :=
  {| baseURL := opt_BaseURL opts;
     token := opt_Token opts;
     timeout :=
       if decide (opt_Timeout opts = 0) then 60 * Second else opt_Timeout opts;
     keepAliveInterval :=
       if decide (opt_KeepAliveInterval opts = 0) then 5 * Minute
       else opt_KeepAliveInterval opts;
     debug := opt_Debug opts;
     conn := None;
     status := StatusDisconnected;
     handlers := {| OnMessage := false; OnClose := false;
                    OnStatusChange := false; OnError := false |};
     readyCh := false; readyOnce := false;
     closeCh := false; closeOnce := false;
     msgQueue := [] |}.

Definition Status : T ConnectionStatus := gets status.

Definition setStatus (st : ConnectionStatus) : T unit :=
  oldStatus <- gets status ;;
  modify (set_status st) ;;
  h <- gets handlers ;;
  when (bool_decide (oldStatus <> st) && OnStatusChange h)
       (emit (Call_OnStatusChange st)).

Definition sendImmediate (msg : OutgoingMessage) : T (option GoError) :=
  match Marshal_error msg with
  | Some err =>
      ret (Some (Chucky (Wrap (ProtocolError "failed to marshal message")
                              err)))
  | None =>
      c <- gets conn ;;
      match c with
      | None => ret (Some (Chucky (ConnectionError "not connected")))
      | Some c =>
          match WriteMessage c with
          | (Some cause, c') =>
              modify (set_conn (Some c')) ;;
              ret (Some (Chucky (Wrap (ConnectionError "failed to send message")
                                      cause)))
          | (None, c') =>
              modify (set_conn (Some c')) ;;
              emit (Written msg) ;;
              ret None
          end
      end
  end.

Definition flushQueue : T unit :=
  queue <- gets msgQueue ;;
  modify (set_msgQueue []) ;;
  forEach queue (fun msg =>
    err <- sendImmediate msg ;;
    match err with
    | Some e => h <- gets handlers ;; when (OnError h) (emit (Call_OnError e))
    | None => ret tt
    end).

(** [Connect]. The two goroutines it starts are recorded in the output;
    what they do is described with the session, which receives their
    callbacks. *)
Definition Connect (d : DialOutcome) : T (option GoError) :=
  setStatus StatusConnecting ;;
  match d with
  | BadURL cause =>
      setStatus StatusError ;;
      ret (Some (Chucky (Wrap (ConnectionError "invalid URL") cause)))
  | DialFailed cause =>
      setStatus StatusError ;;
      ret (Some (Chucky (Wrap (ConnectionError "failed to connect") cause)))
  | Dialed c =>
      modify (set_conn (Some c)) ;;
      setStatus StatusConnected ;;
      modify set_ready ;;
      flushQueue ;;
      emit Spawn_readLoop ;;
      emit Spawn_keepAliveLoop ;;
      ret None
  end.

Definition Disconnect : T (option GoError) :=
  modify set_closed ;;
  c <- gets conn ;;
  modify (set_conn None) ;;
  match c with
  | Some c =>
      when (bool_decide (fst (WriteMessage c) = None)) (emit CloseFrame) ;;
      emit ConnClosed
  | None => ret tt
  end ;;
  setStatus StatusDisconnected ;;
  ret None.

Definition Send (msg : OutgoingMessage) : T (option GoError) :=
  c <- gets conn ;;
  st <- gets status ;;
  if bool_decide (st = StatusConnecting) || bool_decide (c = None) then
    q <- gets msgQueue ;;
    modify (set_msgQueue (q ++ [msg])) ;;
    ret None
  else sendImmediate msg.

(** One firing of the ticker in [keepAliveLoop]. *)
Definition keepAliveTick (now : Z) : T unit :=
  err <- Send (OutPing {| ping_Type := MessageTypePing; ping_Timestamp := now |}) ;;
  match err with
  | Some e => h <- gets handlers ;; when (OnError h) (emit (Call_OnError e))
  | None => ret tt
  end.

Definition SetEventHandlers (h : TransportEvents) : T unit :=
  modify (set_handlers h).

(** [WaitForReady]: a [select] between [readyCh] and the timeout.
    [timeout_first] says that the timeout has expired and that the
    [select] takes that branch; when [readyCh] is not closed the timeout
    is the only way out. *)
Definition WaitForReady (timeout_first : bool) : T (option GoError) :=
  r <- gets readyCh ;;
  if r && negb timeout_first then ret None
  else ret (Some (Chucky (TimeoutError "connection timeout"))).

End Transport.

(** ** pkg/chucky *)

Module Chucky.
Import Types.

(** session.go: data *)
Inductive SessionState :=
| SessionStateIdle | SessionStateInitializing | SessionStateReady
| SessionStateProcessing | SessionStateWaitingTool
| SessionStateCompleted | SessionStateError.

#[global] Instance SessionState_eq_dec : EqDecision SessionState.
Proof. solve_decision. Defined.

Record SessionEventHandlers := {
  OnMessage : bool;
  OnError : bool;
  OnClose : bool;
}.

Record ClientEventHandlers := {
  client_OnError : bool;
  OnSessionStart : bool;
  OnSessionEnd : bool;
}.

Record Session := {
  transport : Transport.WebSocketTransport;
  options : SessionOptions;
  sessionID : string;
  state : SessionState;
  handlers : SessionEventHandlers;
  connected : bool;
  msgCh : list IncomingMessage;
  errCh : list GoError;
  closeCh : bool;
  closeOnce : bool;
  readyCh : bool;
  readyOnce : bool;
  initErr : option GoError;
  toolHandlers : gmap string ToolHandler;
}.

(** Capacities of [msgCh] and [errCh]. *)
Definition msgCh_cap : nat := 100.
Definition errCh_cap : nat := 10.

(** client.go: data. The registry maps a key to a session pointer; a
    pointer is the address ([nat]) of the session. *)
Record Client := {
  client_options : ClientOptions;
  sessions : gmap string nat;
  client_handlers : ClientEventHandlers;
}.

(** The goroutine started by one call of [Stream]: waiting on [msgCh],
    holding a message for its consumer, or returned (its channel closed). *)
Inductive StreamPC :=
| Receiving
| Sending (msg : IncomingMessage)
| Finished.

(** A session at address [ptr] with what its methods reach: the client
    it points to, and the goroutines that run its code: the transport's
    read loop ([parked] holds the message it is blocked on when [msgCh]
    is full) and the [Stream] goroutines. *)
Record World := {
  self : Session;
  ptr : nat;
  client : Client;
  parked : option IncomingMessage;
  streams : list StreamPC;
}.

(** The visible actions of the session, in order. *)
Inductive Obs :=
| Wire (o : Transport.Out)
| Transport_Send (msg : OutgoingMessage)
| Transport_Disconnect
| Call_OnMessage (msg : IncomingMessage)
| Call_OnError (e : GoError)
| Call_OnClose
| Client_OnError (e : GoError)
| Client_OnSessionStart (id : string)
| Client_OnSessionEnd (id : string)
| Stream_out (i : nat) (msg : IncomingMessage)
| Stream_closed (i : nat).

Definition Sess := M World Obs.

(** Field updates *)
Definition set_transport (t : Transport.WebSocketTransport) (s : Session) :=
  {| transport := t; options := options s; sessionID := sessionID s;
     state := state s; handlers := handlers s; connected := connected s;
     msgCh := msgCh s; errCh := errCh s; closeCh := closeCh s;
     closeOnce := closeOnce s; readyCh := readyCh s;
     readyOnce := readyOnce s; initErr := initErr s;
     toolHandlers := toolHandlers s |}.

Definition set_sessionID (id : string) (s : Session) :=
  {| transport := transport s; options := options s; sessionID := id;
     state := state s; handlers := handlers s; connected := connected s;
     msgCh := msgCh s; errCh := errCh s; closeCh := closeCh s;
     closeOnce := closeOnce s; readyCh := readyCh s;
     readyOnce := readyOnce s; initErr := initErr s;
     toolHandlers := toolHandlers s |}.

Definition set_state (st : SessionState) (s : Session) :=
  {| transport := transport s; options := options s; sessionID := sessionID s;
     state := st; handlers := handlers s; connected := connected s;
     msgCh := msgCh s; errCh := errCh s; closeCh := closeCh s;
     closeOnce := closeOnce s; readyCh := readyCh s;
     readyOnce := readyOnce s; initErr := initErr s;
     toolHandlers := toolHandlers s |}.

Definition set_handlers (h : SessionEventHandlers) (s : Session) :=
  {| transport := transport s; options := options s; sessionID := sessionID s;
     state := state s; handlers := h; connected := connected s;
     msgCh := msgCh s; errCh := errCh s; closeCh := closeCh s;
     closeOnce := closeOnce s; readyCh := readyCh s;
     readyOnce := readyOnce s; initErr := initErr s;
     toolHandlers := toolHandlers s |}.

Definition set_connected (b : bool) (s : Session) :=
  {| transport := transport s; options := options s; sessionID := sessionID s;
     state := state s; handlers := handlers s; connected := b;
     msgCh := msgCh s; errCh := errCh s; closeCh := closeCh s;
     closeOnce := closeOnce s; readyCh := readyCh s;
     readyOnce := readyOnce s; initErr := initErr s;
     toolHandlers := toolHandlers s |}.

Definition set_msgCh (q : list IncomingMessage) (s : Session) :=
  {| transport := transport s; options := options s; sessionID := sessionID s;
     state := state s; handlers := handlers s; connected := connected s;
     msgCh := q; errCh := errCh s; closeCh := closeCh s;
     closeOnce := closeOnce s; readyCh := readyCh s;
     readyOnce := readyOnce s; initErr := initErr s;
     toolHandlers := toolHandlers s |}.

Definition set_errCh (q : list GoError) (s : Session) :=
  {| transport := transport s; options := options s; sessionID := sessionID s;
     state := state s; handlers := handlers s; connected := connected s;
     msgCh := msgCh s; errCh := q; closeCh := closeCh s;
     closeOnce := closeOnce s; readyCh := readyCh s;
     readyOnce := readyOnce s; initErr := initErr s;
     toolHandlers := toolHandlers s |}.

(** [s.closeOnce.Do(func() { close(s.closeCh) ... })], first statement. *)
Definition set_closed (s : Session) :=
  {| transport := transport s; options := options s; sessionID := sessionID s;
     state := state s; handlers := handlers s; connected := connected s;
     msgCh := msgCh s; errCh := errCh s; closeCh := true;
     closeOnce := true; readyCh := readyCh s;
     readyOnce := readyOnce s; initErr := initErr s;
     toolHandlers := toolHandlers s |}.

(** [s.readyOnce.Do(func() { close(s.readyCh) })]. *)
Definition fire_ready (s : Session) :=
  if readyOnce s then s else
  {| transport := transport s; options := options s; sessionID := sessionID s;
     state := state s; handlers := handlers s; connected := connected s;
     msgCh := msgCh s; errCh := errCh s; closeCh := closeCh s;
     closeOnce := closeOnce s; readyCh := true;
     readyOnce := true; initErr := initErr s;
     toolHandlers := toolHandlers s |}.

Definition set_initErr (e : option GoError) (s : Session) :=
  {| transport := transport s; options := options s; sessionID := sessionID s;
     state := state s; handlers := handlers s; connected := connected s;
     msgCh := msgCh s; errCh := errCh s; closeCh := closeCh s;
     closeOnce := closeOnce s; readyCh := readyCh s;
     readyOnce := readyOnce s; initErr := e;
     toolHandlers := toolHandlers s |}.

Definition set_toolHandlers (m : gmap string ToolHandler) (s : Session) :=
  {| transport := transport s; options := options s; sessionID := sessionID s;
     state := state s; handlers := handlers s; connected := connected s;
     msgCh := msgCh s; errCh := errCh s; closeCh := closeCh s;
     closeOnce := closeOnce s; readyCh := readyCh s;
     readyOnce := readyOnce s; initErr := initErr s;
     toolHandlers := m |}.

Definition with_self (f : Session -> Session) (w : World) : World :=
  {| self := f (self w); ptr := ptr w; client := client w;
     parked := parked w; streams := streams w |}.

Definition with_client (f : Client -> Client) (w : World) : World :=
  {| self := self w; ptr := ptr w; client := f (client w);
     parked := parked w; streams := streams w |}.

Definition set_parked (p : option IncomingMessage) (w : World) : World :=
  {| self := self w; ptr := ptr w; client := client w;
     parked := p; streams := streams w |}.

Definition set_streams (l : list StreamPC) (w : World) : World :=
  {| self := self w; ptr := ptr w; client := client w;
     parked := parked w; streams := l |}.

Definition set_sessions (m : gmap string nat) (c : Client) : Client :=
  {| client_options := client_options c; sessions := m;
     client_handlers := client_handlers c |}.

Definition field {A} (f : Session -> A) : Sess A := gets (fun w => f (self w)).
Definition update (f : Session -> Session) : Sess unit := modify (with_self f).

(** client.go *)
Definition NewClient (opts : ClientOptions) : Client :=
  {| client_options := Merge DefaultClientOptions opts;
     sessions := ∅;
     client_handlers := {| client_OnError := false; OnSessionStart := false;
                           OnSessionEnd := false |} |}.

Definition Client_On (h : ClientEventHandlers) (c : Client) : Client :=
  {| client_options := client_options c; sessions := sessions c;
     client_handlers := h |}.

Definition removeSession (sessionID : string) : Sess unit :=
  modify (with_client (fun c => set_sessions (delete sessionID (sessions c)) c)) ;;
  h <- gets (fun w => client_handlers (client w)) ;;
  when (OnSessionEnd h) (emit (Client_OnSessionEnd sessionID)).

Definition notifySessionStart (sessionID : string) : Sess unit :=
  h <- gets (fun w => client_handlers (client w)) ;;
  when (OnSessionStart h) (emit (Client_OnSessionStart sessionID)).

Definition notifyError (err : GoError) : Sess unit :=
  h <- gets (fun w => client_handlers (client w)) ;;
  when (client_OnError h) (emit (Client_OnError err)).

(** session.go *)
Definition extractTools (tools : list ToolDefinition)
    (m : gmap string ToolHandler) : gmap string ToolHandler :=
  fold_left (fun m tool =>
               match Handler tool with
               | Some h => <[ToolName tool := h]> m
               | None => m
               end) tools m.

Definition extractToolHandlers (opts : SessionOptions)
  : gmap string ToolHandler :=
  fold_left (fun m server =>
               match server with
               | McpClientToolsServer _ _ tools => extractTools tools m
               | _ => m
               end) (McpServers opts) ∅.

Definition newSession (t : Transport.WebSocketTransport)
    (opts : SessionOptions) : Session :=
  {| transport :=
       Transport.set_handlers
         {| Transport.OnMessage := true; Transport.OnClose := true;
            Transport.OnStatusChange := true; Transport.OnError := true |} t;
     options := opts;
     sessionID := "";
     state := SessionStateIdle;
     handlers := {| OnMessage := false; OnError := false; OnClose := false |};
     connected := false;
     msgCh := []; errCh := [];
     closeCh := false; closeOnce := false;
     readyCh := false; readyOnce := false;
     initErr := None;
     toolHandlers := extractToolHandlers opts |}.

Definition ID : Sess string := field sessionID.
Definition State : Sess SessionState := field state.
Definition setState (st : SessionState) : Sess unit := update (set_state st).
Definition On (h : SessionEventHandlers) : Sess unit := update (set_handlers h).

Definition handleStatusChange (st : Transport.ConnectionStatus) : Sess unit :=
  ret tt.

Definition handleError (err : GoError) : Sess unit :=
  q <- field errCh ;;
  when (bool_decide (length q < errCh_cap)%nat)
       (update (set_errCh (q ++ [err]))) ;;
  notifyError err ;;
  h <- field handlers ;;
  when (OnError h) (emit (Call_OnError err)).

(** A method of the transport called from the session. The callbacks the
    transport invokes on the way are the session's [handleError] and
    [handleStatusChange]; neither reaches the transport, so they are run
    on the transport's output, in its order. *)
Definition deliver (o : Transport.Out) : Sess unit :=
  match o with
  | Transport.Call_OnError e => handleError e
  | Transport.Call_OnStatusChange st => handleStatusChange st
  | _ => emit (Wire o)
  end.

Definition onTransport {A} (m : Transport.T A) : Sess A :=
  t <- field transport ;;
  let r := m t in
  update (set_transport (final r)) ;;
  forEach (output r) deliver ;;
  ret (result r).

Definition transport_Send (msg : OutgoingMessage) : Sess (option GoError) :=
  emit (Transport_Send msg) ;;
  onTransport (Transport.Send msg).

Definition transport_Disconnect : Sess (option GoError) :=
  emit Transport_Disconnect ;;
  onTransport Transport.Disconnect.

Definition strings_object (l : list (string * string)) : JValue :=
  JObject (map (fun kv => (fst kv, JString (snd kv))) l).

(** The maps that [mcpServerToMap] builds, with their entries as the
    source writes them; in each of them the encoder can reject one entry
    at most (the input schema of a tool, the tools of a server). *)
Definition toolMap (tool : ToolDefinition) : JValue :=
  JObject
    ([("name", JString (ToolName tool));
      ("description", JString (ToolDescription tool));
      ("inputSchema", InputSchema tool)]
     ++ match Handler tool with
        | Some _ => [("executeIn", JString "client")]
        | None => []
        end).

Definition mcpServerToMap (server : McpServerDefinition) : option JValue :=
  match server with
  | McpClientToolsServer name version tools =>
      Some (JObject [("name", JString name); ("version", JString version);
                     ("tools", JArray (map toolMap tools))])
  | McpStdioServerConfig name command args env =>
      Some (JObject [("name", JString name); ("type", JString "stdio");
                     ("command", JString command);
                     ("args", JArray (map JString args));
                     ("env", strings_object env)])
  | McpSSEServerConfig name url headers =>
      Some (JObject [("name", JString name); ("type", JString "sse");
                     ("url", JString url);
                     ("headers", strings_object headers)])
  | McpHTTPServerConfig name url headers =>
      Some (JObject [("name", JString name); ("type", JString "http");
                     ("url", JString url);
                     ("headers", strings_object headers)])
  | McpOtherServer _ => None
  end.

Definition initEnvelope (o : SessionOptions) : InitEnvelope :=
  let mcpServers :=
    match McpServers o with
    | [] => JNull
    | servers => JArray (omap mcpServerToMap servers)
    end in
  {| init_Type := MessageTypeInit;
     init_Payload :=
       {| init_Model := Model o;
          init_FallbackModel := FallbackModel o;
          init_SystemPrompt := SystemPrompt o;
          init_MaxTurns := MaxTurns o;
          init_MaxBudgetUsd := MaxBudgetUsd o;
          init_MaxThinkingTokens := MaxThinkingTokens o;
          init_Tools := Tools o;
          init_McpServers := mcpServers;
          init_PermissionMode := PermissionMode o;
          init_OutputFormat := Format o;
          init_IncludePartialMessages := IncludePartialMessages o;
          init_Env := Env o;
          init_SessionID := "";
          init_ForkSession := ForkSession o;
          init_ResumeSessionAt := ResumeSessionAt o;
          init_Continue := Continue o |} |}.

Definition sendInit : Sess (option GoError) :=
  o <- field options ;;
  transport_Send (OutInit (initEnvelope o)).

(** The handler's input: the payload if it is a map; otherwise the
    payload re-encoded and decoded into a map, which leaves the map nil. *)
Definition toInput (v : JValue) : list (string * JValue) :=
  match v with
  | JObject fs => fs
  | _ => []
  end.

Definition errorResult (text : string) : ToolResult :=
  {| Content := [TextToolContent "text" text]; IsError := true |}.

(** The result that [handleToolCall] computes for a call, given the
    registry. *)
Definition toolResult (hs : gmap string ToolHandler)
    (call : ToolCallPayload) : option ToolResult :=
  match (hs !! call_ToolName call : option ToolHandler) with
  | None => Some (errorResult ("Tool not found: " +:+ call_ToolName call))
  | Some handler =>
      let r : option ToolResult * option GoError :=
        handler (toInput (Input call)) in
      match snd r with
      | Some err => Some (errorResult ("Tool execution error: " +:+ Error err))
      | None => fst r
      end
  end.

Definition toolResultEnvelope (callID : string) (result : option ToolResult)
  : ToolResultEnvelope :=
  {| toolresult_Type := MessageTypeToolResult;
     toolresult_Payload :=
       {| result_CallID := callID; result_Result := result |} |}.

Definition handleToolCall (call : ToolCallPayload) : Sess unit :=
  setState SessionStateWaitingTool ;;
  hs <- field toolHandlers ;;
  let result := toolResult hs call in
  let resultMsg := toolResultEnvelope (CallID call) result in
  err <- transport_Send (OutToolResult resultMsg) ;;
  match err with
  | Some e => handleError e
  | None => ret tt
  end ;;
  setState SessionStateProcessing.

(** The end of [handleMessage]: the [select] that sends on [msgCh] or
    sees [closeCh], then the [OnMessage] callback. [prefer_close] is the
    branch taken when both are ready. The result is [false] when neither
    is: the read loop stays blocked there. *)
Definition forward (msg : IncomingMessage) (prefer_close : bool) : Sess bool :=
  q <- field msgCh ;;
  closed <- field closeCh ;;
  let room := bool_decide (length q < msgCh_cap)%nat in
  if negb room && negb closed then ret false
  else
    when (room && negb (closed && prefer_close))
         (update (set_msgCh (q ++ [msg]))) ;;
    h <- field handlers ;;
    when (OnMessage h) (emit (Call_OnMessage msg)) ;;
    ret true.

(** The first part of [handleMessage], taken while not connected. The
    result is [true] when the function returns there. *)
Definition readySignals (msg : IncomingMessage) : Sess bool :=
  match msg with
  | Control e =>
      if bool_decide (Action (control_Payload e) = ControlActionReady)
         || bool_decide (Action (control_Payload e) = ControlActionSessionInfo)
      then update fire_ready ;; ret true
      else ret false
  | System m =>
      if bool_decide (sys_Subtype m = SystemSubtypeInit) then
        when (bool_decide (sys_SessionID m <> ""))
             (update (set_sessionID (sys_SessionID m))) ;;
        update fire_ready ;;
        ret false
      else ret false
  | ErrorEnv p =>
      update (set_initErr (Some (Chucky (SessionError (err_Message p))))) ;;
      update fire_ready ;;
      ret false
  | _ => ret false
  end.

(** [handleMessage]; the result is [false] when it is blocked in its
    final [select]. *)
Definition handleMessage (msg : IncomingMessage) (prefer_close : bool)
  : Sess bool :=
  c <- field connected ;;
  returned <- (if negb c then readySignals msg else ret false) ;;
  if returned then ret true
  else
    match msg with
    | ToolCall call => handleToolCall call ;; ret true
    | _ => forward msg prefer_close
    end.

Definition closeMsg : ControlEnvelope :=
  {| control_Type := MessageTypeControl;
     control_Payload := {| Action := ControlActionClose; Data := JNull |} |}.

Definition Close : Sess unit :=
  once <- field closeOnce ;;
  if once then ret tt
  else
    update set_closed ;;
    _ <- transport_Send (OutControl closeMsg) ;;
    _ <- transport_Disconnect ;;
    id <- field sessionID ;;
    removeSession id ;;
    h <- field handlers ;;
    when (OnClose h) (emit Call_OnClose).

Definition handleClose (code : Z) (reason : string) : Sess unit := Close.

(** [Stream] starts a goroutine and returns its channel; the result
    here is the index of the goroutine in [streams]. *)
Definition Stream : Sess nat :=
  l <- gets streams ;;
  modify (set_streams (l ++ [Receiving])) ;;
  ret (length l).

(** What lets a [Stream] goroutine move: [Go] is a message taken from
    [msgCh], or the consumer taking the message held for it; [Cancel] is
    [ctx.Done()]; [SeeClose] is the [closeCh] branch. *)
Inductive StreamEv := Go | Cancel | SeeClose.

Definition set_pc (i : nat) (pc : StreamPC) : Sess unit :=
  l <- gets streams ;;
  modify (set_streams (<[i := pc]> l)).

Definition stream_return (i : nat) : Sess unit :=
  set_pc i Finished ;; emit (Stream_closed i).

Definition isResult (msg : IncomingMessage) : bool :=
  match msg with
  | Result _ => true
  | _ => false
  end.

(** One move of the goroutine of [Stream] number [i]; no move when the
    chosen branch is not ready. *)
Definition stream_step (i : nat) (ev : StreamEv) : Sess unit :=
  l <- gets streams ;;
  closed <- field closeCh ;;
  match l !! i with
  | Some Receiving =>
      match ev with
      | Cancel => stream_return i
      | SeeClose => when closed (stream_return i)
      | Go =>
          q <- field msgCh ;;
          match q with
          | msg :: q' => update (set_msgCh q') ;; set_pc i (Sending msg)
          | [] => ret tt
          end
      end
  | Some (Sending msg) =>
      match ev with
      | Cancel => stream_return i
      | SeeClose => when closed (stream_return i)
      | Go =>
          emit (Stream_out i msg) ;;
          if isResult msg then
            setState SessionStateCompleted ;; stream_return i
          else set_pc i Receiving
      end
  | _ => ret tt
  end.

(** What the goroutines other than the caller's do. *)
Inductive Event :=
| Recv (msg : IncomingMessage) (prefer_close : bool)
| Unpark (prefer_close : bool)
| BadFrame (cause : string)
| ReadError (cause : string)
| Tick (now : Z)
| CallClose
| StreamStep (i : nat) (ev : StreamEv).

(** The read loop after [ParseIncomingMessage]: it calls the [OnMessage]
    callback, which is [handleMessage]. *)
Definition readLoop_message (msg : IncomingMessage) (prefer_close : bool)
  : Sess unit :=
  p <- gets parked ;;
  t <- field transport ;;
  match p with
  | Some _ => ret tt
  | None =>
      if Transport.OnMessage (Transport.handlers t) then
        done <- handleMessage msg prefer_close ;;
        if done then ret tt else modify (set_parked (Some msg))
      else ret tt
  end.

Definition readLoop_unpark (prefer_close : bool) : Sess unit :=
  p <- gets parked ;;
  match p with
  | Some msg =>
      done <- forward msg prefer_close ;;
      when done (modify (set_parked None))
  | None => ret tt
  end.

(** The read loop when [ParseIncomingMessage] fails: the [OnError]
    callback, and the frame is skipped. *)
Definition readLoop_badFrame (cause : string) : Sess unit :=
  p <- gets parked ;;
  t <- field transport ;;
  if bool_decide (p <> None) then ret tt
  else
    when (Transport.OnError (Transport.handlers t))
         (handleError (Chucky (Wrap (ProtocolError "failed to parse message")
                                    cause))).

(** The read loop when [ReadMessage] fails: nothing if the transport was
    closed, else the [OnError] and [OnClose] callbacks. *)
Definition readLoop_error (cause : string) : Sess unit :=
  p <- gets parked ;;
  t <- field transport ;;
  if bool_decide (p <> None) || Transport.closeCh t then ret tt
  else
    when (Transport.OnError (Transport.handlers t))
         (handleError (Chucky (Wrap (ConnectionError "read error") cause))) ;;
    when (Transport.OnClose (Transport.handlers t))
         (handleClose 1006 cause).

Definition step (a : Event) : Sess unit :=
  match a with
  | Recv msg prefer_close => readLoop_message msg prefer_close
  | Unpark prefer_close => readLoop_unpark prefer_close
  | BadFrame cause => readLoop_badFrame cause
  | ReadError cause => readLoop_error cause
  | Tick now => onTransport (Transport.keepAliveTick now)
  | CallClose => Close
  | StreamStep i ev => stream_step i ev
  end.

Definition run (l : list Event) : Sess unit := forEach l step.

(** A call that may stay blocked. *)
Inductive Call (A : Type) :=
| Returned (a : A)
| Blocked.
Arguments Returned {A} a.
Arguments Blocked {A}.

(** The branch that the [select] of [Connect] takes. *)
Inductive Wake :=
| ReadyCh
| CtxDone (err : GoError)
| CloseCh.

(** What a call of [Connect] takes from outside: the outcome of the
    dial and of the wait for the transport, what the other goroutines do
    while the call waits in its [select], and the branch it leaves by. *)
Record ConnectEnv := {
  dial : Transport.DialOutcome;
  timeout_first : bool;
  during : list Event;
  wake : Wake;
}.

Definition failWith (e : GoError) : Sess (Call (option GoError)) :=
  setState SessionStateError ;; ret (Returned (Some e)).

Definition Connect_select (w : Wake) : Sess (Call (option GoError)) :=
  match w with
  | ReadyCh =>
      r <- field readyCh ;;
      if r then
        e <- field initErr ;;
        match e with
        | Some e => failWith e
        | None =>
            update (set_connected true) ;;
            setState SessionStateReady ;;
            id <- field sessionID ;;
            notifySessionStart id ;;
            ret (Returned None)
        end
      else ret Blocked
  | CtxDone err => failWith err
  | CloseCh =>
      c <- field closeCh ;;
      if c then
        failWith (Chucky (SessionError "session closed during initialization"))
      else ret Blocked
  end.

Definition Connect (env : ConnectEnv) : Sess (Call (option GoError)) :=
  c <- field connected ;;
  if c then ret (Returned None)
  else
    setState SessionStateInitializing ;;
    err <- onTransport (Transport.Connect (dial env)) ;;
    match err with
    | Some e => failWith e
    | None =>
        err <- onTransport (Transport.WaitForReady (timeout_first env)) ;;
        match err with
        | Some e => failWith e
        | None =>
            err <- sendInit ;;
            match err with
            | Some e => failWith e
            | None => run (during env) ;; Connect_select (wake env)
            end
        end
    end.

(** [Send]; [uuid] is the value of [uuid.New().String()]. *)
Definition userMessage (uuid sessionID message : string) : SDKUserMessage :=
  {| user_Type := MessageTypeUser;
     user_UUID := uuid;
     user_SessionID := sessionID;
     user_Role := RoleUser;
     user_Content := message;
     user_ParentToolUseID := None |}.

Definition Send (env : ConnectEnv) (uuid message : string)
  : Sess (Call (option GoError)) :=
  c <- field connected ;;
  r <- (if negb c then Connect env else ret (Returned None)) ;;
  match r with
  | Blocked => ret Blocked
  | Returned (Some err) => ret (Returned (Some err))
  | Returned None =>
      setState SessionStateProcessing ;;
      id <- field sessionID ;;
      let sessionID := if decide (id = "") then "unknown" else id in
      err <- transport_Send (OutUser (userMessage uuid sessionID message)) ;;
      ret (Returned err)
  end.

(** client.go: [CreateSession]; [p] is the address of the new session. *)
Definition zeroOptions : SessionOptions :=
  {| Model := ""; FallbackModel := ""; SystemPrompt := JNull; MaxTurns := 0;
     MaxBudgetUsd := 0; MaxThinkingTokens := 0; Tools := JNull;
     McpServers := []; PermissionMode := ""; Format := None;
     IncludePartialMessages := false; Env := [];
     SessionID := ""; ForkSession := false; ResumeSessionAt := "";
     Continue := false |}.

Definition CreateSession (opts : option SessionOptions) (p : nat)
    (c : Client) : World :=
  let opts := default zeroOptions opts in
  let t := Transport.NewWebSocketTransport
             {| Transport.opt_BaseURL := BaseURL (client_options c);
                Transport.opt_Token := Token (client_options c);
                Transport.opt_Timeout := Timeout (client_options c);
                Transport.opt_KeepAliveInterval :=
                  KeepAliveInterval (client_options c);
                Transport.opt_Debug := Debug (client_options c) |} in
  let session := newSession t opts in
  {| self := session; ptr := p;
     client := set_sessions (<[sessionID session := p]> (sessions c)) c;
     parked := None; streams := [] |}.

(** client.go: [ResumeSession]. The options are written through the
    caller's pointer: the first component of the result is what the caller
    finds in its own options afterwards, if it passed any. *)
Definition ResumeSession (sessionID : string) (opts : option SessionOptions)
    (p : nat) (c : Client) : option SessionOptions * World :=
  let o := default zeroOptions opts in
  let o' :=
    {| Model := Model o; FallbackModel := FallbackModel o;
       SystemPrompt := SystemPrompt o; MaxTurns := MaxTurns o;
       MaxBudgetUsd := MaxBudgetUsd o;
       MaxThinkingTokens := MaxThinkingTokens o; Tools := Tools o;
       McpServers := McpServers o; PermissionMode := PermissionMode o;
       Format := Format o;
       IncludePartialMessages := IncludePartialMessages o; Env := Env o;
       SessionID := sessionID; ForkSession := ForkSession o;
       ResumeSessionAt := ResumeSessionAt o; Continue := true |} in
  (match opts with Some _ => Some o' | None => None end,
   CreateSession (Some o') p c).

(** The calls of a program that uses the session, and the moves of the
    other goroutines, in the order in which they happen. *)
Inductive Op :=
| Concurrent (a : Event)
| CallConnect (env : ConnectEnv)
| CallSend (env : ConnectEnv) (uuid message : string)
| CallStream
| CallOn (h : SessionEventHandlers).

Definition exec (o : Op) : Sess unit :=
  match o with
  | Concurrent a => step a
  | CallConnect env => _ <- Connect env ;; ret tt
  | CallSend env uuid message => _ <- Send env uuid message ;; ret tt
  | CallStream => _ <- Stream ;; ret tt
  | CallOn h => On h
  end.

Definition execAll (l : list Op) : Sess unit := forEach l exec.

End Chucky.

(** ** pkg/tools *)

Module Tools.
Import Types.

(** [Tool]. [BrowserTool] and [ServerTool] differ from it in [ExecuteIn]
    only, a field that [ToolDefinition] leaves out here: the session
    never reads it. A nil handler is [None]. *)
Definition Tool (name description : string) (schema : JValue)
    (handler : option ToolHandler) : ToolDefinition :=
  {| ToolName := name; ToolDescription := description;
     InputSchema := schema; Handler := handler |}.

Definition TextResult (text : string) : ToolResult :=
  {| Content := [TextToolContent "text" text]; IsError := false |}.

Definition ErrorResult (message : string) : ToolResult :=
  {| Content := [TextToolContent "text" message]; IsError := true |}.

(** [SimpleHandler]: [fn] is user code, taken as a function that returns
    Go's pair of a string and an error. *)
Definition SimpleHandler
    (fn : list (string * JValue) -> string * option GoError) : ToolHandler :=
  fun input =>
    let out := fn input in
    match snd out with
    | Some err => (Some (ErrorResult (Error err)), None)
    | None => (Some (TextResult (fst out)), None)
    end.

(** [McpServerBuilder]: the builder is updated in place and returned by
    each method; here each method returns the updated builder. *)
Record McpServerBuilder := {
  name : string;
  version : string;
  tools : list ToolDefinition;
}.

Definition NewMcpServer (name : string) : McpServerBuilder :=
  {| name := name; version := "1.0.0"; tools := [] |}.

Definition Version (version : string) (b : McpServerBuilder)
  : McpServerBuilder :=
  {| name := name b; version := version; tools := tools b |}.

Definition Add (tool : ToolDefinition) (b : McpServerBuilder)
  : McpServerBuilder :=
  {| name := name b; version := version b; tools := tools b ++ [tool] |}.

Definition AddTools (ts : list ToolDefinition) (b : McpServerBuilder)
  : McpServerBuilder :=
  {| name := name b; version := version b; tools := tools b ++ ts |}.

Definition Build (b : McpServerBuilder) : McpServerDefinition :=
  McpClientToolsServer (name b) (version b) (tools b).

Definition CreateSdkMcpServer (name : string) (tools : list ToolDefinition)
  : McpServerDefinition :=
  McpClientToolsServer name "1.0.0" tools.

End Tools.

(** ** pkg/utils *)

Module Utils.
Import Types.

(** token.go (package types): the payload of a token and the options of
    [CreateToken]. *)
Record TokenBudget := {
  AI : Z;
  Compute : Z;
  Window : string;
  WindowStart : string;
}.

Record TokenPermissions := {
  AllowedModels : list string;
  AllowedTools : list string;
  MaxTurnsPerSession : Z;
}.

Record TokenSdkConfig := {
  DefaultModel : string;
  sdk_SystemPrompt : string;
}.

Record BudgetTokenPayload := {
  Subject : string;
  Issuer : string;
  IssuedAt : Z;
  ExpiresAt : Z;
  Budget : TokenBudget;
  Permissions : option TokenPermissions;
  SdkConfig : option TokenSdkConfig;
}.

Record CreateTokenOptions := {
  UserID : string;
  ProjectID : string;
  Secret : string;
  opt_Budget : TokenBudget;
  ExpiresIn : Z;
  opt_Permissions : option TokenPermissions;
  opt_SdkConfig : option TokenSdkConfig;
}.

(** [strings.Split] with a separator of one byte. *)
Fixpoint Split (s : string) (sep : ascii) : list string :=
  match s with
  | EmptyString => [""]
  | String a s' =>
      if decide (a = sep) then "" :: Split s' sep
      else
        match Split s' sep with
        | part :: parts => String a part :: parts
        | [] => [String a ""]
        end
  end.

(** [strings.TrimRight] with a cutset of one byte. *)
Fixpoint TrimRight (s : string) (c : ascii) : string :=
  match s with
  | EmptyString => ""
  | String a s' =>
      match TrimRight s' c with
      | EmptyString => if decide (a = c) then "" else String a ""
      | t => String a t
      end
  end.

(** [base64.URLEncoding.EncodeToString]: the alphabet of RFC 4648 that is
    safe in URLs, with padding. A slice of bytes is a string here. The
    index into the alphabet is masked to six bits, as in the library, so
    that it is always in range. *)
Definition encodeURL : string :=
  "ABCDEFGHIJKLMNOPQRSTUVWXYZabcdefghijklmnopqrstuvwxyz0123456789-_".

Definition enc (val shift : N) : ascii :=
  default "A"%char
    (String.get (N.to_nat (N.land (N.shiftr val shift) 63)) encodeURL).

Fixpoint EncodeToString (src : string) : string :=
  match src with
  | String a (String b (String c rest)) =>
      let val :=
        N.lor (N.lor (N.shiftl (N_of_ascii a) 16) (N.shiftl (N_of_ascii b) 8))
              (N_of_ascii c) in
      String (enc val 18) (String (enc val 12) (String (enc val 6)
        (String (enc val 0) (EncodeToString rest))))
  | String a (String b EmptyString) =>
      let val :=
        N.lor (N.shiftl (N_of_ascii a) 16) (N.shiftl (N_of_ascii b) 8) in
      String (enc val 18) (String (enc val 12) (String (enc val 6) "="))
  | String a EmptyString =>
      let val := N.shiftl (N_of_ascii a) 16 in
      String (enc val 18) (String (enc val 12) "==")
  | EmptyString => ""
  end.

Definition base64URLEncode (data : string) : string :=
  TrimRight (EncodeToString data) "=".

(** [json.Marshal] of the header, a map with two keys: the keys are
    written in sorted order. *)
Definition quote : string := String "034" "".

Definition headerJSON : string :=
  "{" +:+ quote +:+ "alg" +:+ quote +:+ ":" +:+ quote +:+ "HS256" +:+ quote
  +:+ "," +:+ quote +:+ "typ" +:+ quote +:+ ":" +:+ quote +:+ "JWT" +:+ quote
  +:+ "}".

Definition Hour : Z := 3600 * Second.

Section Token.
(** What the code takes from the library: HMAC with SHA-256, of a key and
    data, and the JSON encoding of a payload, which has no field that the
    encoder rejects. *)
Variable HMAC_SHA256 : string -> string -> string.
Variable Marshal : BudgetTokenPayload -> string.

Definition signHS256 (data secret : string) : string :=
  HMAC_SHA256 secret data.

(** [CreateToken]; [now] is the value of [time.Now()], in nanoseconds
    since the epoch. *)
Definition CreateToken (now : Z) (opts : CreateTokenOptions)
  : string * option GoError :=
  let expiresIn := if decide (ExpiresIn opts = 0) then Hour else ExpiresIn opts in
  let payload :=
    {| Subject := UserID opts;
       Issuer := ProjectID opts;
       IssuedAt := now / Second;
       ExpiresAt := (now + expiresIn) / Second;
       Budget := opt_Budget opts;
       Permissions := opt_Permissions opts;
       SdkConfig := opt_SdkConfig opts |} in
  let headerB64 := base64URLEncode headerJSON in
  let payloadB64 := base64URLEncode (Marshal payload) in
  let signingInput := headerB64 +:+ "." +:+ payloadB64 in
  let signature := signHS256 signingInput (Secret opts) in
  let signatureB64 := base64URLEncode signature in
  (signingInput +:+ "." +:+ signatureB64, None).

Definition VerifyToken (token secret : string) : bool * option GoError :=
  match Split token "." with
  | [header; payload; signature] =>
      let signingInput := header +:+ "." +:+ payload in
      let expectedSignature :=
        base64URLEncode (signHS256 signingInput secret) in
      (bool_decide (signature = expectedSignature), None)
  | _ => (false, Some (OtherErr "invalid token format"))
  end.

End Token.

Definition ExtractProjectID (hmacKey : string) : string :=
  match Split hmacKey "_" with
  | first :: second :: _ =>
      if decide (first = "hmac") then second else ""
  | _ => ""
  end.

End Utils.

(** * Properties *)

(** ** Reasoning about computations *)

Section Keeps.
Context {S O : Type} (R : relation S).

(** [keeps R m]: the final state of [m] is related to its initial state. *)
Definition keeps {A} (m : M S O A) : Prop := forall s, R s (final (m s)).

Lemma keeps_ret `{!Reflexive R} {A} (a : A) : keeps (ret a).
Proof. intros s. reflexivity. Qed.

Lemma keeps_gets `{!Reflexive R} {A} (f : S -> A) : keeps (gets f).
Proof. intros s. reflexivity. Qed.

Lemma keeps_emit `{!Reflexive R} (o : O) : keeps (emit o).
Proof. intros s. reflexivity. Qed.

Lemma keeps_modify (f : S -> S) : (forall s, R s (f s)) -> keeps (modify f).
Proof. intros H s. apply H. Qed.

Lemma keeps_bind `{!Transitive R} {A B} (m : M S O A) (k : A -> M S O B) :
  keeps m -> (forall a, keeps (k a)) -> keeps (bind m k).
Proof.
  intros Hm Hk s. unfold bind, final. cbn.
  etrans; [apply Hm | apply Hk].
Qed.

Lemma keeps_when `{!Reflexive R} (b : bool) (m : M S O unit) :
  (b = true -> keeps m) -> keeps (when b m).
Proof. destruct b; cbn; [auto | intros _; apply keeps_ret]. Qed.

Lemma keeps_forEach `{!PreOrder R} {A} (l : list A) (f : A -> M S O unit) :
  (forall x, x ∈ l -> keeps (f x)) -> keeps (forEach l f).
Proof.
  induction l as [|x l IH]; intros H; cbn.
  - apply keeps_ret.
  - apply keeps_bind.
    + apply H. left.
    + intros _. apply IH. intros y Hy. apply H. by right.
Qed.
End Keeps.

Lemma keeps_weaken {S O A} (R R' : relation S) (m : M S O A) :
  (forall s s', R s s' -> R' s s') -> keeps R m -> keeps R' m.
Proof. intros H Hm s. apply H, Hm. Qed.

Lemma output_bind {S O A B} (m : M S O A) (k : A -> M S O B) (s : S) :
  output (bind m k s) = output (m s) ++ output (k (result (m s)) (final (m s))).
Proof. reflexivity. Qed.

Lemma final_bind {S O A B} (m : M S O A) (k : A -> M S O B) (s : S) :
  final (bind m k s) = final (k (result (m s)) (final (m s))).
Proof. reflexivity. Qed.

Lemma result_bind {S O A B} (m : M S O A) (k : A -> M S O B) (s : S) :
  result (bind m k s) = result (k (result (m s)) (final (m s))).
Proof. reflexivity. Qed.

Ltac keeps_step :=
  lazymatch goal with
  | |- keeps ?R (bind ?m ?k) => refine (keeps_bind R m k _ _); [| intros ?]
  | |- keeps ?R (ret ?a) => exact (keeps_ret R a)
  | |- keeps ?R (gets ?f) => exact (keeps_gets R f)
  | |- keeps ?R (emit ?o) => exact (keeps_emit R o)
  | |- keeps ?R (when ?b ?m) => refine (keeps_when R b m _); intros ?
  | |- keeps ?R (modify ?f) => refine (keeps_modify R f _); intros ?
  | |- keeps _ (match ?x with _ => _ end) => destruct x
  end.

Import Types Chucky.

(** ** Framing: what the auxiliary methods of the session leave alone *)

Section Frame.
Variable R : relation World.
Variable TR : relation Transport.WebSocketTransport.
Context `{!PreOrder R}.
Hypothesis R_state : forall st w, R w (with_self (set_state st) w).
Hypothesis R_errCh : forall q w, R w (with_self (set_errCh q) w).
Hypothesis R_transport :
  forall t w, TR (transport (self w)) t -> R w (with_self (set_transport t) w).
Hypothesis TR_Send : forall msg t, TR t (final (Transport.Send msg t)).

Lemma keeps_setState st : keeps R (setState st).
Proof. apply keeps_modify. intros w. apply R_state. Qed.

Lemma keeps_notifyError e : keeps R (notifyError e).
Proof. unfold notifyError. repeat keeps_step. Qed.

Lemma keeps_handleError e : keeps R (handleError e).
Proof.
  unfold handleError, field, update. repeat keeps_step.
  - apply R_errCh.
  - apply keeps_notifyError.
Qed.

Lemma keeps_deliver o : keeps R (deliver o).
Proof.
  destruct o; cbn [deliver]; try (by repeat keeps_step).
  - unfold handleStatusChange. keeps_step.
  - apply keeps_handleError.
Qed.

Lemma keeps_onTransport {A} (m : Transport.T A) :
  (forall t, TR t (final (m t))) -> keeps R (onTransport m).
Proof.
  intros Hm w. unfold onTransport, field, update.
  rewrite !final_bind. cbn.
  etrans; [apply (R_transport (final (m (transport (self w)))) w), Hm |].
  apply (keeps_forEach R). intros o _. apply keeps_deliver.
Qed.

Lemma keeps_transport_Send msg : keeps R (transport_Send msg).
Proof.
  unfold transport_Send. repeat keeps_step.
  apply keeps_onTransport, TR_Send.
Qed.

Lemma keeps_handleToolCall call : keeps R (handleToolCall call).
Proof.
  unfold handleToolCall, field. repeat keeps_step;
    auto using keeps_setState, keeps_transport_Send, keeps_handleError.
Qed.
End Frame.

(** ** The session identity *)

(** The identity that an inbound message assigns: the [session_id] of a
    System message of subtype "init", when it is not empty. *)
Definition announced (msg : IncomingMessage) : option string :=
  match msg with
  | System m =>
      if bool_decide (sys_Subtype m = SystemSubtypeInit)
         && bool_decide (sys_SessionID m <> "")
      then Some (sys_SessionID m) else None
  | _ => None
  end.

Definition event_ids (a : Event) : list string :=
  match a with
  | Recv msg _ => option_list (announced msg)
  | _ => []
  end.

Definition op_ids (o : Op) : list string :=
  match o with
  | Concurrent a => event_ids a
  | CallConnect env => flat_map event_ids (during env)
  | CallSend env _ _ => flat_map event_ids (during env)
  | _ => []
  end.

(** The identities announced by the messages received in the course of
    [ops], in order. *)
Definition observed (ops : list Op) : list string := flat_map op_ids ops.

(** [id_from P]: the identity is what it was, or one that satisfies [P]. *)
Definition id_from (P : string -> Prop) : relation World :=
  fun w w' => sessionID (self w') = sessionID (self w) \/ P (sessionID (self w')).

#[local] Instance id_from_preorder P : PreOrder (id_from P).
Proof.
  split.
  - intros w. by left.
  - intros w1 w2 w3 [H12|H12] [H23|H23]; unfold id_from.
    + left. congruence.
    + by right.
    + right. congruence.
    + by right.
Qed.

Section Identity.
Variable P : string -> Prop.
Local Abbreviation R := (id_from P).

Ltac same :=
  first [ exact _ | done
        | intros; left; cbn; try reflexivity; repeat case_match; reflexivity ].

Let TR : relation Transport.WebSocketTransport := fun _ _ => True.

Lemma id_with_self (f : Session -> Session) :
  (forall s, sessionID (f s) = sessionID s) -> forall w, R w (with_self f w).
Proof. intros H w. left. apply H. Qed.

Lemma id_update f :
  (forall s, sessionID (f s) = sessionID s) -> keeps R (update f).
Proof. intros H. apply keeps_modify, id_with_self, H. Qed.

Lemma id_setState st : keeps R (setState st).
Proof. by apply id_update. Qed.

Lemma id_handleError e : keeps R (handleError e).
Proof. apply (keeps_handleError R); same. Qed.

Lemma id_onTransport {A} (m : Transport.T A) : keeps R (onTransport m).
Proof. apply (keeps_onTransport R TR); same. Qed.

Lemma id_transport_Send msg : keeps R (transport_Send msg).
Proof. unfold transport_Send. repeat keeps_step. apply id_onTransport. Qed.

Lemma id_handleToolCall call : keeps R (handleToolCall call).
Proof. apply (keeps_handleToolCall R TR); same. Qed.

Lemma id_forward msg pc : keeps R (forward msg pc).
Proof. unfold forward, field. repeat keeps_step. by apply id_update. Qed.

Lemma id_fire_ready : keeps R (update fire_ready).
Proof. apply id_update. intros s. unfold fire_ready. by case_match. Qed.

Lemma id_readySignals msg :
  (forall id, announced msg = Some id -> P id) -> keeps R (readySignals msg).
Proof.
  intros H. destruct msg; cbn [readySignals]; try (by repeat keeps_step).
  - cbn in H.
    destruct (bool_decide (sys_Subtype m = SystemSubtypeInit)); cbn in H;
      [| by repeat keeps_step].
    repeat keeps_step; try apply id_fire_ready.
    apply keeps_modify. intros w. right. cbn. apply H.
    by rewrite H0.
  - repeat keeps_step; apply id_fire_ready.
  - repeat keeps_step; try apply id_fire_ready. by apply id_update.
Qed.

Lemma id_handleMessage msg pc :
  (forall id, announced msg = Some id -> P id) ->
  keeps R (handleMessage msg pc).
Proof.
  intros H. unfold handleMessage, field.
  repeat keeps_step;
    auto using id_readySignals, id_forward, id_handleToolCall.
Qed.

Lemma id_removeSession id : keeps R (removeSession id).
Proof. unfold removeSession. repeat keeps_step. by left. Qed.

Lemma id_Close : keeps R Close.
Proof.
  unfold Close, field, transport_Disconnect. repeat keeps_step;
    auto using id_transport_Send, id_onTransport, id_removeSession.
  by apply id_update.
Qed.

Lemma id_set_pc i pc : keeps R (set_pc i pc).
Proof. unfold set_pc. repeat keeps_step. by left. Qed.

Lemma id_stream_return i : keeps R (stream_return i).
Proof. unfold stream_return. repeat keeps_step. apply id_set_pc. Qed.

Lemma id_stream_step i ev : keeps R (stream_step i ev).
Proof.
  unfold stream_step, field. repeat keeps_step;
    auto using id_stream_return, id_set_pc, id_setState.
  by apply id_update.
Qed.

Lemma id_step a :
  (forall id, id ∈ event_ids a -> P id) -> keeps R (step a).
Proof.
  intros H. destruct a; cbn [step].
  - unfold readLoop_message, field. repeat keeps_step; try by left.
    apply id_handleMessage. intros id Hid. apply H. cbn. rewrite Hid. left.
  - unfold readLoop_unpark. repeat keeps_step; try by left.
    apply id_forward.
  - unfold readLoop_badFrame, field. repeat keeps_step.
    apply id_handleError.
  - unfold readLoop_error, field, handleClose. repeat keeps_step;
      auto using id_handleError, id_Close.
  - apply id_onTransport.
  - apply id_Close.
  - apply id_stream_step.
Qed.

Lemma id_run l :
  (forall id, id ∈ flat_map event_ids l -> P id) -> keeps R (run l).
Proof.
  intros H. apply (keeps_forEach R). intros a Ha. apply id_step.
  intros id Hid. apply H. apply list_elem_of_In, in_flat_map.
  exists a. split; by apply list_elem_of_In.
Qed.

Lemma id_failWith e : keeps R (failWith e).
Proof. unfold failWith. repeat keeps_step. apply id_setState. Qed.

Lemma id_Connect_select w : keeps R (Connect_select w).
Proof.
  unfold Connect_select, field, notifySessionStart. repeat keeps_step;
    auto using id_failWith, id_setState.
  by apply id_update.
Qed.

Lemma id_Connect env :
  (forall id, id ∈ flat_map event_ids (during env) -> P id) ->
  keeps R (Connect env).
Proof.
  intros H. unfold Connect, sendInit, field. repeat keeps_step;
    auto using id_failWith, id_setState, id_onTransport,
      id_transport_Send, id_run, id_Connect_select.
Qed.

Lemma id_Send env uuid message :
  (forall id, id ∈ flat_map event_ids (during env) -> P id) ->
  keeps R (Send env uuid message).
Proof.
  intros H. unfold Send, field. repeat keeps_step;
    auto using id_setState, id_transport_Send, id_Connect.
Qed.

Lemma id_exec o : (forall id, id ∈ op_ids o -> P id) -> keeps R (exec o).
Proof.
  intros H. destruct o; cbn [exec].
  - by apply id_step.
  - repeat keeps_step. by apply id_Connect.
  - repeat keeps_step. by apply id_Send.
  - unfold Stream. repeat keeps_step. by left.
  - by apply id_update.
Qed.

Lemma id_execAll ops :
  (forall id, id ∈ observed ops -> P id) -> keeps R (execAll ops).
Proof.
  intros H. apply (keeps_forEach R). intros o Ho. apply id_exec.
  intros id Hid. apply H. apply list_elem_of_In, in_flat_map.
  exists o. split; by apply list_elem_of_In.
Qed.
End Identity.

(** The inbound messages handled in the course of [ops]: those the read
    loop hands to [handleMessage], also while a call is waiting. *)
Definition event_msgs (a : Event) : list IncomingMessage :=
  match a with
  | Recv msg _ => [msg]
  | _ => []
  end.

Definition op_msgs (o : Op) : list IncomingMessage :=
  match o with
  | Concurrent a => event_msgs a
  | CallConnect env => flat_map event_msgs (during env)
  | CallSend env _ _ => flat_map event_msgs (during env)
  | _ => []
  end.

Definition received (ops : list Op) : list IncomingMessage :=
  flat_map op_msgs ops.

Lemma announced_Some msg id :
  announced msg = Some id ->
  exists m, msg = System m /\ sys_Subtype m = SystemSubtypeInit
            /\ sys_SessionID m = id /\ id <> "".
Proof.
  destruct msg; try discriminate. cbn.
  do 2 case_bool_decide; cbn; try discriminate.
  intros [= <-]. eauto.
Qed.

Lemma event_ids_msgs a id :
  id ∈ event_ids a -> exists msg, msg ∈ event_msgs a /\ announced msg = Some id.
Proof.
  destruct a; cbn; try (intros H; by apply elem_of_nil in H).
  destruct (announced msg) eqn:E; cbn; intros H.
  - apply list_elem_of_singleton in H as ->. exists msg. split; [left | done].
  - by apply elem_of_nil in H.
Qed.

Lemma flat_ids_msgs l id :
  id ∈ flat_map event_ids l ->
  exists msg, msg ∈ flat_map event_msgs l /\ announced msg = Some id.
Proof.
  intros H. apply list_elem_of_In, in_flat_map in H as (a & Ha & Hid).
  apply list_elem_of_In, event_ids_msgs in Hid as (msg & Hmsg & E).
  exists msg. split; [| done].
  apply list_elem_of_In, in_flat_map. exists a. split; [done |].
  by apply list_elem_of_In.
Qed.

Lemma observed_received ops id :
  id ∈ observed ops ->
  exists m, System m ∈ received ops /\ sys_Subtype m = SystemSubtypeInit
            /\ sys_SessionID m = id /\ id <> "".
Proof.
  intros H. apply list_elem_of_In, in_flat_map in H as (o & Ho & Hid).
  assert (exists msg, msg ∈ op_msgs o /\ announced msg = Some id)
    as (msg & Hmsg & E).
  { apply list_elem_of_In in Hid.
    destruct o; cbn in *;
      auto using event_ids_msgs, flat_ids_msgs; by apply elem_of_nil in Hid. }
  apply announced_Some in E as (m & -> & ? & ? & ?).
  exists m. split; [| done].
  apply list_elem_of_In, in_flat_map. exists o. split; [done |].
  by apply list_elem_of_In.
Qed.

(** C3. The session identity of a new session is the empty string; after
    any sequence of calls and inbound messages it is still empty unless a
    System message of subtype "init" with a non-empty [session_id] was
    among the messages handled, and then it is the [session_id] of such a
    message; and from any state, once it is not empty it stays not empty. *)
Theorem C3_session_identity (opts : option SessionOptions) (p : nat)
    (c : Client) :
  let w0 := CreateSession opts p c in
  sessionID (self w0) = ""
  /\ (forall ops,
        let id := sessionID (self (final (execAll ops w0))) in
        id = ""
        \/ exists m, System m ∈ received ops
                     /\ sys_Subtype m = SystemSubtypeInit
                     /\ sys_SessionID m = id /\ id <> "")
  /\ (forall (w : World) ops,
        sessionID (self w) <> "" ->
        sessionID (self (final (execAll ops w))) <> "").
Proof.
  cbn zeta. split; [reflexivity | split].
  - intros ops.
    destruct (id_execAll (fun id => id ∈ observed ops) ops
                (fun _ H => H) (CreateSession opts p c)) as [H|H].
    + left. by rewrite H.
    + right. by apply observed_received.
  - intros w ops Hw.
    destruct (id_execAll (fun id => id <> "") ops) with (s := w) as [H|H].
    + intros id Hid. by apply observed_received in Hid as (? & ? & ? & ? & ?).
    + by rewrite H.
    + done.
Qed.

(** ** Reasoning about the output of computations *)

Section Emits.
Context {S O : Type} (Q : O -> Prop).

(** [emits Q m]: every action in the output of [m] satisfies [Q]. *)
Definition emits {A} (m : M S O A) : Prop :=
  forall s, Forall Q (output (m s)).

Lemma emits_ret {A} (a : A) : emits (ret a).
Proof. intros s. constructor. Qed.

Lemma emits_gets {A} (f : S -> A) : emits (gets f).
Proof. intros s. constructor. Qed.

Lemma emits_modify (f : S -> S) : emits (modify f).
Proof. intros s. constructor. Qed.

Lemma emits_emit (o : O) : Q o -> emits (emit o).
Proof. intros H s. by repeat constructor. Qed.

Lemma emits_bind {A B} (m : M S O A) (k : A -> M S O B) :
  emits m -> (forall a, emits (k a)) -> emits (bind m k).
Proof.
  intros Hm Hk s. rewrite output_bind. apply Forall_app. split.
  - apply Hm.
  - apply Hk.
Qed.

Lemma emits_when (b : bool) (m : M S O unit) :
  (b = true -> emits m) -> emits (when b m).
Proof. destruct b; cbn; [auto | intros _; apply emits_ret]. Qed.

Lemma emits_forEach {A} (l : list A) (f : A -> M S O unit) :
  (forall x, x ∈ l -> emits (f x)) -> emits (forEach l f).
Proof.
  induction l as [|x l IH]; intros H; cbn.
  - apply emits_ret.
  - apply emits_bind.
    + apply H. left.
    + intros _. apply IH. intros y Hy. apply H. by right.
Qed.
End Emits.

Ltac emits_step :=
  lazymatch goal with
  | |- emits ?Q (bind ?m ?k) => refine (emits_bind Q m k _ _); [| intros ?]
  | |- emits ?Q (ret ?a) => exact (emits_ret Q a)
  | |- emits ?Q (gets ?f) => exact (emits_gets Q f)
  | |- emits ?Q (modify ?f) => exact (emits_modify Q f)
  | |- emits ?Q (emit ?o) => refine (emits_emit Q o _)
  | |- emits ?Q (when ?b ?m) => refine (emits_when Q b m _); intros ?
  | |- emits _ (match ?x with _ => _ end) => destruct x
  end.

(** The messages handed to [Transport.Send] by the session, in order. *)
Definition sent (o : Obs) : option OutgoingMessage :=
  match o with
  | Transport_Send msg => Some msg
  | _ => None
  end.

Definition sends (l : list Obs) : list OutgoingMessage := omap sent l.

(** What a method of the transport puts in the output of the session:
    its own actions and the error callbacks. *)
Definition from_transport (o : Obs) : Prop :=
  match o with
  | Wire _ | Client_OnError _ | Call_OnError _ => True
  | _ => False
  end.

Lemma sends_app l1 l2 : sends (l1 ++ l2) = sends l1 ++ sends l2.
Proof. apply omap_app. Qed.

Lemma sends_from_transport l : Forall from_transport l -> sends l = [].
Proof.
  induction 1 as [|o l Ho _ IH]; [done |].
  destruct o; cbn in *; done.
Qed.

Lemma emits_handleError e : emits from_transport (handleError e).
Proof.
  unfold handleError, notifyError, field, update.
  repeat emits_step; exact I.
Qed.

Lemma emits_deliver o : emits from_transport (deliver o).
Proof.
  destruct o; cbn [deliver]; try (by repeat emits_step).
  - unfold handleStatusChange. emits_step.
  - apply emits_handleError.
Qed.

Lemma emits_onTransport {A} (m : Transport.T A) :
  emits from_transport (onTransport m).
Proof.
  unfold onTransport, field, update. repeat emits_step.
  apply emits_forEach. intros o _. apply emits_deliver.
Qed.

Ltac by_emits :=
  lazymatch goal with
  | |- Forall ?Q (output (?m ?s)) => refine ((_ : emits Q m) s)
  end.

Lemma sends_transport_Send msg w :
  sends (output (transport_Send msg w)) = [msg].
Proof.
  unfold transport_Send. rewrite output_bind, sends_app.
  rewrite (sends_from_transport (output (onTransport _ _)));
    [done | apply emits_onTransport].
Qed.

Lemma sends_bind {A B} (m : Sess A) (k : A -> Sess B) w :
  sends (output (bind m k w))
  = sends (output (m w)) ++ sends (output (k (result (m w)) (final (m w)))).
Proof. by rewrite output_bind, sends_app. Qed.

(** [contains sub s]: the string [s] has [sub] as a substring. *)
Definition contains (sub s : string) : Prop :=
  exists pre suf, s = pre +:+ sub +:+ suf.

Lemma append_empty_r (s : string) : s +:+ "" = s.
Proof.
  induction s as [|a s IH]; [done |].
  change (String a (s +:+ "") = String a s). by f_equal.
Qed.

(** ** Tool calls *)

Lemma handleToolCall_spec (call : ToolCallPayload) (w : World) :
  let r := handleToolCall call w in
  sends (output r)
  = [OutToolResult
       (toolResultEnvelope (CallID call)
          (toolResult (toolHandlers (self w)) call))]
  /\ state (self (final r)) = SessionStateProcessing.
Proof.
  cbn zeta. split; [| reflexivity].
  unfold handleToolCall. rewrite !sends_bind.
  rewrite sends_transport_Send.
  rewrite !sends_from_transport; [reflexivity | by_emits ..];
    unfold setState, update, field; repeat emits_step;
    apply emits_handleError.
Qed.

Lemma handleMessage_ToolCall (call : ToolCallPayload) (pc : bool) (w : World) :
  let r := handleMessage (ToolCall call) pc w in
  result r = true
  /\ final r = final (handleToolCall call w)
  /\ output r = output (handleToolCall call w).
Proof.
  cbn zeta. unfold handleMessage, bind, field, gets.
  cbn -[handleToolCall].
  destruct (connected (self w)); cbn -[handleToolCall];
    by rewrite app_nil_r.
Qed.

(** [same_on f]: the part [f] of the world is unchanged. *)
Definition same_on {X} (f : World -> X) : relation World :=
  fun w w' => f w' = f w.

#[local] Instance same_on_preorder {X} (f : World -> X) : PreOrder (same_on f).
Proof.
  split.
  - by intros w.
  - intros w1 w2 w3 H12 H23. unfold same_on in *. congruence.
Qed.

Lemma handleToolCall_msgCh call w :
  msgCh (self (final (handleToolCall call w))) = msgCh (self w).
Proof.
  apply (keeps_handleToolCall (same_on (fun w => msgCh (self w)))
           (fun _ _ => True)); done.
Qed.

Lemma toolResult_unknown (hs : gmap string ToolHandler) call :
  hs !! call_ToolName call = None ->
  toolResult hs call
  = Some (errorResult ("Tool not found: " +:+ call_ToolName call)).
Proof. intros H. unfold toolResult. by rewrite H. Qed.

(** C4. An inbound ToolCall whose tool name is not in the registry makes
    the session hand exactly one message to the transport: a ToolResult
    envelope with the call identifier of the ToolCall, whose result has
    [IsError] set and one text content, which contains the tool name. The
    state is then Processing, and the ToolCall is not put on the inbound
    stream. *)
Theorem C4_unknown_tool (w : World) (call : ToolCallPayload) (pc : bool) :
  toolHandlers (self w) !! call_ToolName call = None ->
  let r := handleMessage (ToolCall call) pc w in
  exists res text,
    sends (output r)
    = [OutToolResult
         {| toolresult_Type := MessageTypeToolResult;
            toolresult_Payload :=
              {| result_CallID := CallID call;
                 result_Result := Some res |} |}]
    /\ IsError res = true
    /\ Content res = [TextToolContent "text" text]
    /\ contains (call_ToolName call) text
    /\ state (self (final r)) = SessionStateProcessing
    /\ result r = true
    /\ msgCh (self (final r)) = msgCh (self w).
Proof.
  intros Hnone. cbn zeta.
  destruct (handleMessage_ToolCall call pc w) as (Hres & Hfin & Hout).
  destruct (handleToolCall_spec call w) as (Hsends & Hstate).
  exists (errorResult ("Tool not found: " +:+ call_ToolName call)),
    ("Tool not found: " +:+ call_ToolName call).
  rewrite Hout, Hfin, Hsends, Hres, (toolResult_unknown _ _ Hnone).
  repeat split; try done.
  - exists "Tool not found: ", "". by rewrite append_empty_r.
  - apply handleToolCall_msgCh.
Qed.

Lemma C4_unknown_tool_witness :
  let w := CreateSession None 0 (NewClient DefaultClientOptions) in
  let call := {| CallID := "call-1"; call_ToolName := "add"; Input := JNull |} in
  toolHandlers (self w) !! call_ToolName call = None
  /\ exists res text,
       sends (output (handleMessage (ToolCall call) false w))
       = [OutToolResult
            {| toolresult_Type := MessageTypeToolResult;
               toolresult_Payload :=
                 {| result_CallID := "call-1";
                    result_Result := Some res |} |}]
       /\ IsError res = true
       /\ Content res = [TextToolContent "text" text]
       /\ contains "add" text
       /\ state (self (final (handleMessage (ToolCall call) false w)))
          = SessionStateProcessing
       /\ result (handleMessage (ToolCall call) false w) = true
       /\ msgCh (self (final (handleMessage (ToolCall call) false w)))
          = msgCh (self w).
Proof.
  split; [reflexivity |].
  apply (C4_unknown_tool
           (CreateSession None 0 (NewClient DefaultClientOptions))
           {| CallID := "call-1"; call_ToolName := "add"; Input := JNull |}
           false).
  reflexivity.
Defined.

(** ** The handshake *)

Lemma forward_self {X} (f : Session -> X) msg pc w :
  (forall q s, f (set_msgCh q s) = f s) ->
  f (self (final (forward msg pc w))) = f (self w).
Proof.
  intros H. revert w.
  change (keeps (same_on (fun w => f (self w))) (forward msg pc)).
  unfold forward, field, update. repeat keeps_step. apply H.
Qed.

(** The [select] of [Connect] when [readyCh] is closed and taken. *)
Lemma Connect_select_ready (w : World) :
  readyCh (self w) = true ->
  let r := Connect_select ReadyCh w in
  match initErr (self w) with
  | Some e =>
      result r = Returned (Some e)
      /\ final r = with_self (set_state SessionStateError) w
  | None =>
      result r = Returned None
      /\ final r
         = with_self (set_state SessionStateReady)
             (with_self (set_connected true) w)
  end.
Proof.
  intros H. unfold Connect_select, bind, field, gets. cbn.
  rewrite H. cbn. destruct (initErr (self w)); cbn; [done |].
  by destruct (OnSessionStart _).
Qed.

(** C5. While [Connect] waits in its [select] and no ready signal has been
    seen (the session is not connected, [readyOnce] has not fired), an
    Error envelope handled by the read loop closes [readyCh]; the [select]
    then leaves by that branch, and [Connect] returns a SessionError whose
    message is the text of the envelope, with the session in state Error
    and still not connected. *)
Theorem C5_error_before_ready (w : World) (p : ErrorPayload) (pc : bool) :
  connected (self w) = false ->
  readyOnce (self w) = false ->
  let w1 := final (handleMessage (ErrorEnv p) pc w) in
  let r := Connect_select ReadyCh w1 in
  readyCh (self w1) = true
  /\ result r = Returned (Some (Chucky (SessionError (err_Message p))))
  /\ (exists e, result r = Returned (Some (Chucky e))
                /\ Code e = ErrCodeSession /\ Message e = err_Message p)
  /\ state (self (final r)) = SessionStateError
  /\ connected (self (final r)) = false.
Proof.
  intros Hc Ho. cbn zeta.
  set (w1 := final (handleMessage (ErrorEnv p) pc w)).
  assert (readyCh (self w1) = true
          /\ initErr (self w1) = Some (Chucky (SessionError (err_Message p)))
          /\ connected (self w1) = false) as (Hr & He & Hc1).
  { subst w1. unfold handleMessage, bind, field, gets. cbn -[forward].
    rewrite Hc. cbn -[forward].
    rewrite (forward_self readyCh), (forward_self initErr),
      (forward_self connected) by done.
    cbn. unfold fire_ready. cbn. rewrite Ho. cbn. done. }
  pose proof (Connect_select_ready w1 Hr) as Hsel. cbn zeta in Hsel.
  rewrite He in Hsel. destruct Hsel as (Hres & Hfin).
  rewrite Hres, Hfin. repeat split; try done.
  exists (SessionError (err_Message p)). done.
Qed.


Lemma C5_error_before_ready_witness :
  let w := final (Connect {| dial := Transport.Dialed {| Transport.faults := [] |};
                             timeout_first := false; during := [];
                             wake := ReadyCh |}
                    (CreateSession None 0 (NewClient DefaultClientOptions))) in
  let p := {| err_Message := "budget exceeded"; err_Code := "";
              err_Details := JNull |} in
  connected (self w) = false
  /\ readyOnce (self w) = false
  /\ let w1 := final (handleMessage (ErrorEnv p) false w) in
     let r := Connect_select ReadyCh w1 in
     readyCh (self w1) = true
     /\ result r = Returned (Some (Chucky (SessionError (err_Message p))))
     /\ (exists e, result r = Returned (Some (Chucky e))
                   /\ Code e = ErrCodeSession /\ Message e = err_Message p)
     /\ state (self (final r)) = SessionStateError
     /\ connected (self (final r)) = false.
Proof.
  cbn zeta. split; [reflexivity | split; [reflexivity |]].
  apply (C5_error_before_ready
           (final (Connect {| dial := Transport.Dialed {| Transport.faults := [] |};
                              timeout_first := false; during := [];
                              wake := ReadyCh |}
                     (CreateSession None 0 (NewClient DefaultClientOptions))))
           {| err_Message := "budget exceeded"; err_Code := "";
              err_Details := JNull |} false); reflexivity.
Defined.

(** The same through one call of [Connect] on a new session: the Error
    envelope is the only message that arrives while the call waits. *)
Example Connect_returns_handshake_error :
  let env := {| dial := Transport.Dialed {| Transport.faults := [] |};
                timeout_first := false;
                during := [Recv (ErrorEnv {| err_Message := "budget exceeded";
                                             err_Code := "";
                                             err_Details := JNull |}) false];
                wake := ReadyCh |} in
  let r := Connect env (CreateSession None 0 (NewClient DefaultClientOptions)) in
  result r = Returned (Some (Chucky (SessionError "budget exceeded")))
  /\ state (self (final r)) = SessionStateError.
Proof. split; reflexivity. Qed.

(** ** The transport: queueing and flushing *)

(** The frames written to the socket, and the errors reported through
    [OnError], in the output of the transport. *)
Definition written (o : Transport.Out) : option OutgoingMessage :=
  match o with
  | Transport.Written msg => Some msg
  | _ => None
  end.

Definition reported (o : Transport.Out) : option GoError :=
  match o with
  | Transport.Call_OnError e => Some e
  | _ => None
  end.

Definition writes (l : list Transport.Out) : list OutgoingMessage :=
  omap written l.

Definition reports (l : list Transport.Out) : list GoError :=
  omap reported l.

(** A socket on which no coming write fails. *)
Definition reliable (c : Transport.Conn) : Prop :=
  Forall (fun o => o = None) (Transport.faults c).

(** The transport holds a socket on which no coming write fails. *)
Definition healthy (t : Transport.WebSocketTransport) : Prop :=
  exists c, Transport.conn t = Some c /\ reliable c.

Lemma WriteMessage_reliable c :
  reliable c ->
  fst (Transport.WriteMessage c) = None
  /\ reliable (snd (Transport.WriteMessage c)).
Proof.
  unfold reliable, Transport.WriteMessage. destruct c as [[|o fs]]; cbn.
  - done.
  - intros H. apply Forall_cons in H as [-> H]. done.
Qed.

(** One [sendImmediate]: either the frame is written and no error is
    returned, or nothing is written and an error is returned; on a healthy
    transport a message that marshals is written. *)
Lemma sendImmediate_spec msg t :
  let r := Transport.sendImmediate msg t in
  ((result r = None /\ output r = [Transport.Written msg])
   \/ (is_Some (result r) /\ output r = []))
  /\ Transport.handlers (final r) = Transport.handlers t
  /\ Transport.msgQueue (final r) = Transport.msgQueue t
  /\ Transport.status (final r) = Transport.status t
  /\ (Marshal_ok msg = true -> healthy t ->
      result r = None /\ healthy (final r)).
Proof.
  cbn zeta. unfold Transport.sendImmediate, Marshal_ok.
  destruct (Marshal_error msg) as [err|] eqn:Hm; cbn.
  { split_and!; try done. right. split; [by eexists | done]. }
  unfold bind, gets. cbn.
  destruct (Transport.conn t) as [c|] eqn:Hc; cbn.
  2:{ split_and!; try done.
      - right. split; [by eexists | done].
      - intros _ (c & Hc' & _). congruence. }
  destruct (Transport.WriteMessage c) as [[cause|] c'] eqn:Hw; cbn.
  - split_and!; try done.
    + right. split; [by eexists | done].
    + intros _ (c0 & Hc0 & Hrel). rewrite Hc in Hc0. injection Hc0 as <-.
      apply WriteMessage_reliable in Hrel as [Hrel _]. by rewrite Hw in Hrel.
  - split_and!; try done.
    + by left.
    + intros _ (c0 & Hc0 & Hrel). rewrite Hc in Hc0. injection Hc0 as <-.
      apply WriteMessage_reliable in Hrel as [_ Hrel]. rewrite Hw in Hrel.
      split; [done |]. by exists c'.
Qed.

Lemma Send_healthy msg t :
  Marshal_ok msg = true ->
  Transport.status t <> Transport.StatusConnecting ->
  healthy t ->
  result (Transport.Send msg t) = None
  /\ output (Transport.Send msg t) = [Transport.Written msg].
Proof.
  intros Hm Hst Ht. pose proof Ht as (c & Hc & _).
  unfold Transport.Send, bind, gets. cbn.
  rewrite Hc, bool_decide_eq_false_2 by done. cbn.
  destruct (sendImmediate_spec msg t) as (Hout & _ & _ & _ & Hok).
  destruct (Hok Hm Ht) as (Hr & _). rewrite Hr.
  destruct Hout as [[_ ->] | [[? Hs] _]]; [done |].
  rewrite Hr in Hs. discriminate.
Qed.

(** The body of the loop of [flushQueue]. *)
Definition flushOne (msg : OutgoingMessage) : Transport.T unit :=
  err <- Transport.sendImmediate msg ;;
  match err with
  | Some e =>
      h <- gets Transport.handlers ;;
      when (Transport.OnError h) (emit (Transport.Call_OnError e))
  | None => ret tt
  end.

Lemma flushOne_spec msg t :
  let r := flushOne msg t in
  ((writes (output r) = [msg] /\ reports (output r) = [])
   \/ (writes (output r) = []
       /\ (Transport.OnError (Transport.handlers t) = true ->
           length (reports (output r)) = 1%nat)))
  /\ Transport.handlers (final r) = Transport.handlers t
  /\ Transport.msgQueue (final r) = Transport.msgQueue t
  /\ Transport.status (final r) = Transport.status t
  /\ (Marshal_ok msg = true -> healthy t ->
      writes (output r) = [msg] /\ reports (output r) = []
      /\ healthy (final r)).
Proof.
  cbn zeta.
  destruct (sendImmediate_spec msg t) as (Hout & Hh & Hq & Hst & Hok).
  unfold flushOne, bind. cbn.
  destruct (fst (fst (Transport.sendImmediate msg t))) as [e|] eqn:He; cbn.
  - destruct Hout as [[? _] | [_ Hout]]; [done |].
    rewrite Hout, Hh.
    split; [| split; [| split; [| split]]]; try done;
      try (by destruct (Transport.OnError (Transport.handlers t))).
    + right. split; [by destruct (Transport.OnError _) |].
      intros Hon. rewrite Hon. reflexivity.
    + intros Hm Ht. by destruct (Hok Hm Ht).
  - destruct Hout as [[_ Hout] | [[? ?] _]]; [| done].
    rewrite Hout.
    split; [| split; [| split; [| split]]]; try done.
    + by left.
    + intros Hm Ht. by destruct (Hok Hm Ht).
Qed.

Lemma flush_loop q :
  forall t,
    let r := forEach q flushOne t in
    writes (output r) `sublist_of` q
    /\ (Transport.OnError (Transport.handlers t) = true ->
        (length (writes (output r)) + length (reports (output r)))%nat
        = length q)
    /\ Transport.handlers (final r) = Transport.handlers t
    /\ Transport.msgQueue (final r) = Transport.msgQueue t
    /\ Transport.status (final r) = Transport.status t
    /\ (forallb Marshal_ok q = true -> healthy t ->
        writes (output r) = q /\ reports (output r) = []
        /\ healthy (final r)).
Proof.
  induction q as [|msg q IH]; intros t; cbn zeta.
  - cbn. split; [| split; [| split; [| split; [| split]]]]; done.
  - cbn [forEach]. rewrite output_bind, final_bind.
    destruct (flushOne_spec msg t) as (Hout & Hh & Hq & Hst & Hok).
    destruct (IH (final (flushOne msg t))) as (Is & Il & Ih & Iq & Ist & Iok).
    unfold writes, reports in *. rewrite !omap_app, !length_app.
    split; [| split; [| split; [| split; [| split]]]]; try congruence.
    + destruct Hout as [[-> _] | [-> _]]; cbn [app].
      * by apply sublist_skip.
      * by apply sublist_cons.
    + intros Hon. rewrite Hh in Il. specialize (Il Hon).
      destruct Hout as [[-> ->] | [-> Hr]]; cbn [app length]; [lia |].
      specialize (Hr Hon). lia.
    + cbn [forallb]. intros [Hm Hall]%andb_prop Ht.
      destruct (Hok Hm Ht) as (-> & -> & Ht').
      destruct (Iok Hall Ht') as (-> & -> & ?). done.
Qed.

(** The transport as [Connect] has set it up when it starts to flush. *)
Definition dialed (c : Transport.Conn) (t : Transport.WebSocketTransport)
  : Transport.WebSocketTransport :=
  Transport.set_msgQueue []
    (Transport.set_ready
       (Transport.set_status Transport.StatusConnected
          (Transport.set_conn (Some c)
             (Transport.set_status Transport.StatusConnecting t)))).

Lemma setStatus_spec st t :
  final (Transport.setStatus st t) = Transport.set_status st t
  /\ writes (output (Transport.setStatus st t)) = []
  /\ reports (output (Transport.setStatus st t)) = [].
Proof.
  unfold Transport.setStatus, bind, gets, modify, when.
  cbn [fst snd app].
  by destruct (_ && _).
Qed.

Lemma flushQueue_spec t :
  final (Transport.flushQueue t)
  = final (forEach (Transport.msgQueue t) flushOne (Transport.set_msgQueue [] t))
  /\ output (Transport.flushQueue t)
     = output (forEach (Transport.msgQueue t) flushOne
                 (Transport.set_msgQueue [] t)).
Proof. split; reflexivity. Qed.

Lemma Connect_Dialed (c : Transport.Conn) (t : Transport.WebSocketTransport) :
  let r := Transport.Connect (Transport.Dialed c) t in
  let f := forEach (Transport.msgQueue t) flushOne (dialed c t) in
  result r = None
  /\ final r = final f
  /\ writes (output r) = writes (output f)
  /\ reports (output r) = reports (output f).
Proof.
  cbn zeta.
  change (Transport.Connect (Transport.Dialed c))
    with (Transport.setStatus Transport.StatusConnecting ;;
          modify (Transport.set_conn (Some c)) ;;
          Transport.setStatus Transport.StatusConnected ;;
          modify Transport.set_ready ;;
          Transport.flushQueue ;;
          emit Transport.Spawn_readLoop ;;
          emit Transport.Spawn_keepAliveLoop ;;
          ret (@None GoError)).
  rewrite !result_bind, !final_bind, !output_bind.
  unfold writes, reports. rewrite !omap_app.
  destruct (setStatus_spec Transport.StatusConnecting t) as (F1 & W1 & R1).
  unfold writes, reports in W1, R1. rewrite F1, W1, R1.
  cbn [modify fst snd omap app].
  destruct (setStatus_spec Transport.StatusConnected
              (Transport.set_conn (Some c)
                 (Transport.set_status Transport.StatusConnecting t)))
    as (F2 & W2 & R2).
  unfold writes, reports in W2, R2. rewrite F2, W2, R2.
  cbn [app].
  destruct (flushQueue_spec
              (Transport.set_ready
                 (Transport.set_status Transport.StatusConnected
                    (Transport.set_conn (Some c)
                       (Transport.set_status Transport.StatusConnecting t)))))
    as (F3 & O3).
  rewrite F3, O3.
  split; [reflexivity | split; [reflexivity |]].
  cbn [emit ret fst snd].
  split; (etrans; [| apply app_nil_r]); reflexivity.
Qed.

(** [Send] called for each message of [msgs] in turn; the results. *)
Fixpoint sendAll (msgs : list OutgoingMessage)
  : Transport.T (list (option GoError)) :=
  match msgs with
  | [] => ret []
  | msg :: rest =>
      err <- Transport.Send msg ;;
      errs <- sendAll rest ;;
      ret (err :: errs)
  end.

(** The condition under which [Send] queues. *)
Definition not_connected (t : Transport.WebSocketTransport) : Prop :=
  Transport.status t = Transport.StatusConnecting \/ Transport.conn t = None.

Lemma Send_queued msg t :
  not_connected t ->
  Transport.Send msg t
  = (None, Transport.set_msgQueue (Transport.msgQueue t ++ [msg]) t, []).
Proof.
  intros H. unfold Transport.Send, bind, gets. cbn.
  destruct H as [-> | ->]; [done |].
  by rewrite orb_true_r.
Qed.

Lemma sendAll_queued msgs :
  forall t,
    not_connected t ->
    let r := sendAll msgs t in
    result r = map (fun _ => None) msgs
    /\ final r = Transport.set_msgQueue (Transport.msgQueue t ++ msgs) t
    /\ output r = [].
Proof.
  induction msgs as [|msg msgs IH]; intros t H; cbn zeta.
  - cbn. rewrite app_nil_r. by destruct t.
  - cbn [sendAll]. unfold bind. rewrite (Send_queued msg t H). cbn.
    destruct (IH (Transport.set_msgQueue (Transport.msgQueue t ++ [msg]) t))
      as (-> & -> & ->).
    { destruct H as [H|H]; [by left | by right]. }
    cbn. by rewrite <- app_assoc.
Qed.

(** The error that [sendImmediate] returns when [json.Marshal] fails
    with the error [err]. *)
Definition marshalError (err : string) : GoError :=
  Chucky (Wrap (ProtocolError "failed to marshal message") err).

(** What [Send] returns for [msg] on a transport with a connection on
    which writes do not fail. *)
Definition sendResult (msg : OutgoingMessage) : option GoError :=
  match Marshal_error msg with
  | Some err => Some (marshalError err)
  | None => None
  end.

Lemma sendImmediate_reliable msg t :
  healthy t ->
  let r := Transport.sendImmediate msg t in
  result r = sendResult msg
  /\ writes (output r) = (if Marshal_ok msg then [msg] else [])
  /\ reports (output r) = []
  /\ healthy (final r)
  /\ Transport.handlers (final r) = Transport.handlers t
  /\ Transport.msgQueue (final r) = Transport.msgQueue t
  /\ Transport.status (final r) = Transport.status t.
Proof.
  intros Ht. cbn zeta.
  destruct (sendImmediate_spec msg t) as (Hout & Hh & Hq & Hst & Hok).
  unfold sendResult, Marshal_ok in *.
  destruct (Marshal_error msg) as [err|] eqn:Hm.
  - unfold Transport.sendImmediate. by rewrite Hm.
  - destruct (Hok eq_refl Ht) as (Hr & Ht').
    destruct Hout as [[_ ->] | [[? Hs] _]]; [done |].
    rewrite Hr in Hs. discriminate.
Qed.

Lemma flushOne_reliable msg t :
  healthy t ->
  let r := flushOne msg t in
  writes (output r) = (if Marshal_ok msg then [msg] else [])
  /\ reports (output r)
     = (if Transport.OnError (Transport.handlers t)
        then option_list (sendResult msg) else [])
  /\ healthy (final r)
  /\ Transport.handlers (final r) = Transport.handlers t
  /\ Transport.msgQueue (final r) = Transport.msgQueue t.
Proof.
  intros Ht. cbn zeta.
  destruct (sendImmediate_reliable msg t Ht)
    as (Hr & Hw & Hrep & Ht' & Hh & Hq & _).
  unfold flushOne. rewrite !output_bind, !final_bind.
  unfold writes, reports in *. rewrite !omap_app, Hr, Hw, Hrep.
  unfold sendResult, Marshal_ok.
  destruct (Marshal_error msg) as [err|];
    cbn [ret fst snd omap app option_list].
  - unfold bind, gets. cbn [fst snd]. rewrite Hh.
    by destruct (Transport.OnError (Transport.handlers t)).
  - by destruct (Transport.OnError (Transport.handlers t)).
Qed.

(** The errors that a flush reports for the messages of [q] on a socket
    on which writes do not fail: those of the messages that
    [json.Marshal] rejects, in order. *)
Definition flushReports (h : Transport.TransportEvents)
    (q : list OutgoingMessage) : list GoError :=
  if Transport.OnError h then omap sendResult q else [].

Lemma flush_reliable q :
  forall t,
    healthy t ->
    let r := forEach q flushOne t in
    writes (output r) = List.filter Marshal_ok q
    /\ reports (output r) = flushReports (Transport.handlers t) q
    /\ healthy (final r)
    /\ Transport.msgQueue (final r) = Transport.msgQueue t.
Proof.
  unfold flushReports.
  induction q as [|msg q IH]; intros t Ht; cbn zeta.
  { cbn. by destruct (Transport.OnError _). }
  cbn [forEach List.filter]. rewrite output_bind, final_bind.
  destruct (flushOne_reliable msg t Ht) as (Hw & Hr & Ht' & Hh & Hq).
  destruct (IH (final (flushOne msg t)) Ht') as (Iw & Ir & It & Iq).
  unfold writes, reports in *.
  rewrite !omap_app, Hw, Iw, Hr, Ir, Hh, Iq, Hq.
  split; [by destruct (Marshal_ok msg) |]. split; [| done].
  unfold Marshal_ok, sendResult.
  destruct (Transport.OnError (Transport.handlers t));
    cbn [omap list_omap]; by destruct (Marshal_error msg).
Qed.




(** ** Closing *)

(** Selections from the output of the session. *)
Definition close_note (o : Obs) : option unit :=
  match o with
  | Call_OnClose => Some tt
  | _ => None
  end.

Definition disconnect_call (o : Obs) : option unit :=
  match o with
  | Transport_Disconnect => Some tt
  | _ => None
  end.

Definition session_end (o : Obs) : option string :=
  match o with
  | Client_OnSessionEnd id => Some id
  | _ => None
  end.

Lemma omap_output_bind {S O X A B} (f : O -> option X)
    (m : M S O A) (k : A -> M S O B) s :
  omap f (output (bind m k s))
  = omap f (output (m s)) ++ omap f (output (k (result (m s)) (final (m s)))).
Proof. by rewrite output_bind, omap_app. Qed.

Lemma omap_bind {X A B} (f : Obs -> option X) (m : Sess A) (k : A -> Sess B) w :
  omap f (output (bind m k w))
  = omap f (output (m w)) ++ omap f (output (k (result (m w)) (final (m w)))).
Proof. by rewrite output_bind, omap_app. Qed.

Lemma omap_from_transport {X} (f : Obs -> option X) l :
  (forall o, from_transport o -> f o = None) ->
  Forall from_transport l -> omap f l = [].
Proof.
  intros Hf. induction 1 as [|o l Ho _ IH]; [done |].
  cbn. by rewrite (Hf o Ho).
Qed.

Lemma omap_onTransport {X A} (f : Obs -> option X) (m : Transport.T A) w :
  (forall o, from_transport o -> f o = None) ->
  omap f (output (onTransport m w)) = [].
Proof. intros Hf. apply omap_from_transport, emits_onTransport. done. Qed.

(** [m] run [n] times in a row. *)
Fixpoint times (n : nat) (m : Sess unit) : Sess unit :=
  match n with
  | O => ret tt
  | Datatypes.S n' => m ;; times n' m
  end.

Lemma Close_again (w : World) :
  closeOnce (self w) = true -> Close w = (tt, w, []).
Proof.
  intros H. unfold Close, bind at 1.
  change (field closeOnce w) with (closeOnce (self w), w, @nil Obs).
  cbn [fst snd]. rewrite H. reflexivity.
Qed.

Lemma times_Close_again n :
  forall w, closeOnce (self w) = true -> times n Close w = (tt, w, []).
Proof.
  induction n as [|n IH]; intros w H; [reflexivity |].
  cbn [times]. unfold bind. rewrite (Close_again w H). cbn [fst snd].
  rewrite (IH w H). reflexivity.
Qed.

(** The part of [Close] that runs inside [closeOnce.Do]. *)
Definition Close_body : Sess unit :=
  update set_closed ;;
  _ <- transport_Send (OutControl closeMsg) ;;
  _ <- transport_Disconnect ;;
  id <- field sessionID ;;
  removeSession id ;;
  h <- field handlers ;;
  when (OnClose h) (emit Call_OnClose).

Lemma Close_first (w : World) :
  closeOnce (self w) = false ->
  result (Close w) = tt
  /\ final (Close w) = final (Close_body w)
  /\ output (Close w) = output (Close_body w).
Proof.
  intros H.
  change (result (Close w))
    with (result ((if closeOnce (self w) then ret tt else Close_body) w)).
  change (final (Close w))
    with (final ((if closeOnce (self w) then ret tt else Close_body) w)).
  change (output (Close w))
    with (output ((if closeOnce (self w) then ret tt else Close_body) w)).
  rewrite H.
  split; [by destruct (fst (fst _)) | split; reflexivity].
Qed.

(** What a call into the transport can change in the world: the transport
    itself, and [errCh] through the error callback. *)
Definition touch (t : Transport.WebSocketTransport) (q : list GoError)
    (w : World) : World :=
  with_self (fun s => set_errCh q (set_transport t s)) w.

Definition transport_only : relation World :=
  fun w w' => exists t q, w' = touch t q w.

#[local] Instance transport_only_preorder : PreOrder transport_only.
Proof.
  split.
  - intros w. exists (transport (self w)), (errCh (self w)).
    by destruct w as [[] ? ? ? ?].
  - intros w1 w2 w3 (t & q & ->) (t' & q' & ->). by exists t', q'.
Qed.

Lemma onTransport_only {A} (m : Transport.T A) :
  keeps transport_only (onTransport m).
Proof.
  apply (keeps_onTransport transport_only (fun _ _ => True));
    first [exact _ | done | idtac].
  - intros q w. exists (transport (self w)), q. by destruct w as [[] ? ? ? ?].
  - intros t w _. exists t, (errCh (self w)). by destruct w as [[] ? ? ? ?].
Qed.

(** A selection that ignores what comes from the transport. *)
Definition session_level {X} (f : Obs -> option X) : Prop :=
  forall o, from_transport o -> f o = None.

Lemma transport_Send_spec msg w :
  (exists t q, final (transport_Send msg w) = touch t q w)
  /\ forall X (f : Obs -> option X),
       session_level f ->
       omap f (output (transport_Send msg w))
       = option_list (f (Transport_Send msg)).
Proof.
  split.
  - apply (onTransport_only (Transport.Send msg) w).
  - intros X f Hf. unfold transport_Send. rewrite omap_bind. cbn [emit snd omap].
    rewrite (omap_onTransport f); [| done].
    cbn. destruct (f _); by rewrite ?app_nil_r.
Qed.

Lemma transport_Disconnect_spec w :
  (exists t q, final (transport_Disconnect w) = touch t q w)
  /\ forall X (f : Obs -> option X),
       session_level f ->
       omap f (output (transport_Disconnect w))
       = option_list (f Transport_Disconnect).
Proof.
  split.
  - apply (onTransport_only Transport.Disconnect w).
  - intros X f Hf. unfold transport_Disconnect. rewrite omap_bind.
    rewrite (omap_onTransport f); [| done].
    cbn. destruct (f _); by rewrite ?app_nil_r.
Qed.

(** The first call of [Close]: its final state and what it does. *)
Lemma Close_body_spec (w : World) :
  exists t q,
    final (Close_body w)
    = with_client
        (fun c => set_sessions (delete (sessionID (self w)) (sessions c)) c)
        (touch t q (with_self set_closed w))
    /\ forall X (f : Obs -> option X),
         session_level f ->
         omap f (output (Close_body w))
         = option_list (f (Transport_Send (OutControl closeMsg)))
           ++ option_list (f Transport_Disconnect)
           ++ (if OnSessionEnd (client_handlers (client w))
               then option_list (f (Client_OnSessionEnd (sessionID (self w))))
               else [])
           ++ (if OnClose (handlers (self w))
               then option_list (f Call_OnClose) else []).
Proof.
  unfold Close_body.
  set (w1 := with_self set_closed w).
  destruct (transport_Send_spec (OutControl closeMsg) w1)
    as ((t1 & q1 & Hf1) & Ho1).
  destruct (transport_Disconnect_spec (touch t1 q1 w1))
    as ((t2 & q2 & Hf2) & Ho2).
  exists t2, q2. split.
  - rewrite !final_bind.
    change (final (update set_closed w)) with w1. rewrite Hf1, Hf2.
    cbn. by destruct (OnSessionEnd _), (OnClose _).
  - intros X f Hf. rewrite !omap_bind.
    change (final (update set_closed w)) with w1.
    rewrite Ho1, Hf1, Ho2, Hf2 by done. cbn.
    destruct (OnSessionEnd _), (OnClose _); cbn; by rewrite ?app_nil_r.
Qed.

(** The frames that reach the socket, in the output of the session. *)
Definition wire_written (o : Obs) : option OutgoingMessage :=
  match o with
  | Wire (Transport.Written msg) => Some msg
  | _ => None
  end.

Lemma handleError_not_wire e :
  emits (fun o => wire_written o = None) (handleError e).
Proof.
  unfold handleError, notifyError, field, update. repeat emits_step; done.
Qed.

Lemma wire_written_deliver o w :
  omap wire_written (output (deliver o w)) = option_list (written o).
Proof.
  destruct o; try done. cbn [deliver written option_list].
  induction (handleError_not_wire e w) as [|o l Ho _ IH]; [done |].
  cbn. by rewrite Ho.
Qed.

(** The frames that a call into the transport puts on the socket are
    those that the method of the transport writes. *)
Lemma wire_written_onTransport {A} (m : Transport.T A) w :
  omap wire_written (output (onTransport m w))
  = writes (output (m (transport (self w)))).
Proof.
  unfold onTransport, bind, field, gets, update, modify. cbn.
  rewrite app_nil_r.
  generalize (with_self (set_transport (final (m (transport (self w))))) w).
  induction (output (m (transport (self w)))) as [|o l IH]; intros w'; [done |].
  cbn [forEach]. rewrite omap_bind, wire_written_deliver, IH.
  unfold writes. cbn. by destruct (written o).
Qed.

Lemma Send_writes msg t :
  writes (output (Transport.Send msg t)) = []
  \/ writes (output (Transport.Send msg t)) = [msg].
Proof.
  unfold Transport.Send, bind, gets. cbn. destruct (_ || _); cbn; [by left |].
  destruct (sendImmediate_spec msg t) as ([[_ ->] | [_ ->]] & _);
    [by right | by left].
Qed.

Lemma setStatus_writes st t :
  omap written (output (Transport.setStatus st t)) = [].
Proof. apply setStatus_spec. Qed.

Lemma Disconnect_writes t : writes (output (Transport.Disconnect t)) = [].
Proof.
  unfold Transport.Disconnect, writes.
  rewrite !omap_output_bind, setStatus_writes.
  cbn [modify gets fst snd omap list_omap app Transport.conn
       Transport.set_closed ret].
  destruct (Transport.conn t) as [c|]; [| reflexivity].
  rewrite omap_output_bind. cbn [emit snd omap list_omap written app].
  by destruct (bool_decide _).
Qed.

(** The frames that the first call of [Close] puts on the socket: what
    the transport writes for the close envelope, and nothing else. *)
Lemma Close_body_wire (w : World) :
  omap wire_written (output (Close_body w))
  = writes (output (Transport.Send (OutControl closeMsg) (transport (self w)))).
Proof.
  unfold Close_body. rewrite !omap_bind.
  set (w1 := with_self set_closed w).
  change (final (update set_closed w)) with w1.
  destruct (transport_Send_spec (OutControl closeMsg) w1)
    as ((t1 & q1 & Hf1) & _).
  rewrite Hf1. unfold transport_Send at 1, transport_Disconnect.
  rewrite !omap_bind, !wire_written_onTransport, Disconnect_writes.
  cbn. destruct (OnSessionEnd _), (OnClose _); cbn; by rewrite !app_nil_r.
Qed.

Lemma times_Close_output (n : nat) (w : World) :
  closeOnce (self w) = false ->
  output (times (Datatypes.S n) Close w) = output (Close_body w).
Proof.
  intros H. cbn [times]. rewrite output_bind.
  destruct (Close_first w H) as (_ & Hfin & Hout). rewrite Hfin, Hout.
  destruct (Close_body_spec w) as (t & q & Hbody & _).
  rewrite times_Close_again; [by rewrite app_nil_r |].
  by rewrite Hbody.
Qed.

Lemma session_level_sent : session_level sent.
Proof. by intros []. Qed.

Lemma session_level_close_note : session_level close_note.
Proof. by intros []. Qed.

Lemma session_level_disconnect_call : session_level disconnect_call.
Proof. by intros []. Qed.

Lemma session_level_session_end : session_level session_end.
Proof. by intros []. Qed.

(** C7. [Close] called [n] times in a row, [n > 1], on a session that was
    not closed before and has a close callback: exactly one message is
    handed to the transport, the Control envelope with action "close"; the
    [OnClose] callback is called exactly once; the transport is
    disconnected once; the client's session-end callback, when there is
    one, is called once. On the socket there is at most one frame, and
    when the transport has a connection on which writes do not fail there
    is exactly one, the Control envelope. *)
Theorem C7_close_once (w : World) (n : nat) :
  closeOnce (self w) = false ->
  (1 < n)%nat ->
  OnClose (handlers (self w)) = true ->
  let r := times n Close w in
  let close :=
    OutControl
      {| control_Type := MessageTypeControl;
         control_Payload := {| Action := ControlActionClose; Data := JNull |} |} in
  sends (output r) = [close]
  /\ omap close_note (output r) = [tt]
  /\ omap disconnect_call (output r) = [tt]
  /\ (OnSessionEnd (client_handlers (client w)) = true ->
      omap session_end (output r) = [sessionID (self w)])
  /\ (length (omap wire_written (output r)) <= 1)%nat
  /\ (Transport.status (transport (self w)) <> Transport.StatusConnecting ->
      healthy (transport (self w)) ->
      omap wire_written (output r) = [close]).
Proof.
  intros Hw Hn Hon. cbn zeta.
  destruct n as [|n]; [lia |].
  rewrite (times_Close_output n w Hw).
  destruct (Close_body_spec w) as (t & q & _ & Hout).
  unfold sends.
  rewrite !Hout
    by auto using session_level_sent, session_level_close_note,
         session_level_disconnect_call, session_level_session_end.
  rewrite Hon, Close_body_wire.
  cbn [sent close_note disconnect_call session_end option_list app].
  split; [by destruct (OnSessionEnd _) | split; [by destruct (OnSessionEnd _) |]].
  split; [by destruct (OnSessionEnd _) | split; [by intros -> |]].
  split.
  - destruct (Send_writes (OutControl closeMsg) (transport (self w)))
      as [-> | ->]; cbn [length]; lia.
  - intros Hs Ht.
    destruct (Send_healthy (OutControl closeMsg) _ eq_refl Hs Ht) as (_ & ->).
    reflexivity.
Qed.

Lemma C7_close_once_witness :
  let w := final (On {| OnMessage := false; OnError := false; OnClose := true |}
                    (CreateSession None 0 (NewClient DefaultClientOptions))) in
  closeOnce (self w) = false
  /\ (1 < 3)%nat
  /\ OnClose (handlers (self w)) = true
  /\ sends (output (times 3 Close w))
     = [OutControl
          {| control_Type := MessageTypeControl;
             control_Payload :=
               {| Action := ControlActionClose; Data := JNull |} |}]
  /\ omap close_note (output (times 3 Close w)) = [tt].
Proof.
  cbn zeta. split; [reflexivity | split; [lia | split; [reflexivity |]]].
  pose proof
    (C7_close_once
       (final (On {| OnMessage := false; OnError := false; OnClose := true |}
                 (CreateSession None 0 (NewClient DefaultClientOptions))))
       3 eq_refl ltac:(lia) eq_refl) as H.
  cbn zeta in H. destruct H as (H1 & H2 & _). split; [exact H1 | exact H2].
Defined.

(** ** Arrival of messages and the stream *)

(** Whether the transport holds a connection. *)
Definition open (t : Transport.WebSocketTransport) : bool :=
  match Transport.conn t with
  | Some _ => true
  | None => false
  end.

(** What tells a connected transport from a disconnected one: [Disconnect]
    closes [closeCh], drops the connection and sets the status. *)
Definition link (t : Transport.WebSocketTransport) :=
  (Transport.handlers t, Transport.status t, Transport.closeCh t, open t).

Lemma Send_link msg t : link (final (Transport.Send msg t)) = link t.
Proof.
  unfold Transport.Send, Transport.sendImmediate, bind, gets, link, open. cbn.
  destruct (_ || _); cbn; [done |].
  destruct (Marshal_error msg); cbn; [done |].
  destruct (Transport.conn t) as [c|] eqn:Hc; cbn; [| by rewrite Hc].
  by destruct (Transport.WriteMessage c) as [[?|] ?].
Qed.

(** The part of the world that the arrival of a tool call leaves alone. *)
Definition surroundings (w : World) :=
  (msgCh (self w), closeCh (self w), connected (self w), handlers (self w),
   parked w, streams w, link (transport (self w))).

Lemma surroundings_inv w w' :
  surroundings w' = surroundings w ->
  msgCh (self w') = msgCh (self w)
  /\ closeCh (self w') = closeCh (self w)
  /\ connected (self w') = connected (self w)
  /\ handlers (self w') = handlers (self w)
  /\ parked w' = parked w
  /\ streams w' = streams w
  /\ link (transport (self w')) = link (transport (self w)).
Proof.
  unfold surroundings.
  generalize (link (transport (self w'))), (link (transport (self w))).
  intros l1 l2 H. injection H; intros. by subst.
Qed.

Lemma handleToolCall_surroundings call w :
  surroundings (final (handleToolCall call w)) = surroundings w.
Proof.
  apply (keeps_handleToolCall (same_on surroundings)
           (fun t t' => link t' = link t));
    first [exact _ | done | idtac].
  - intros t w' Ht. unfold same_on, surroundings. cbn. by rewrite Ht.
  - intros msg t. apply Send_link.
Qed.

(** Whether [handleMessage] puts the message on [msgCh]: not a tool call,
    and not a ready signal that ends the handshake. *)
Definition forwarded (connected : bool) (msg : IncomingMessage) : bool :=
  match msg with
  | ToolCall _ => false
  | Control e =>
      connected
      || negb (bool_decide (Action (control_Payload e) = ControlActionReady)
               || bool_decide (Action (control_Payload e)
                               = ControlActionSessionInfo))
  | _ => true
  end.

(** Whether a send on [msgCh] can go through. *)
Definition has_room (w : World) : bool :=
  bool_decide (length (msgCh (self w)) < msgCh_cap)%nat.

(** [forward] on an open session: it goes through when [msgCh] has room,
    and blocks, changing nothing, when it has not. *)
Lemma forward_open msg pc w :
  closeCh (self w) = false ->
  let r := forward msg pc w in
  result r = has_room w
  /\ final r = (if has_room w
                then with_self (set_msgCh (msgCh (self w) ++ [msg])) w
                else w).
Proof.
  intros Hc. unfold forward, bind, field, gets, update, modify.
  cbn [fst snd]. rewrite Hc. fold (has_room w).
  destruct (has_room w); cbn [negb andb when ret fst snd]; [| done].
  match goal with |- context [OnMessage ?h] => by destruct (OnMessage h) end.
Qed.

Lemma forward_room msg pc w :
  closeCh (self w) = false ->
  (length (msgCh (self w)) < msgCh_cap)%nat ->
  let r := forward msg pc w in
  result r = true
  /\ final r = with_self (set_msgCh (msgCh (self w) ++ [msg])) w.
Proof.
  intros Hc Hroom. cbn zeta.
  destruct (forward_open msg pc w Hc) as (Hr & Hf). rewrite Hr, Hf.
  unfold has_room. by rewrite bool_decide_eq_true_2.
Qed.

Lemma readySignals_surroundings msg w :
  surroundings (final (readySignals msg w)) = surroundings w.
Proof.
  revert w. change (keeps (same_on surroundings) (readySignals msg)).
  unfold readySignals, update. destruct msg; repeat keeps_step; try done.
  all: unfold same_on, surroundings, fire_ready; cbn; by case_match.
Qed.

Lemma readySignals_result msg w :
  result (readySignals msg w) = negb (forwarded false msg)
  \/ exists call, msg = ToolCall call.
Proof.
  destruct msg; cbn; try (by left); [| | by right; eexists].
  - left. by destruct (bool_decide _).
  - left. by destruct (_ || _).
Qed.

Lemma surroundings_push w w' q q' :
  surroundings w' = surroundings w ->
  q' = q ->
  surroundings (with_self (set_msgCh q') w')
  = surroundings (with_self (set_msgCh q) w).
Proof.
  intros (_ & ? & ? & ? & ? & ? & ?)%surroundings_inv ->.
  unfold surroundings.
  cbn [self with_self set_msgCh msgCh closeCh connected handlers
       parked streams transport].
  congruence.
Qed.

Lemma surroundings_same w :
  surroundings (with_self (set_msgCh (msgCh (self w) ++ [])) w)
  = surroundings w.
Proof.
  unfold surroundings.
  cbn [self with_self set_msgCh msgCh closeCh connected handlers
       parked streams transport].
  by rewrite app_nil_r.
Qed.

(** [handleMessage] on an open session. It returns unless the message is
    one that is forwarded and [msgCh] is full; the message is appended to
    [msgCh] when it is forwarded and there is room; the rest of the
    surroundings is unchanged. *)
Lemma handleMessage_open msg pc w :
  closeCh (self w) = false ->
  let r := handleMessage msg pc w in
  let fw := forwarded (connected (self w)) msg in
  let q := msgCh (self w) ++ (if fw && has_room w then [msg] else []) in
  result r = negb fw || has_room w
  /\ surroundings (final r) = surroundings (with_self (set_msgCh q) w).
Proof.
  intros Hclosed. cbn zeta.
  pose proof (readySignals_surroundings msg w) as Hs.
  pose proof (readySignals_result msg w) as Hres.
  unfold handleMessage, bind, field, gets.
  cbn -[readySignals forward handleToolCall forwarded has_room].
  assert (forall (w1 : World) m,
            surroundings w1 = surroundings w ->
            result (forward m pc w1) = has_room w
            /\ surroundings (final (forward m pc w1))
               = surroundings
                   (with_self
                      (set_msgCh (msgCh (self w)
                                  ++ (if has_room w then [m] else []))) w))
    as Hpush.
  { intros w1 m H1.
    pose proof (surroundings_inv _ _ H1) as (Hq1 & Hc1 & _).
    rewrite Hclosed in Hc1.
    destruct (forward_open m pc w1 Hc1) as (Hr & Hf). rewrite Hr, Hf.
    replace (has_room w1) with (has_room w)
      by (unfold has_room; by rewrite Hq1).
    split; [done |].
    destruct (has_room w).
    - apply surroundings_push; [done | by rewrite Hq1].
    - by rewrite H1, surroundings_same. }
  assert (forall (w1 : World) call,
            surroundings w1 = surroundings w ->
            surroundings (final (handleToolCall call w1))
            = surroundings
                (with_self (set_msgCh (msgCh (self w) ++ [])) w)) as Htool.
  { intros w1 call H1.
    by rewrite handleToolCall_surroundings, H1, surroundings_same. }
  destruct (connected (self w)) eqn:Hconn;
    cbn -[readySignals forward handleToolCall forwarded has_room].
  - destruct msg; cbn -[forward handleToolCall has_room];
      try (rewrite ?orb_true_r; by apply Hpush).
    split; [done |]. by apply Htool.
  - destruct Hres as [Hres | (call & ->)].
    + rewrite Hres.
      destruct (forwarded false msg) eqn:Hfw;
        cbn -[readySignals forward handleToolCall has_room].
      * destruct msg; try discriminate Hfw; by apply Hpush.
      * split; [done |]. by rewrite Hs, surroundings_same.
    + cbn -[handleToolCall has_room]. split; [done |]. by apply Htool.
Qed.

(** The arrival of a message while the session is open and [msgCh] has
    room: [handleMessage] returns, and the message is appended to [msgCh]
    if it is one that is forwarded. *)
Lemma handleMessage_arrival msg pc w :
  closeCh (self w) = false ->
  (length (msgCh (self w)) < msgCh_cap)%nat ->
  let r := handleMessage msg pc w in
  let q := msgCh (self w)
           ++ (if forwarded (connected (self w)) msg then [msg] else []) in
  result r = true
  /\ surroundings (final r) = surroundings (with_self (set_msgCh q) w).
Proof.
  intros Hclosed Hroom. cbn zeta.
  destruct (handleMessage_open msg pc w Hclosed) as (Hr & Hs).
  assert (has_room w = true) as Hroom'
    by (unfold has_room; by rewrite bool_decide_eq_true_2).
  rewrite Hroom', orb_true_r, andb_true_r in *. done.
Qed.

Lemma step_Recv msg pc w :
  parked w = None ->
  Transport.OnMessage (Transport.handlers (transport (self w))) = true ->
  result (handleMessage msg pc w) = true ->
  final (step (Recv msg pc) w) = final (handleMessage msg pc w).
Proof.
  intros Hp Hh Hr. unfold step, readLoop_message, bind, field, gets.
  cbn -[handleMessage]. rewrite Hp, Hh. cbn -[handleMessage]. by rewrite Hr.
Qed.

(** The messages of [msgs] arrive one after the other while the session
    is open, the read loop is free and [msgCh] has room for all of them:
    those that are forwarded are appended to [msgCh], in order. *)
Lemma arrivals (pc : IncomingMessage -> bool) msgs :
  forall w,
    closeCh (self w) = false ->
    parked w = None ->
    Transport.OnMessage (Transport.handlers (transport (self w))) = true ->
    (length (msgCh (self w)) + length msgs <= msgCh_cap)%nat ->
    let w' := final (run (map (fun m => Recv m (pc m)) msgs) w) in
    let q := msgCh (self w)
             ++ List.filter (forwarded (connected (self w))) msgs in
    surroundings w' = surroundings (with_self (set_msgCh q) w).
Proof.
  induction msgs as [|msg msgs IH]; intros w Hc Hp Hh Hlen; cbn zeta.
  - cbn. unfold surroundings. cbn. by rewrite app_nil_r.
  - cbn [map run forEach]. rewrite final_bind.
    cbn [length] in Hlen.
    destruct (handleMessage_arrival msg (pc msg) w Hc) as (Hr & Hs); [lia |].
    rewrite <- (step_Recv msg (pc msg) w Hp Hh Hr) in Hs.
    set (w1 := final (step (Recv msg (pc msg)) w)) in *.
    apply surroundings_inv in Hs as (Hq1 & Hc1 & Hn1 & Hh1 & Hp1 & Hs1 & Hl1).
    cbn [self with_self set_msgCh msgCh closeCh connected handlers
         parked streams transport] in Hq1, Hc1, Hn1, Hh1, Hp1, Hs1, Hl1.
    assert (Transport.OnMessage (Transport.handlers (transport (self w1)))
            = true) as Hh'.
    { apply (f_equal (fun x => fst (fst (fst x)))) in Hl1.
      cbn [link fst] in Hl1. by rewrite Hl1. }
    assert (length (msgCh (self w1)) + length msgs <= msgCh_cap)%nat as Hlen'.
    { rewrite Hq1, length_app. destruct (forwarded _ _); cbn; lia. }
    specialize (IH w1 ltac:(congruence) ltac:(congruence) Hh' Hlen').
    cbn zeta in IH. unfold run in IH. rewrite IH.
    unfold surroundings.
    cbn [self with_self set_msgCh msgCh closeCh connected handlers
         parked streams transport].
    rewrite Hq1, Hc1, Hn1, Hh1, Hp1, Hs1, Hl1.
    cbn [List.filter]. destruct (forwarded _ msg); cbn [app];
      by rewrite <- ?app_assoc, ?app_nil_r.
Qed.

(** One round of a [Stream] goroutine: it takes a message from [msgCh],
    and its consumer takes the message from it. *)
Definition round (i : nat) : Sess unit :=
  stream_step i Go ;; stream_step i Go.

Lemma round_forward i msg q w :
  streams w !! i = Some Receiving ->
  msgCh (self w) = msg :: q ->
  isResult msg = false ->
  output (round i w) = [Stream_out i msg]
  /\ final (round i w) = with_self (set_msgCh q) w.
Proof.
  intros Hi Hq Hm. unfold round, stream_step, bind, field, gets, set_pc.
  cbn. rewrite Hi, Hq. cbn.
  rewrite list_lookup_insert_eq by (by eapply lookup_lt_Some). cbn.
  rewrite Hm. cbn. split; [done |].
  rewrite list_insert_insert_eq, list_insert_id by done.
  by destruct w.
Qed.

Lemma round_result i m q w :
  streams w !! i = Some Receiving ->
  msgCh (self w) = Result m :: q ->
  output (round i w) = [Stream_out i (Result m); Stream_closed i]
  /\ final (round i w)
     = set_streams (<[i := Finished]> (streams w))
         (with_self (fun s => set_state SessionStateCompleted (set_msgCh q s)) w).
Proof.
  intros Hi Hq. unfold round, stream_step, bind, field, gets, set_pc.
  cbn. rewrite Hi, Hq. cbn.
  rewrite list_lookup_insert_eq by (by eapply lookup_lt_Some). cbn.
  split; [done |]. by rewrite list_insert_insert_eq.
Qed.

(** The goroutine drains [msgCh] up to the first Result envelope. *)
Lemma drain i m post pre :
  forall w,
    streams w !! i = Some Receiving ->
    msgCh (self w) = pre ++ Result m :: post ->
    Forall (fun msg => isResult msg = false) pre ->
    let r := times (length pre + 1) (round i) w in
    output r
    = map (Stream_out i) pre ++ [Stream_out i (Result m); Stream_closed i]
    /\ final r
       = set_streams (<[i := Finished]> (streams w))
           (with_self
              (fun s => set_state SessionStateCompleted (set_msgCh post s)) w).
Proof.
  induction pre as [|msg pre IH]; intros w Hi Hq Hpre; cbn zeta.
  - cbn [length Nat.add times]. rewrite output_bind, final_bind.
    destruct (round_result i m post w Hi Hq) as (-> & ->). cbn.
    done.
  - apply Forall_cons in Hpre as [Hm Hpre].
    cbn [length Nat.add times]. rewrite output_bind, final_bind.
    destruct (round_forward i msg (pre ++ Result m :: post) w Hi Hq Hm)
      as (-> & ->).
    destruct (IH (with_self (set_msgCh (pre ++ Result m :: post)) w))
      as (-> & ->); try done.
Qed.

Lemma handleMessage_Result_transport m pc w :
  transport (self (final (handleMessage (Result m) pc w)))
  = transport (self w).
Proof.
  unfold handleMessage, bind, field, gets. cbn -[forward].
  destruct (connected (self w)); cbn -[forward];
    by rewrite (forward_self transport).
Qed.

Lemma filter_not_result (f : IncomingMessage -> bool) l :
  Forall (fun msg => isResult msg = false) l ->
  Forall (fun msg => isResult msg = false) (List.filter f l).
Proof.
  rewrite !Forall_forall. intros H msg Hin.
  apply list_elem_of_In, filter_In in Hin as [Hin _].
  by apply H, list_elem_of_In.
Qed.

(** The messages all arrive before the consumer takes any, few enough
    for [msgCh], among them a Result envelope [m] with no Result envelope
    before it: the goroutine gives its consumer the forwarded messages
    that came before [m], then [m], and returns, which closes its
    channel; the state is Completed. *)
Lemma Stream_after_arrivals (w : World) (i : nat)
    (pc : IncomingMessage -> bool) (pre post : list IncomingMessage)
    (m : SDKResultMessage) :
  streams w !! i = Some Receiving ->
  closeCh (self w) = false ->
  parked w = None ->
  Transport.OnMessage (Transport.handlers (transport (self w))) = true ->
  msgCh (self w) = [] ->
  Forall (fun msg => isResult msg = false) pre ->
  (length (pre ++ Result m :: post) <= msgCh_cap)%nat ->
  let msgs := pre ++ Result m :: post in
  let before := List.filter (forwarded (connected (self w))) pre in
  let w1 := final (run (map (fun msg => Recv msg (pc msg)) msgs) w) in
  let r := times (length before + 1) (round i) w1 in
  output r
  = map (Stream_out i) before ++ [Stream_out i (Result m); Stream_closed i]
  /\ streams (final r) !! i = Some Finished
  /\ state (self (final r)) = SessionStateCompleted
  /\ transport (self (final r)) = transport (self w1)
  /\ link (transport (self (final r))) = link (transport (self w))
  /\ (forall w' pc',
        transport (self (final (handleMessage (Result m) pc' w')))
        = transport (self w')).
Proof.
  intros Hi Hc Hp Hh Hq Hpre Hlen. cbn zeta.
  pose proof (arrivals pc (pre ++ Result m :: post) w Hc Hp Hh) as Ha.
  rewrite Hq in Ha. specialize (Ha Hlen). cbn zeta in Ha.
  set (w1 := final (run _ w)) in *.
  rewrite List.filter_app in Ha. cbn [List.filter forwarded app] in Ha.
  apply surroundings_inv in Ha as (Hq1 & _ & _ & _ & _ & Hs1 & Hl1).
  cbn [self with_self set_msgCh msgCh streams transport app] in Hq1, Hs1, Hl1.
  set (before := List.filter (forwarded (connected (self w))) pre) in *.
  destruct (drain i m (List.filter (forwarded (connected (self w))) post)
              before w1) as (Hout & Hfin).
  { by rewrite Hs1. }
  { done. }
  { by apply filter_not_result. }
  rewrite Hout, Hfin.
  cbn [self with_self set_streams set_msgCh set_state state streams transport].
  split; [done | split; [| split; [done | split; [done | split; [done |]]]]].
  - apply list_lookup_insert_eq. rewrite Hs1. by eapply lookup_lt_Some.
  - intros w' pc'. apply handleMessage_Result_transport.
Qed.

(** ** The stream under any schedule *)

(** What the goroutines do while [Stream] number [i] is the one taker of
    [msgCh] and nothing ends the session or the context of the stream:
    messages arrive, the read loop retries a blocked send, a frame fails
    to parse, the ticker fires, the goroutine of the stream or its
    consumer moves. *)
Definition allowed (i : nat) (a : Event) : Prop :=
  match a with
  | Recv _ _ | Unpark _ | BadFrame _ | Tick _ => True
  | StreamStep j ev => j = i /\ ev = Go
  | ReadError _ | CallClose => False
  end.

(** The messages that the read loop takes from the connection in the
    course of [evs] and hands to [handleMessage]: those of the [Recv]
    events that find it free. *)
Fixpoint inbound (evs : list Event) (w : World) : list IncomingMessage :=
  match evs with
  | [] => []
  | a :: evs' =>
      match a, parked w with
      | Recv msg _, None => [msg]
      | _, _ => []
      end ++ inbound evs' (final (step a w))
  end.

(** The actions on the channel that [Stream] number [i] returned. *)
Definition of_stream (i : nat) (o : Obs) : bool :=
  match o with
  | Stream_out j _ | Stream_closed j => bool_decide (j = i)
  | _ => false
  end.

Definition seen (i : nat) (l : list Obs) : list Obs :=
  List.filter (of_stream i) l.

(** The messages between the read loop and [msgCh]: those in the channel
    and the one the read loop is blocked on. *)
Definition upstream (w : World) : list IncomingMessage :=
  msgCh (self w) ++ option_list (parked w).

(** The messages on their way to the consumer of stream [i]: the one its
    goroutine holds, then those upstream. *)
Definition pipeline (i : nat) (w : World) : list IncomingMessage :=
  match streams w !! i with
  | Some (Sending msg) => [msg]
  | _ => []
  end ++ upstream w.

Definition finished (i : nat) (w : World) : bool :=
  match streams w !! i with
  | Some Finished => true
  | _ => false
  end.

(** What the events other than those of the streams leave alone. *)
Definition backdrop (w : World) :=
  (closeCh (self w), connected (self w), link (transport (self w)),
   streams w).

(** Steps that let stream [i] finish: the read loop retries its send,
    then the goroutine or its consumer moves; [n] times. *)
Definition finish (i n : nat) : list Event :=
  concat (replicate n [Unpark false; StreamStep i Go]).

Definition nonresult (l : list IncomingMessage) : Prop :=
  Forall (fun msg => isResult msg = false) l.

(** Where stream [i] stands when [fwd] are the messages forwarded to
    [msgCh] so far and [out] is the output so far: the consumer got an
    initial part [d] of [fwd], in order, the rest is on its way; the
    goroutine has returned if and only if the last message given is a
    Result envelope, the first one, and then the channel was closed after
    it. *)
Definition on_course (i : nat) (fwd : list IncomingMessage)
    (out : list Obs) (w : World) : Prop :=
  exists d,
    d ++ pipeline i w = fwd
    /\ if finished i w
       then seen i out = map (Stream_out i) d ++ [Stream_closed i]
            /\ exists d0 m, d = d0 ++ [Result m] /\ nonresult d0
       else seen i out = map (Stream_out i) d /\ nonresult d.

(** *** Schedules *)

Lemma run_app evs1 evs2 w :
  output (run (evs1 ++ evs2) w)
  = output (run evs1 w) ++ output (run evs2 (final (run evs1 w)))
  /\ final (run (evs1 ++ evs2) w) = final (run evs2 (final (run evs1 w))).
Proof.
  revert w. induction evs1 as [|a evs1 IH]; intros w; [done |].
  cbn [app run forEach]. rewrite !output_bind, !final_bind.
  destruct (IH (final (step a w))) as (Ho & Hf). unfold run in Ho, Hf.
  rewrite Ho, Hf. by rewrite app_assoc.
Qed.

Lemma inbound_app evs1 evs2 w :
  inbound (evs1 ++ evs2) w
  = inbound evs1 w ++ inbound evs2 (final (run evs1 w)).
Proof.
  revert w. induction evs1 as [|a evs1 IH]; intros w; [done |].
  cbn [app inbound run forEach]. rewrite final_bind, IH.
  by rewrite app_assoc.
Qed.

Lemma run_one a w :
  output (run [a] w) = output (step a w)
  /\ final (run [a] w) = final (step a w).
Proof.
  cbn [run forEach]. rewrite output_bind, final_bind.
  cbn [ret fst snd]. by rewrite app_nil_r.
Qed.

(** *** What the steps emit *)

Lemma emits_weaken {S O A} (Q Q' : O -> Prop) (m : M S O A) :
  (forall o, Q o -> Q' o) -> emits Q m -> emits Q' m.
Proof. intros H Hm s. eapply Forall_impl; [apply Hm | done]. Qed.

(** An action that is not on the channel of stream [i]. *)
Definition quiet (i : nat) (o : Obs) : Prop := of_stream i o = false.

Lemma seen_quiet i l : Forall (quiet i) l -> seen i l = [].
Proof.
  induction 1 as [|o l Ho _ IH]; [done |].
  unfold seen in *. cbn [List.filter]. by rewrite Ho.
Qed.

Lemma seen_app i l1 l2 : seen i (l1 ++ l2) = seen i l1 ++ seen i l2.
Proof. apply List.filter_app. Qed.

Lemma from_transport_quiet i o : from_transport o -> quiet i o.
Proof. by destruct o. Qed.

Lemma quiet_handleError i e : emits (quiet i) (handleError e).
Proof.
  eapply emits_weaken; [apply from_transport_quiet | apply emits_handleError].
Qed.

Lemma quiet_onTransport i {A} (m : Transport.T A) :
  emits (quiet i) (onTransport m).
Proof.
  eapply emits_weaken; [apply from_transport_quiet | apply emits_onTransport].
Qed.

Lemma quiet_handleToolCall i call : emits (quiet i) (handleToolCall call).
Proof.
  unfold handleToolCall, transport_Send, setState, update, field.
  repeat emits_step;
    first [done | apply quiet_onTransport | apply quiet_handleError].
Qed.

Lemma quiet_forward i msg pc : emits (quiet i) (forward msg pc).
Proof.
  unfold forward, update, field. repeat emits_step. done.
Qed.

Lemma quiet_readySignals i msg : emits (quiet i) (readySignals msg).
Proof.
  unfold readySignals, update.
  destruct msg; repeat emits_step;
    repeat (match goal with
            | |- emits _ (if ?b then _ else _) => destruct b
            end; repeat emits_step).
Qed.

Lemma quiet_handleMessage i msg pc : emits (quiet i) (handleMessage msg pc).
Proof.
  unfold handleMessage, field. emits_step; [emits_step | emits_step].
  - destruct (negb _); [apply quiet_readySignals | emits_step].
  - destruct a0; [emits_step |].
    destruct msg; try apply quiet_forward.
    emits_step; [apply quiet_handleToolCall | emits_step].
Qed.

(** *** What the steps do upstream of the stream *)

Lemma surroundings_backdrop w w' :
  surroundings w' = surroundings w ->
  backdrop w' = backdrop w /\ upstream w' = upstream w.
Proof.
  intros (Hq & Hc & Hn & _ & Hp & Hs & Hl)%surroundings_inv.
  unfold backdrop, upstream. by rewrite Hq, Hc, Hn, Hp, Hs, Hl.
Qed.

Lemma keepAliveTick_link now t :
  link (final (Transport.keepAliveTick now t)) = link t.
Proof.
  unfold Transport.keepAliveTick. rewrite final_bind.
  destruct (result _); [| apply Send_link].
  unfold bind, gets. cbn [fst snd].
  match goal with |- context [Transport.OnError ?h] =>
    destruct (Transport.OnError h) end; apply Send_link.
Qed.

Lemma Tick_surroundings now w :
  surroundings (final (step (Tick now) w)) = surroundings w.
Proof.
  cbn [step].
  apply (keeps_onTransport (same_on surroundings)
           (fun t t' => link t' = link t));
    first [exact _ | done | idtac].
  - intros t w' Ht. unfold same_on, surroundings. cbn. by rewrite Ht.
  - intros t. apply keepAliveTick_link.
Qed.

Lemma BadFrame_surroundings cause w :
  surroundings (final (step (BadFrame cause) w)) = surroundings w.
Proof.
  cbn [step]. unfold readLoop_badFrame, bind, field, gets. cbn [fst snd].
  destruct (bool_decide _); [done |].
  destruct (Transport.OnError _); [| done]. cbn [when].
  apply (keeps_handleError (same_on surroundings)); done.
Qed.

Lemma readLoop_message_busy msg pc held w :
  parked w = Some held -> readLoop_message msg pc w = (tt, w, []).
Proof.
  intros Hp. unfold readLoop_message, bind, field, gets.
  cbn -[handleMessage]. by rewrite Hp.
Qed.

Lemma readLoop_message_free msg pc w :
  parked w = None ->
  Transport.OnMessage (Transport.handlers (transport (self w))) = true ->
  let r := handleMessage msg pc w in
  output (readLoop_message msg pc w) = output r
  /\ final (readLoop_message msg pc w)
     = (if result r then final r else set_parked (Some msg) (final r)).
Proof.
  intros Hp Hh. unfold readLoop_message, bind, field, gets.
  cbn -[handleMessage]. rewrite Hp, Hh. cbn -[handleMessage].
  destruct (fst (fst (handleMessage msg pc w)));
    cbn [ret modify fst snd]; by rewrite app_nil_r.
Qed.

Lemma readLoop_unpark_free pc w :
  parked w = None -> readLoop_unpark pc w = (tt, w, []).
Proof.
  intros Hp. unfold readLoop_unpark, bind, gets.
  cbn -[forward]. by rewrite Hp.
Qed.

Lemma readLoop_unpark_busy pc held w :
  parked w = Some held ->
  let r := forward held pc w in
  output (readLoop_unpark pc w) = output r
  /\ final (readLoop_unpark pc w)
     = (if result r then set_parked None (final r) else final r).
Proof.
  intros Hp. unfold readLoop_unpark, bind, gets.
  cbn -[forward]. rewrite Hp. cbn -[forward].
  destruct (fst (fst (forward held pc w)));
    cbn [when ret modify fst snd]; by rewrite app_nil_r.
Qed.

(** An event other than a step of a stream: it emits nothing on the
    channel of stream [i], leaves the backdrop as it is, and what it
    forwards is appended upstream. *)
Lemma step_upstream i a w :
  allowed i a ->
  (forall j ev, a <> StreamStep j ev) ->
  closeCh (self w) = false ->
  Transport.OnMessage (Transport.handlers (transport (self w))) = true ->
  let r := step a w in
  seen i (output r) = []
  /\ backdrop (final r) = backdrop w
  /\ upstream (final r)
     = upstream w
       ++ List.filter (forwarded (connected (self w))) (inbound [a] w).
Proof.
  intros Ha Hns Hc Hh. cbn zeta.
  destruct a as [msg pc | pc | cause | cause | now | | j ev];
    try done; cbn [inbound List.filter app].
  - (* a message arrives *)
    cbn [step].
    destruct (parked w) as [held|] eqn:Hp.
    { rewrite (readLoop_message_busy msg pc held w Hp).
      cbn [List.filter fst snd]. by rewrite app_nil_r. }
    destruct (readLoop_message_free msg pc w Hp Hh) as (-> & ->).
    destruct (handleMessage_open msg pc w Hc) as (Hr & Hs).
    split.
    { apply seen_quiet. by_emits. apply quiet_handleMessage. }
    rewrite Hr. clear Hr.
    apply surroundings_inv in Hs as (Hq1 & Hc1 & Hn1 & _ & Hp1 & Hs1 & Hl1).
    cbn [self with_self set_msgCh msgCh closeCh connected
         parked streams transport] in Hq1, Hc1, Hn1, Hp1, Hs1, Hl1.
    unfold backdrop, upstream. cbn [List.filter app].
    destruct (forwarded (connected (self w)) msg); cbn [negb orb andb] in *.
    + destruct (has_room w);
        cbn [set_parked self parked streams option_list].
      * rewrite Hq1, Hc1, Hn1, Hp1, Hs1, Hl1, Hp.
        cbn [option_list]. by rewrite !app_nil_r.
      * rewrite Hq1, Hc1, Hn1, Hs1, Hl1, Hp.
        cbn [option_list]. by rewrite !app_nil_r.
    + rewrite Hq1, Hc1, Hn1, Hp1, Hs1, Hl1, Hp.
      cbn [option_list]. by rewrite !app_nil_r.
  - (* the read loop retries its send *)
    cbn [step].
    destruct (parked w) as [held|] eqn:Hp.
    2: { rewrite (readLoop_unpark_free pc w Hp).
         cbn [List.filter fst snd]. by rewrite app_nil_r. }
    destruct (readLoop_unpark_busy pc held w Hp) as (-> & ->).
    destruct (forward_open held pc w Hc) as (Hr & Hf).
    split.
    { apply seen_quiet. by_emits. apply quiet_forward. }
    rewrite Hr, Hf. unfold backdrop, upstream.
    destruct (has_room w);
      cbn [set_parked with_self set_msgCh self msgCh
           closeCh connected parked streams transport option_list].
    + rewrite Hp. cbn [option_list]. by rewrite !app_nil_r.
    + rewrite Hp. cbn [option_list]. by rewrite !app_nil_r.
  - (* a frame that does not parse *)
    destruct (surroundings_backdrop _ _ (BadFrame_surroundings cause w))
      as (-> & ->).
    rewrite app_nil_r. split; [| done].
    apply seen_quiet. by_emits. cbn [step]. unfold readLoop_badFrame, field.
    repeat emits_step. apply quiet_handleError.
  - (* the ticker *)
    destruct (surroundings_backdrop _ _ (Tick_surroundings now w))
      as (-> & ->).
    rewrite app_nil_r. split; [| done].
    apply seen_quiet. by_emits. apply quiet_onTransport.
  - by destruct (Hns j ev).
Qed.

(** *** The steps of the stream *)

(** One move of the goroutine of stream [i], or of its consumer. *)
Lemma stream_step_Go i w :
  let r := stream_step i Go w in
  match streams w !! i with
  | Some Receiving =>
      output r = []
      /\ final r
         = match msgCh (self w) with
           | msg :: q =>
               set_streams (<[i := Sending msg]> (streams w))
                 (with_self (set_msgCh q) w)
           | [] => w
           end
  | Some (Sending msg) =>
      if isResult msg then
        output r = [Stream_out i msg; Stream_closed i]
        /\ final r
           = set_streams (<[i := Finished]> (streams w))
               (with_self (set_state SessionStateCompleted) w)
      else
        output r = [Stream_out i msg]
        /\ final r = set_streams (<[i := Receiving]> (streams w)) w
  | _ => output r = [] /\ final r = w
  end.
Proof.
  cbn zeta. unfold stream_step, bind, field, gets, set_pc. cbn.
  destruct (streams w !! i) as [[| msg |]|] eqn:Hi; cbn; try done.
  - by destruct (msgCh (self w)).
  - destruct (isResult msg); cbn; [done |]. split; [done |]. by destruct w.
Qed.

(** A world in which the session is open, the transport hands its
    messages to the session, and stream [i] was started. *)
Definition steady (i : nat) (w : World) : Prop :=
  closeCh (self w) = false
  /\ Transport.OnMessage (Transport.handlers (transport (self w))) = true
  /\ is_Some (streams w !! i).

Lemma link_OnMessage t t' :
  link t' = link t ->
  Transport.OnMessage (Transport.handlers t')
  = Transport.OnMessage (Transport.handlers t).
Proof.
  intros H. apply (f_equal (fun x => fst (fst (fst x)))) in H.
  cbn [link fst] in H. by rewrite H.
Qed.

Lemma map_snoc {A B} (f : A -> B) l x : map f (l ++ [x]) = map f l ++ [f x].
Proof. by rewrite map_app. Qed.

Lemma backdrop_inv w w' :
  backdrop w' = backdrop w ->
  closeCh (self w') = closeCh (self w)
  /\ connected (self w') = connected (self w)
  /\ link (transport (self w')) = link (transport (self w))
  /\ streams w' = streams w.
Proof.
  intros H. unfold backdrop in H.
  pose proof (f_equal (fun x => fst (fst (fst x))) H) as H1.
  pose proof (f_equal (fun x => snd (fst (fst x))) H) as H2.
  pose proof (f_equal (fun x => snd (fst x)) H) as H3.
  pose proof (f_equal snd H) as H4.
  done.
Qed.

(** An allowed step keeps the stream on course. *)
Lemma step_course i a fwd out w :
  allowed i a ->
  steady i w ->
  on_course i fwd out w ->
  let r := step a w in
  let fwd' :=
    fwd ++ List.filter (forwarded (connected (self w))) (inbound [a] w) in
  steady i (final r)
  /\ connected (self (final r)) = connected (self w)
  /\ link (transport (self (final r))) = link (transport (self w))
  /\ on_course i fwd' (out ++ output r) (final r)
  /\ (finished i w = false -> finished i (final r) = true ->
      state (self (final r)) = SessionStateCompleted).
Proof.
  intros Ha (Hc & Hh & Hi) (d & Hd & Hfin). cbn zeta.
  assert ((exists j ev, a = StreamStep j ev)
          \/ forall j ev, a <> StreamStep j ev) as [(j & ev & ->) | Hns].
  { destruct a; first [by right | left; eauto]. }
  - (* the stream *)
    destruct Ha as [-> ->]. cbn [step inbound List.filter app].
    rewrite app_nil_r.
    pose proof (stream_step_Go i w) as Hstep. cbn zeta in Hstep.
    unfold on_course, steady, pipeline, finished, upstream in *.
    destruct Hi as [pc Hi]. rewrite Hi in *.
    assert (i < length (streams w))%nat as Hlt by (by eapply lookup_lt_Some).
    destruct pc as [| msg |].
    + (* waiting on [msgCh] *)
      destruct Hstep as (-> & ->). rewrite app_nil_r.
      destruct (msgCh (self w)) as [|msg q] eqn:Hq.
      * rewrite Hi, Hq. split; [by eauto |].
        split; [done | split; [done |]]. split; [by exists d |].
        intros _ [=].
      * cbn [set_streams with_self set_msgCh self msgCh closeCh connected
             parked streams transport state].
        rewrite list_lookup_insert_eq by done.
        split; [by eauto |]. split; [done | split; [done |]].
        split; [by exists d |]. intros _ [=].
    + (* holding [msg] for the consumer *)
      destruct (isResult msg) eqn:Hres; destruct Hstep as (-> & ->);
        cbn [set_streams with_self set_state self msgCh closeCh connected
             parked streams transport state];
        rewrite list_lookup_insert_eq by done.
      * split; [by eauto |]. split; [done | split; [done |]].
        split; [| done].
        destruct Hfin as (Hseen & Hnon).
        exists (d ++ [msg]). split; [by rewrite <- app_assoc |].
        split.
        -- rewrite seen_app, Hseen, map_snoc. unfold seen.
           cbn [List.filter of_stream].
           rewrite bool_decide_eq_true_2 by done.
           by rewrite <- !app_assoc.
        -- destruct msg as [| m | | | | | | |]; try discriminate Hres.
           by exists d, m.
      * split; [by eauto |]. split; [done | split; [done |]].
        split; [| intros _ [=]].
        destruct Hfin as (Hseen & Hnon).
        exists (d ++ [msg]). split; [by rewrite <- app_assoc |].
        split.
        -- rewrite seen_app, Hseen, map_snoc. unfold seen.
           cbn [List.filter of_stream].
           by rewrite bool_decide_eq_true_2 by done.
        -- apply Forall_app. split; [done |]. by constructor.
    + (* returned *)
      destruct Hstep as (-> & ->). rewrite app_nil_r, Hi.
      split; [by eauto |]. split; [done | split; [done |]].
      split; [by exists d |]. intros [=].
  - (* the others *)
    destruct (step_upstream i a w Ha Hns Hc Hh) as (Hseen & Hb & Hup).
    apply backdrop_inv in Hb as (Hc1 & Hn1 & Hl1 & Hs1).
    unfold on_course, steady, pipeline, finished in *.
    rewrite Hs1, Hup, Hc1, Hn1, Hl1, (link_OnMessage _ _ Hl1).
    split; [done |]. split; [done | split; [done |]].
    split; [| intros H1 H2; congruence].
    exists d. rewrite seen_app, Hseen, app_nil_r.
    split; [| done]. rewrite <- Hd. by rewrite !app_assoc.
Qed.

(** Any schedule of allowed steps keeps the stream on course. *)
Lemma run_course i evs :
  forall w fwd out,
    Forall (allowed i) evs ->
    steady i w ->
    on_course i fwd out w ->
    let r := run evs w in
    let fwd' :=
      fwd ++ List.filter (forwarded (connected (self w))) (inbound evs w) in
    steady i (final r)
    /\ connected (self (final r)) = connected (self w)
    /\ link (transport (self (final r))) = link (transport (self w))
    /\ on_course i fwd' (out ++ output r) (final r).
Proof.
  induction evs as [|a evs IH]; intros w fwd out Hall Hw Hon; cbn zeta.
  - cbn [run forEach inbound List.filter ret fst snd].
    by rewrite !app_nil_r.
  - apply Forall_cons in Hall as [Ha Hall].
    destruct (step_course i a fwd out w Ha Hw Hon)
      as (Hw1 & Hn1 & Hl1 & Hon1 & _).
    cbn [run forEach]. rewrite output_bind, final_bind.
    set (w1 := final (step a w)) in *.
    destruct (IH w1 _ _ Hall Hw1 Hon1) as (Hw2 & Hn2 & Hl2 & Hon2).
    unfold run in Hw2, Hn2, Hl2, Hon2.
    split; [done |]. split; [congruence | split; [congruence |]].
    rewrite Hn1 in Hon2.
    replace (inbound (a :: evs) w) with (inbound [a] w ++ inbound evs w1)
      by (cbn [inbound]; by rewrite app_nil_r).
    by rewrite List.filter_app, !app_assoc.
Qed.

(** *** The stream returns *)

Lemma Unpark_spec i pc w :
  steady i w ->
  let w1 := final (step (Unpark pc) w) in
  steady i w1
  /\ streams w1 = streams w
  /\ upstream w1 = upstream w
  /\ (upstream w <> [] -> msgCh (self w1) <> []).
Proof.
  intros (Hc & Hh & Hi). cbn zeta.
  destruct (step_upstream i (Unpark pc) w I ltac:(done) Hc Hh)
    as (_ & Hb & Hup).
  apply backdrop_inv in Hb as (Hc1 & Hn1 & Hl1 & Hs1).
  cbn [inbound List.filter app] in Hup. rewrite app_nil_r in Hup.
  unfold steady. rewrite Hc1, Hs1, (link_OnMessage _ _ Hl1).
  split; [done |]. split; [done | split; [done |]].
  cbn [step]. unfold upstream. intros Hne.
  destruct (parked w) as [held|] eqn:Hp.
  - destruct (readLoop_unpark_busy pc held w Hp) as (_ & ->).
    destruct (forward_open held pc w Hc) as (-> & ->).
    destruct (has_room w) eqn:Hroom;
      cbn [set_parked with_self set_msgCh self msgCh].
    + by destruct (msgCh (self w)).
    + intros Hq. unfold has_room in Hroom. by rewrite Hq in Hroom.
  - rewrite (readLoop_unpark_free pc w Hp). cbn [fst snd].
    cbn [option_list] in Hne. by rewrite app_nil_r in Hne.
Qed.

Lemma Go_Sending i msg w :
  steady i w ->
  streams w !! i = Some (Sending msg) ->
  let w2 := final (step (StreamStep i Go) w) in
  steady i w2
  /\ upstream w2 = upstream w
  /\ streams w2 !! i = Some (if isResult msg then Finished else Receiving).
Proof.
  intros (Hc & Hh & Hi) Hs. cbn zeta. cbn [step].
  pose proof (stream_step_Go i w) as Hstep. cbn zeta in Hstep.
  rewrite Hs in Hstep.
  assert (i < length (streams w))%nat as Hlt by (by eapply lookup_lt_Some).
  unfold steady, upstream.
  destruct (isResult msg); destruct Hstep as (_ & ->);
    cbn [set_streams with_self set_state self msgCh closeCh
         parked streams transport];
    rewrite list_lookup_insert_eq by done; eauto.
Qed.

Lemma Go_Receiving i msg q w :
  steady i w ->
  streams w !! i = Some Receiving ->
  msgCh (self w) = msg :: q ->
  let w2 := final (step (StreamStep i Go) w) in
  steady i w2
  /\ msg :: upstream w2 = upstream w
  /\ streams w2 !! i = Some (Sending msg).
Proof.
  intros (Hc & Hh & Hi) Hs Hq. cbn zeta. cbn [step].
  pose proof (stream_step_Go i w) as Hstep. cbn zeta in Hstep.
  rewrite Hs, Hq in Hstep. destruct Hstep as (_ & ->).
  assert (i < length (streams w))%nat as Hlt by (by eapply lookup_lt_Some).
  unfold steady, upstream.
  cbn [set_streams with_self set_msgCh self msgCh closeCh
       parked streams transport].
  rewrite list_lookup_insert_eq, Hq by done. eauto.
Qed.

Lemma run_finish_S i n w :
  final (run (finish i (S n)) w)
  = final (run (finish i n)
             (final (step (StreamStep i Go)
                       (final (step (Unpark false) w))))).
Proof.
  unfold finish. cbn [replicate concat app run forEach].
  by rewrite !final_bind.
Qed.

(** With a Result envelope on its way, stream [i] returns when the read
    loop and the stream are given enough steps. *)
Lemma finish_returns i m k :
  forall w l1 l2,
    length l1 = k ->
    steady i w ->
    finished i w = false ->
    pipeline i w = l1 ++ Result m :: l2 ->
    exists n, finished i (final (run (finish i n) w)) = true.
Proof.
  induction k as [k IH] using lt_wf_ind.
  assert (forall w msg l1 l2,
            length l1 = k ->
            steady i w ->
            streams w !! i = Some (Sending msg) ->
            msg :: upstream w = l1 ++ Result m :: l2 ->
            exists n, finished i (final (run (finish i n) w)) = true)
    as Hsending.
  { intros w msg l1 l2 Hk Hw Hs Hpipe.
    destruct (Unpark_spec i false w Hw) as (Hw1 & Hs1 & Hup1 & _).
    set (w1 := final (step (Unpark false) w)) in *.
    rewrite <- Hs1 in Hs.
    destruct (Go_Sending i msg w1 Hw1 Hs) as (Hw2 & Hup2 & Hs2).
    set (w2 := final (step (StreamStep i Go) w1)) in *.
    destruct (isResult msg) eqn:Hres.
    - exists 1%nat. rewrite run_finish_S. fold w1 w2.
      cbn [finish replicate concat run forEach ret fst snd].
      unfold finished. by rewrite Hs2.
    - destruct l1 as [|x l1].
      { cbn [app] in Hpipe. injection Hpipe as -> _. discriminate Hres. }
      cbn [app] in Hpipe. injection Hpipe as -> Hpipe.
      cbn [length] in Hk.
      destruct (IH (length l1) ltac:(lia) w2 l1 l2 eq_refl Hw2) as [n Hn].
      + unfold finished. by rewrite Hs2.
      + unfold pipeline. rewrite Hs2. cbn [app]. congruence.
      + exists (S n). rewrite run_finish_S. by fold w1 w2. }
  intros w l1 l2 Hk Hw Hfin Hpipe.
  pose proof Hw as (_ & _ & [pc Hs]).
  unfold finished in Hfin. unfold pipeline in Hpipe. rewrite Hs in Hfin, Hpipe.
  destruct pc as [| msg |]; [| by eauto | done].
  cbn [app] in Hpipe.
  destruct (Unpark_spec i false w Hw) as (Hw1 & Hs1 & Hup1 & Hne).
  set (w1 := final (step (Unpark false) w)) in *.
  rewrite <- Hs1 in Hs.
  destruct (msgCh (self w1)) as [|msg q] eqn:Hq.
  { exfalso. apply Hne; [| done]. rewrite Hpipe. by destruct l1. }
  destruct (Go_Receiving i msg q w1 Hw1 Hs Hq) as (Hw2 & Hup2 & Hs2).
  set (w2 := final (step (StreamStep i Go) w1)) in *.
  destruct (Hsending w2 msg l1 l2 Hk Hw2 Hs2) as [n Hn]; [congruence |].
  exists (S n). rewrite run_finish_S. by fold w1 w2.
Qed.

Lemma inbound_finish i n : forall w, inbound (finish i n) w = [].
Proof.
  induction n as [|n IH]; intros w; [done |].
  unfold finish in *. cbn [replicate concat app inbound]. by rewrite IH.
Qed.

Lemma allowed_finish i n : Forall (allowed i) (finish i n).
Proof.
  induction n as [|n IH]; [constructor |].
  unfold finish in *. cbn [replicate concat app].
  repeat constructor. done.
Qed.

(** *** Lists with a first Result envelope *)

Lemma before_result (d rest pre post : list IncomingMessage) m :
  d ++ rest = pre ++ Result m :: post ->
  nonresult d ->
  exists pre2, pre = d ++ pre2 /\ rest = pre2 ++ Result m :: post.
Proof.
  revert pre. induction d as [|x d IH]; intros pre Heq Hd.
  - by exists pre.
  - apply Forall_cons in Hd as [Hx Hd].
    destruct pre as [|y pre]; cbn [app] in Heq; injection Heq as -> Heq.
    + discriminate Hx.
    + destruct (IH pre Heq Hd) as (pre2 & -> & ->). by exists pre2.
Qed.

Lemma upto_result (d0 rest pre post : list IncomingMessage) m0 m :
  (d0 ++ [Result m0]) ++ rest = pre ++ Result m :: post ->
  nonresult d0 ->
  nonresult pre ->
  d0 ++ [Result m0] = pre ++ [Result m].
Proof.
  intros Heq Hd Hpre. rewrite <- app_assoc in Heq. cbn [app] in Heq.
  destruct (before_result _ _ _ _ _ Heq Hd) as (pre2 & -> & Hrest).
  apply Forall_app in Hpre as [_ Hpre2].
  destruct pre2 as [|x pre2]; cbn [app] in Hrest.
  - injection Hrest as -> _. by rewrite app_nil_r.
  - injection Hrest as <- _. apply Forall_cons in Hpre2 as [Hx _].
    discriminate Hx.
Qed.

Lemma finished_spec i w :
  finished i w = true <-> streams w !! i = Some Finished.
Proof.
  unfold finished. destruct (streams w !! i) as [[]|]; split; done.
Qed.

(** Where stream [i] stands after a schedule of allowed steps in which
    the messages [pre], then the Result envelope [m], then [post] came
    in: if its goroutine has returned, the consumer got the forwarded
    messages of [pre], then [m], then the end of the channel; if not, it
    got an initial part of the forwarded messages of [pre], and [m] is on
    its way. *)
Lemma stream_course i evs w pre post m :
  streams w !! i = Some Receiving ->
  closeCh (self w) = false ->
  parked w = None ->
  msgCh (self w) = [] ->
  Transport.OnMessage (Transport.handlers (transport (self w))) = true ->
  Forall (allowed i) evs ->
  inbound evs w = pre ++ Result m :: post ->
  nonresult pre ->
  let r := run evs w in
  let fw := forwarded (connected (self w)) in
  steady i (final r)
  /\ link (transport (self (final r))) = link (transport (self w))
  /\ if finished i (final r)
     then seen i (output r)
          = map (Stream_out i) (List.filter fw pre ++ [Result m])
            ++ [Stream_closed i]
     else exists d rest,
            List.filter fw pre = d ++ rest
            /\ seen i (output r) = map (Stream_out i) d
            /\ pipeline i (final r)
               = rest ++ Result m :: List.filter fw post.
Proof.
  intros Hi Hc Hp Hq Hh Hall Hin Hpre. cbn zeta.
  assert (steady i w) as Hw by (unfold steady; eauto).
  assert (on_course i [] [] w) as Hon.
  { exists []. unfold pipeline, upstream, finished.
    rewrite Hi, Hq, Hp. split; [done |]. split; [done | constructor]. }
  destruct (run_course i evs w [] [] Hall Hw Hon)
    as (Hw1 & _ & Hl1 & (d & Hd & Hfin)).
  split; [done |]. split; [done |].
  cbn [app] in Hd, Hfin.
  rewrite Hin, List.filter_app in Hd. cbn [List.filter forwarded] in Hd.
  assert (nonresult (List.filter (forwarded (connected (self w))) pre))
    as Hpre' by (by apply filter_not_result).
  destruct (finished i (final (run evs w))).
  - destruct Hfin as (-> & d0 & m0 & -> & Hd0).
    by rewrite (upto_result _ _ _ _ _ _ Hd Hd0 Hpre').
  - destruct Hfin as (-> & Hnon).
    destruct (before_result _ _ _ _ _ Hd Hnon) as (rest & -> & Hrest).
    by exists d, rest.
Qed.

(** C8. A [Stream] goroutine is waiting on [msgCh]; the session is open,
    the read loop is free and [msgCh] is empty. Then, in any order,
    messages arrive, the read loop blocks on a full [msgCh] and retries,
    frames fail to parse, the ticker fires, the goroutine and its
    consumer move; the messages that came in are [pre], with no Result
    envelope, then the Result envelope [m], then [post] (so with exactly
    one Result envelope it is [m]). At any time, what the consumer has
    got is an initial part of: the forwarded messages of [pre], then [m],
    then the end of the channel. The goroutine has returned exactly when
    the consumer has got all of it, and with enough further steps of the
    read loop and of the stream it has. The step in which it returns
    leaves the state Completed. The connection of the transport, its
    status and its [closeCh] are what they were at the start, and the
    arrival of a Result envelope never changes the transport. *)
Theorem C8_stream_result (w : World) (i : nat) (evs : list Event)
    (pre post : list IncomingMessage) (m : SDKResultMessage) :
  streams w !! i = Some Receiving ->
  closeCh (self w) = false ->
  parked w = None ->
  msgCh (self w) = [] ->
  Transport.OnMessage (Transport.handlers (transport (self w))) = true ->
  Forall (allowed i) evs ->
  inbound evs w = pre ++ Result m :: post ->
  nonresult pre ->
  let r := run evs w in
  let before := List.filter (forwarded (connected (self w))) pre in
  let expected :=
    map (Stream_out i) (before ++ [Result m]) ++ [Stream_closed i] in
  seen i (output r) `prefix_of` expected
  /\ (streams (final r) !! i = Some Finished <-> seen i (output r) = expected)
  /\ (exists n,
        let r' := run (evs ++ finish i n) w in
        seen i (output r') = expected
        /\ streams (final r') !! i = Some Finished)
  /\ (forall evs1 a evs2,
        evs = evs1 ++ a :: evs2 ->
        streams (final (run evs1 w)) !! i <> Some Finished ->
        streams (final (run (evs1 ++ [a]) w)) !! i = Some Finished ->
        state (self (final (run (evs1 ++ [a]) w))) = SessionStateCompleted)
  /\ link (transport (self (final r))) = link (transport (self w))
  /\ (forall w' pc',
        transport (self (final (handleMessage (Result m) pc' w')))
        = transport (self w')).
Proof.
  intros Hi Hc Hp Hq Hh Hall Hin Hpre. cbn zeta.
  destruct (stream_course i evs w pre post m Hi Hc Hp Hq Hh Hall Hin Hpre)
    as (Hw1 & Hl1 & Hcourse).
  set (before := List.filter (forwarded (connected (self w))) pre) in *.
  set (expected := map (Stream_out i) (before ++ [Result m])
                   ++ [Stream_closed i]).
  split; [| split; [| split; [| split; [| split; [done |]]]]].
  - (* an initial part *)
    destruct (finished i (final (run evs w))).
    + by rewrite Hcourse.
    + destruct Hcourse as (d & rest & -> & -> & _).
      exists (map (Stream_out i) (rest ++ [Result m]) ++ [Stream_closed i]).
      unfold expected. by rewrite <- !app_assoc, !map_app, <- !app_assoc.
  - (* returned exactly when all was given *)
    rewrite <- finished_spec.
    destruct (finished i (final (run evs w))); [done |].
    destruct Hcourse as (d & rest & _ & Hseen & _).
    split; [done |]. rewrite Hseen. intros Heq. exfalso.
    assert (In (Stream_closed i) (map (Stream_out i) d)) as Hin'.
    { rewrite Heq. apply in_or_app. right. by left. }
    apply in_map_iff in Hin' as (x & Hx & _). discriminate Hx.
  - (* it returns *)
    assert (exists n, finished i (final (run (finish i n) (final (run evs w))))
                      = true) as [n Hn].
    { destruct (finished i (final (run evs w))) eqn:Hfin.
      - by exists 0%nat.
      - destruct Hcourse as (d & rest & _ & _ & Hpipe).
        by eapply finish_returns. }
    exists n. cbn zeta.
    destruct (run_app evs (finish i n) w) as (_ & Hf).
    assert (Forall (allowed i) (evs ++ finish i n)) as Hall'.
    { apply Forall_app. split; [done | apply allowed_finish]. }
    assert (inbound (evs ++ finish i n) w = pre ++ Result m :: post) as Hin'.
    { by rewrite inbound_app, inbound_finish, app_nil_r. }
    destruct (stream_course i _ w pre post m Hi Hc Hp Hq Hh Hall' Hin' Hpre)
      as (_ & _ & Hcourse').
    rewrite <- finished_spec. rewrite <- Hf in Hn. rewrite Hn in Hcourse'.
    done.
  - (* the state when it returns *)
    intros evs1 a evs2 -> Hnot Hret.
    apply Forall_app in Hall as [Hall1 Hall2].
    apply Forall_cons in Hall2 as [Ha _].
    assert (steady i w) as Hw by (unfold steady; eauto).
    assert (on_course i [] [] w) as Hon.
    { exists []. unfold pipeline, upstream, finished.
      rewrite Hi, Hq, Hp. split; [done |]. split; [done | constructor]. }
    destruct (run_course i evs1 w [] [] Hall1 Hw Hon)
      as (Hw' & _ & _ & Hon').
    destruct (step_course i a _ _ _ Ha Hw' Hon') as (_ & _ & _ & _ & Hstate).
    destruct (run_app evs1 [a] w) as (_ & Hf).
    destruct (run_one a (final (run evs1 w))) as (_ & Hf1).
    rewrite Hf, Hf1 in *. apply Hstate.
    + rewrite <- finished_spec in Hnot. by apply not_true_is_false.
    + by apply finished_spec.
  - intros w' pc'. apply handleMessage_Result_transport.
Qed.

(** A session with a [Stream] call waiting: created, connected on a
    Control "ready", [Stream] called. *)
Definition ready_env : ConnectEnv :=
  {| dial := Transport.Dialed {| Transport.faults := [] |};
     timeout_first := false;
     during := [Recv (Control
                        {| control_Type := MessageTypeControl;
                           control_Payload :=
                             {| Action := ControlActionReady;
                                Data := JNull |} |}) false];
     wake := ReadyCh |}.

Definition new_world : World :=
  CreateSession None 0 (NewClient DefaultClientOptions).

Definition streaming_world : World :=
  final (Stream (final (Connect ready_env new_world))).

Definition a_result : SDKResultMessage :=
  {| res_Subtype := "success"; res_UUID := "u3"; res_SessionID := "s";
     res_IsError := false; res_NumTurns := 1; res_Result := "4" |}.

Definition some_messages : list IncomingMessage :=
  [Assistant "u1" "s" (JString "2 + 2");
   ToolCall {| CallID := "c1"; call_ToolName := "add"; Input := JNull |}].

(** Messages arrive while the consumer reads, the ticker fires, a frame
    does not parse. *)
Definition a_schedule : list Event :=
  [Recv (Assistant "u1" "s" (JString "2 + 2")) false;
   StreamStep 0 Go;
   Recv (ToolCall {| CallID := "c1"; call_ToolName := "add"; Input := JNull |})
        false;
   Tick 5;
   StreamStep 0 Go;
   Recv (Result a_result) false;
   BadFrame "unexpected end of JSON input";
   Recv (Assistant "u4" "s" (JString "bye")) false;
   StreamStep 0 Go].

Lemma C8_stream_result_witness :
  let w := streaming_world in
  let i := 0%nat in
  let evs := a_schedule in
  let pre := some_messages in
  let post := [Assistant "u4" "s" (JString "bye")] in
  let m := a_result in
  streams w !! i = Some Receiving
  /\ closeCh (self w) = false
  /\ parked w = None
  /\ msgCh (self w) = []
  /\ Transport.OnMessage (Transport.handlers (transport (self w))) = true
  /\ Forall (allowed i) evs
  /\ inbound evs w = pre ++ Result m :: post
  /\ nonresult pre
  /\ let r := run evs w in
     let before := List.filter (forwarded (connected (self w))) pre in
     let expected :=
       map (Stream_out i) (before ++ [Result m]) ++ [Stream_closed i] in
     seen i (output r) `prefix_of` expected
     /\ (streams (final r) !! i = Some Finished
         <-> seen i (output r) = expected)
     /\ (exists n,
           let r' := run (evs ++ finish i n) w in
           seen i (output r') = expected
           /\ streams (final r') !! i = Some Finished)
     /\ (forall evs1 a evs2,
           evs = evs1 ++ a :: evs2 ->
           streams (final (run evs1 w)) !! i <> Some Finished ->
           streams (final (run (evs1 ++ [a]) w)) !! i = Some Finished ->
           state (self (final (run (evs1 ++ [a]) w)))
           = SessionStateCompleted)
     /\ link (transport (self (final r))) = link (transport (self w))
     /\ (forall w' pc',
           transport (self (final (handleMessage (Result m) pc' w')))
           = transport (self w')).
Proof.
  cbn zeta.
  assert (streams streaming_world !! 0%nat = Some Receiving) as H1
    by (vm_compute; reflexivity).
  assert (closeCh (self streaming_world) = false) as H2
    by (vm_compute; reflexivity).
  assert (parked streaming_world = None) as H3 by (vm_compute; reflexivity).
  assert (msgCh (self streaming_world) = []) as H4 by (vm_compute; reflexivity).
  assert (Transport.OnMessage
            (Transport.handlers (transport (self streaming_world))) = true)
    as H5 by (vm_compute; reflexivity).
  assert (Forall (allowed 0) a_schedule) as H6
    by (repeat constructor).
  assert (inbound a_schedule streaming_world
          = some_messages
            ++ Result a_result :: [Assistant "u4" "s" (JString "bye")]) as H7
    by (vm_compute; reflexivity).
  assert (nonresult some_messages) as H8 by (repeat constructor).
  split; [exact H1 | split; [exact H2 | split; [exact H3 | split; [exact H4 |]]]].
  split; [exact H5 | split; [exact H6 | split; [exact H7 | split; [exact H8 |]]]].
  exact (C8_stream_result streaming_world 0 a_schedule some_messages
           [Assistant "u4" "s" (JString "bye")] a_result
           H1 H2 H3 H4 H5 H6 H7 H8).
Defined.

(** ** Sending *)

(** The part of [Send] after the connection is there. *)
Definition Send_rest (uuid message : string) : Sess (option GoError) :=
  setState SessionStateProcessing ;;
  id <- field sessionID ;;
  let sessionID := if decide (id = "") then "unknown" else id in
  transport_Send (OutUser (userMessage uuid sessionID message)).

(** The session identity that [Send] puts in the User envelope. *)
Definition identity_or_unknown (w : World) : string :=
  if decide (sessionID (self w) = "") then "unknown" else sessionID (self w).

Lemma Send_rest_spec uuid message w :
  let r := Send_rest uuid message w in
  let um := OutUser (userMessage uuid (identity_or_unknown w) message) in
  result r = result (Transport.Send um (transport (self w)))
  /\ state (self (final r)) = SessionStateProcessing
  /\ sessionID (self (final r)) = sessionID (self w)
  /\ connected (self (final r)) = connected (self w)
  /\ sends (output r) = [um].
Proof.
  cbn zeta. unfold Send_rest.
  rewrite !result_bind, !final_bind. unfold sends. rewrite !omap_bind.
  cbn [setState update modify field gets fst snd omap app].
  change (if decide (sessionID (self w) = "") then "unknown"
          else sessionID (self w)) with (identity_or_unknown w).
  set (um := OutUser _). set (w1 := with_self _ w).
  destruct (transport_Send_spec um w1) as ((t & q & Hf) & Ho).
  rewrite Hf, (Ho _ sent session_level_sent).
  split; [| done]. reflexivity.
Qed.

Lemma Send_connected env uuid message w :
  connected (self w) = true ->
  let r := Send env uuid message w in
  let r' := Send_rest uuid message w in
  result r = Returned (result r') /\ final r = final r'
  /\ output r = output r'.
Proof.
  intros Hc. cbn zeta. unfold Send, bind at 1 2, field at 1, gets.
  cbn -[Connect]. rewrite Hc. cbn -[Connect]. by rewrite app_nil_r.
Qed.

Lemma Send_unconnected env uuid message w :
  connected (self w) = false ->
  let rc := Connect env w in
  let r := Send env uuid message w in
  match result rc with
  | Returned None =>
      let r' := Send_rest uuid message (final rc) in
      result r = Returned (result r') /\ final r = final r'
      /\ output r = output rc ++ output r'
  | _ => result r = result rc /\ final r = final rc /\ output r = output rc
  end.
Proof.
  intros Hc. cbn zeta. unfold Send, bind at 1 2, field at 1, gets.
  cbn -[Connect]. rewrite Hc. cbn -[Connect].
  destruct (Connect env w) as [[[[e|]|] w1] out]; cbn; by rewrite ?app_nil_r.
Qed.

(** C9. [Send] on a session that is not connected runs [Connect] first.
    If [Connect] returns an error, [Send] returns that error and does
    nothing more (and it stays blocked while [Connect] is). If [Connect]
    succeeds, [Send] sets the state to Processing and hands the transport
    one more message: a User envelope whose [session_id] is the identity
    the session has at that point, or "unknown" when that is empty; the
    result of [Send] is the result of that call of the transport. *)
Theorem C9_send_connects_first (w : World) (env : ConnectEnv)
    (uuid message : string) :
  connected (self w) = false ->
  let rc := Connect env w in
  let r := Send env uuid message w in
  match result rc with
  | Returned (Some err) =>
      result r = Returned (Some err) /\ final r = final rc
      /\ output r = output rc
  | Blocked => result r = Blocked /\ final r = final rc /\ output r = output rc
  | Returned None =>
      let id := sessionID (self (final rc)) in
      let um :=
        OutUser {| user_Type := MessageTypeUser;
                   user_UUID := uuid;
                   user_SessionID := if decide (id = "") then "unknown" else id;
                   user_Role := RoleUser;
                   user_Content := message;
                   user_ParentToolUseID := None |} in
      state (self (final r)) = SessionStateProcessing
      /\ sends (output r) = sends (output rc) ++ [um]
      /\ result r
         = Returned (result (Transport.Send um (transport (self (final rc)))))
  end.
Proof.
  intros Hc. cbn zeta.
  pose proof (Send_unconnected env uuid message w Hc) as H. cbn zeta in H.
  destruct (result (Connect env w)) as [[e|]|]; try done.
  destruct H as (Hr & Hf & Ho).
  destruct (Send_rest_spec uuid message (final (Connect env w)))
    as (Sr & Ss & _ & _ & So).
  rewrite Hr, Hf, Ho, sends_app, So, Sr. done.
Qed.

Lemma C9_send_connects_first_witness :
  let w := new_world in
  let env := ready_env in
  let rc := Connect env w in
  let r := Send env "uuid-1" "hello" w in
  let id := sessionID (self (final rc)) in
  let um :=
    OutUser {| user_Type := MessageTypeUser;
               user_UUID := "uuid-1";
               user_SessionID := if decide (id = "") then "unknown" else id;
               user_Role := RoleUser;
               user_Content := "hello";
               user_ParentToolUseID := None |} in
  connected (self w) = false
  /\ result rc = Returned None
  /\ id = ""
  /\ state (self (final r)) = SessionStateProcessing
  /\ sends (output r) = sends (output rc) ++ [um]
  /\ result r
     = Returned (result (Transport.Send um (transport (self (final rc))))).
Proof.
  cbn zeta.
  assert (connected (self new_world) = false) as H0 by (vm_compute; reflexivity).
  assert (result (Connect ready_env new_world) = Returned None) as Hrc
    by (vm_compute; reflexivity).
  assert (sessionID (self (final (Connect ready_env new_world))) = "") as Hid
    by (vm_compute; reflexivity).
  pose proof (C9_send_connects_first new_world ready_env "uuid-1" "hello" H0)
    as H.
  cbn zeta in H. rewrite Hrc in H. cbv beta iota in H.
  split; [exact H0 | split; [exact Hrc | split; [exact Hid | exact H]]].
Defined.

Lemma transport_Send_healthy msg w :
  Marshal_ok msg = true ->
  Transport.status (transport (self w)) <> Transport.StatusConnecting ->
  healthy (transport (self w)) ->
  result (transport_Send msg w) = None
  /\ output (transport_Send msg w)
     = [Transport_Send msg; Wire (Transport.Written msg)].
Proof.
  intros Hm Hst Ht.
  destruct (Send_healthy msg _ Hm Hst Ht) as (Hr & Ho).
  unfold transport_Send, onTransport.
  rewrite ?result_bind, ?output_bind, ?final_bind.
  cbn [emit field gets update modify ret fst snd app].
  rewrite ?result_bind, ?output_bind, ?final_bind.
  cbn [emit field gets update modify ret fst snd app].
  rewrite Hr, Ho. split; reflexivity.
Qed.

(** C10. [Send] on a connected session in state Completed: its result
    is the result of the transport's [Send] on the User envelope, whatever
    the state of the session was; the state is then Processing; one message
    is handed to the transport, the User envelope; and when the transport
    has a connection on which writes do not fail, [Send] returns no error
    and the envelope is written to the socket. *)
Theorem C10_send_after_completed (w : World) (env : ConnectEnv)
    (uuid message : string) :
  connected (self w) = true ->
  state (self w) = SessionStateCompleted ->
  let r := Send env uuid message w in
  let id := sessionID (self w) in
  let um :=
    OutUser {| user_Type := MessageTypeUser;
               user_UUID := uuid;
               user_SessionID := if decide (id = "") then "unknown" else id;
               user_Role := RoleUser;
               user_Content := message;
               user_ParentToolUseID := None |} in
  result r = Returned (result (Transport.Send um (transport (self w))))
  /\ (forall st,
        result (Send env uuid message (with_self (set_state st) w)) = result r)
  /\ state (self (final r)) = SessionStateProcessing
  /\ sends (output r) = [um]
  /\ (Transport.status (transport (self w)) <> Transport.StatusConnecting ->
      healthy (transport (self w)) ->
      result r = Returned None
      /\ output r = [Transport_Send um; Wire (Transport.Written um)]).
Proof.
  intros Hc Hst. cbn zeta.
  destruct (Send_connected env uuid message w Hc) as (Hr & Hf & Ho).
  destruct (Send_rest_spec uuid message w) as (Sr & Ss & _ & _ & So).
  rewrite Hr, Hf, Ho, Sr.
  split; [done | split; [| split; [done | split; [done |]]]].
  - intros st.
    destruct (Send_connected env uuid message (with_self (set_state st) w) Hc)
      as (-> & _ & _).
    by destruct (Send_rest_spec uuid message (with_self (set_state st) w))
      as (-> & _).
  - intros Hs Ht.
    destruct (Send_healthy (OutUser (userMessage uuid (identity_or_unknown w)
                                       message)) _ eq_refl Hs Ht) as (Hres & _).
    split; [by rewrite <- Hres |].
    change (output (Send_rest uuid message w))
      with (output (transport_Send
                      (OutUser (userMessage uuid (identity_or_unknown w) message))
                      (with_self (set_state SessionStateProcessing) w))).
    by destruct (transport_Send_healthy
                   (OutUser (userMessage uuid (identity_or_unknown w) message))
                   (with_self (set_state SessionStateProcessing) w)
                   eq_refl Hs Ht) as (_ & ->).
Qed.

(** A session on which a [Stream] call has forwarded a Result envelope:
    created, connected on a Control "ready", one Result received and
    taken by the consumer of the stream. *)
Definition completed_world : World :=
  let w := final (Stream (final (Connect ready_env
             (CreateSession None 0 (NewClient DefaultClientOptions))))) in
  let m := {| res_Subtype := "success"; res_UUID := "u3"; res_SessionID := "s";
              res_IsError := false; res_NumTurns := 1; res_Result := "4" |} in
  final (round 0 (final (step (Recv (Result m) false) w))).

Lemma C10_send_after_completed_witness :
  let w := completed_world in
  let r := Send ready_env "uuid-2" "and 3 + 3?" w in
  let um := OutUser {| user_Type := MessageTypeUser; user_UUID := "uuid-2";
                       user_SessionID :=
                         if decide (sessionID (self w) = "") then "unknown"
                         else sessionID (self w);
                       user_Role := RoleUser;
                       user_Content := "and 3 + 3?";
                       user_ParentToolUseID := None |} in
  connected (self w) = true
  /\ state (self w) = SessionStateCompleted
  /\ sessionID (self w) = ""
  /\ state (self (final r)) = SessionStateProcessing
  /\ sends (output r) = [um]
  /\ result r = Returned None
  /\ output r = [Transport_Send um; Wire (Transport.Written um)].
Proof.
  cbn zeta.
  assert (connected (self completed_world) = true) as H1
    by (vm_compute; reflexivity).
  assert (state (self completed_world) = SessionStateCompleted) as H2
    by (vm_compute; reflexivity).
  assert (sessionID (self completed_world) = "") as H3
    by (vm_compute; reflexivity).
  assert (Transport.status (transport (self completed_world))
          <> Transport.StatusConnecting) as H4
    by (vm_compute; discriminate).
  assert (healthy (transport (self completed_world))) as H5.
  { exists {| Transport.faults := [] |}.
    split; [vm_compute; reflexivity | constructor]. }
  destruct (C10_send_after_completed completed_world ready_env
              "uuid-2" "and 3 + 3?" H1 H2)
    as (_ & _ & H6 & H7 & H8).
  destruct (H8 H4 H5) as (H9 & H10).
  split; [exact H1 | split; [exact H2 | split; [exact H3 |]]].
  split; [exact H6 | split; [exact H7 | split; [exact H9 | exact H10]]].
Defined.

(** ** The handshake on a Control "ready", and a late System/init *)

Lemma handleMessage_connected_identity msg pc w :
  connected (self w) = true ->
  sessionID (self (final (handleMessage msg pc w))) = sessionID (self w).
Proof.
  intros Hc. unfold handleMessage, bind, field, gets.
  cbn -[forward handleToolCall]. rewrite Hc. cbn -[forward handleToolCall].
  destruct msg; try (by rewrite (forward_self sessionID)).
  cbn -[handleToolCall].
  destruct (id_handleToolCall (fun _ => False) p w) as [H|[]]. exact H.
Qed.

(** C1, on the code. A new session; [Connect] is called, a Control
    "ready" arrives while it waits, and it returns without error, the
    session Ready and connected. A System/init message with [session_id]
    "sess-42" arrives afterwards: it is put on [msgCh], but the session
    identity is still the empty string. *)
Theorem C1_late_init_leaves_identity_empty :
  let w0 := CreateSession None 0 (NewClient DefaultClientOptions) in
  let rc := Connect ready_env w0 in
  let init := System {| sys_Subtype := SystemSubtypeInit; sys_UUID := "u0";
                        sys_SessionID := "sess-42"; sys_Data := JNull |} in
  let r := step (Recv init false) (final rc) in
  result rc = Returned None
  /\ state (self (final rc)) = SessionStateReady
  /\ connected (self (final rc)) = true
  /\ msgCh (self (final r)) = [init]
  /\ sessionID (self (final r)) = ""
  /\ sessionID (self (final r)) <> "sess-42".
Proof.
  cbn zeta. repeat split; try (vm_compute; reflexivity).
  vm_compute. discriminate.
Qed.

(** The same message arriving while [Connect] still waits does assign the
    identity. *)
Example init_during_handshake_assigns_identity :
  let w0 := CreateSession None 0 (NewClient DefaultClientOptions) in
  let init := System {| sys_Subtype := SystemSubtypeInit; sys_UUID := "u0";
                        sys_SessionID := "sess-42"; sys_Data := JNull |} in
  let env := {| dial := Transport.Dialed {| Transport.faults := [] |};
                timeout_first := false;
                during := [Recv init false];
                wake := ReadyCh |} in
  result (Connect env w0) = Returned None
  /\ sessionID (self (final (Connect env w0))) = "sess-42"
  /\ msgCh (self (final (Connect env w0))) = [init].
Proof. cbn zeta. repeat split; vm_compute; reflexivity. Qed.

(** ** The registry of the client *)

(** [Close] deletes the key that is the identity of the session at that
    time, and no other. *)
Lemma Close_registry (w : World) :
  closeOnce (self w) = false ->
  sessions (client (final (Close w)))
  = delete (sessionID (self w)) (sessions (client w)).
Proof.
  intros H. destruct (Close_first w H) as (_ & -> & _).
  by destruct (Close_body_spec w) as (t & q & -> & _).
Qed.

(** C2, on the code. A new session at address 0 is registered under the
    key "" (its identity at creation). A System/init message assigns it
    the identity "sess-42" during the handshake. [Close] then deletes the
    key "sess-42": the registry still holds the session under "". *)
Theorem C2_close_leaves_session_registered :
  let c := NewClient DefaultClientOptions in
  let w0 := CreateSession None 0 c in
  let init := System {| sys_Subtype := SystemSubtypeInit; sys_UUID := "u0";
                        sys_SessionID := "sess-42"; sys_Data := JNull |} in
  let env := {| dial := Transport.Dialed {| Transport.faults := [] |};
                timeout_first := false;
                during := [Recv init false];
                wake := ReadyCh |} in
  let w1 := final (Connect env w0) in
  let w2 := final (Close w1) in
  sessions (client w0) !! "" = Some (ptr w0)
  /\ sessionID (self w1) = "sess-42"
  /\ closeOnce (self w2) = true
  /\ sessions (client w2) !! "" = Some (ptr w0)
  /\ exists key, sessions (client w2) !! key = Some (ptr w2).
Proof.
  cbn zeta. repeat split; try (vm_compute; reflexivity).
  exists "". vm_compute. reflexivity.
Qed.

(** Without an identity assigned, [Close] does remove the entry. *)
Example close_without_identity_unregisters :
  let w0 := CreateSession None 0 (NewClient DefaultClientOptions) in
  sessions (client (final (Close w0))) = ∅.
Proof. vm_compute. reflexivity. Qed.

(** * Further properties of the code *)

(** ** More on the transport *)

Lemma sendAll_reliable msgs :
  forall t,
    Transport.status t <> Transport.StatusConnecting ->
    healthy t ->
    let r := sendAll msgs t in
    result r = map sendResult msgs
    /\ writes (output r) = List.filter Marshal_ok msgs
    /\ reports (output r) = []
    /\ Transport.msgQueue (final r) = Transport.msgQueue t
    /\ healthy (final r).
Proof.
  induction msgs as [|msg msgs IH]; intros t Hst Ht; cbn zeta; [done |].
  cbn [sendAll map List.filter].
  rewrite !result_bind, !final_bind, !output_bind.
  assert (Transport.Send msg t = Transport.sendImmediate msg t) as ->.
  { destruct Ht as (c & Hc & _). unfold Transport.Send, bind, gets.
    cbn [fst snd]. rewrite Hc, bool_decide_eq_false_2 by done.
    cbn [orb bool_decide]. rewrite bool_decide_eq_false_2 by done.
    cbn [app]. by destruct (Transport.sendImmediate msg t) as [[? ?] ?]. }
  destruct (sendImmediate_reliable msg t Ht)
    as (Hr & Hw & Hrep & Ht' & _ & Hq & Hst').
  destruct (IH (final (Transport.sendImmediate msg t)))
    as (Ir & Iw & Irep & Iq & It); [congruence | done |].
  cbn [ret fst snd]. unfold writes, reports in *.
  rewrite !omap_app, Hr, Ir, Hw, Iw, Hrep, Irep, Iq, Hq.
  cbn [omap app]. rewrite app_nil_r.
  split; [done |]. split; [by destruct (Marshal_ok msg) |]. done.
Qed.

(** X1. On a transport that is connected, with a socket on which writes
    do not fail, calls of [Send] write their messages in the order of the
    calls. A message that [json.Marshal] rejects gets a ProtocolError
    that wraps the error of [json.Marshal], and is left out; it does not
    stop the later ones. Nothing is queued and nothing goes to the error
    callback. *)
Theorem Send_in_order (t : Transport.WebSocketTransport)
    (msgs : list OutgoingMessage) :
  Transport.status t <> Transport.StatusConnecting ->
  healthy t ->
  let r := sendAll msgs t in
  result r = map sendResult msgs
  /\ writes (output r) = List.filter Marshal_ok msgs
  /\ reports (output r) = []
  /\ Transport.msgQueue (final r) = Transport.msgQueue t.
Proof.
  intros Hst Ht. cbn zeta.
  destruct (sendAll_reliable msgs t Hst Ht) as (? & ? & ? & ? & _). done.
Qed.

(** Some values to run the code on. *)
Definition a_transport : Transport.WebSocketTransport :=
  Transport.NewWebSocketTransport
    {| Transport.opt_BaseURL := "wss://conjure.chucky.cloud/ws";
       Transport.opt_Token := "tok"; Transport.opt_Timeout := 0;
       Transport.opt_KeepAliveInterval := 0;
       Transport.opt_Debug := false |}.

Definition a_socket : Transport.Conn := {| Transport.faults := [] |}.

Definition a_ping (n : Z) : OutgoingMessage :=
  OutPing {| ping_Type := MessageTypePing; ping_Timestamp := n |}.

(** A message that [json.Marshal] rejects: its data is a channel. *)
Definition a_channel : OutgoingMessage :=
  OutControl {| control_Type := MessageTypeControl;
                control_Payload :=
                  {| Action := "note";
                     Data := JOpaque "json: unsupported type: chan int" |} |}.

Lemma Send_in_order_witness :
  let t := final (Transport.Connect (Transport.Dialed a_socket) a_transport) in
  let r := sendAll [a_ping 1; a_channel; a_ping 2] t in
  Transport.status t <> Transport.StatusConnecting
  /\ healthy t
  /\ result r
     = [None;
        Some (Chucky (Wrap (ProtocolError "failed to marshal message")
                           "json: unsupported type: chan int"));
        None]
  /\ writes (output r) = [a_ping 1; a_ping 2]
  /\ reports (output r) = [].
Proof.
  cbn zeta.
  assert (Transport.status
            (final (Transport.Connect (Transport.Dialed a_socket) a_transport))
          <> Transport.StatusConnecting) as H1 by (vm_compute; discriminate).
  assert (healthy
            (final (Transport.Connect (Transport.Dialed a_socket) a_transport)))
    as H2 by (exists a_socket; split; [reflexivity | constructor]).
  split; [exact H1 |]. split; [exact H2 |].
  destruct (Send_in_order _ [a_ping 1; a_channel; a_ping 2] H1 H2)
    as (Hres & Hw & Hr & _).
  split; [exact Hres |]. split; [exact Hw | exact Hr].
Defined.

(** X2. A message queued by [Send] while the transport is not connected
    is accepted without an error even if [json.Marshal] rejects it. When
    [Connect] then succeeds on a socket whose writes do not fail, the
    flush writes the queued messages that marshal, in order, and drops
    the others: for each of them the ProtocolError that wraps the error
    of [json.Marshal] goes to the [OnError] callback if there is one, and
    nowhere else. *)
Theorem flush_drops_unmarshalable (t : Transport.WebSocketTransport)
    (msgs : list OutgoingMessage) (c : Transport.Conn) :
  not_connected t ->
  reliable c ->
  let r := sendAll msgs t in
  let queue := Transport.msgQueue t ++ msgs in
  let r' := Transport.Connect (Transport.Dialed c) (final r) in
  result r = map (fun _ => None) msgs
  /\ result r' = None
  /\ writes (output r') = List.filter Marshal_ok queue
  /\ reports (output r') = flushReports (Transport.handlers t) queue
  /\ Transport.msgQueue (final r') = [].
Proof.
  intros H Hc. cbn zeta.
  destruct (sendAll_queued msgs t H) as (Hres & Hfin & _).
  rewrite Hres, Hfin.
  set (t' := Transport.set_msgQueue (Transport.msgQueue t ++ msgs) t).
  destruct (Connect_Dialed c t') as (Cres & Cfin & Cw & Cr).
  rewrite Cres, Cfin, Cw, Cr.
  destruct (flush_reliable (Transport.msgQueue t') (dialed c t'))
    as (Fw & Fr & _ & Fq); [by exists c |].
  change (Transport.msgQueue t') with (Transport.msgQueue t ++ msgs) in *.
  by rewrite Fw, Fr, Fq.
Qed.

(** A transport with all its callbacks set, as a session sets them. *)
Definition a_listening_transport : Transport.WebSocketTransport :=
  Transport.set_handlers
    {| Transport.OnMessage := true; Transport.OnClose := true;
       Transport.OnStatusChange := true; Transport.OnError := true |}
    a_transport.

Lemma flush_drops_unmarshalable_witness :
  let r := sendAll [a_ping 1; a_channel; a_ping 2] a_listening_transport in
  let r' := Transport.Connect (Transport.Dialed a_socket) (final r) in
  not_connected a_listening_transport
  /\ reliable a_socket
  /\ result r = [None; None; None]
  /\ writes (output r') = [a_ping 1; a_ping 2]
  /\ reports (output r')
     = [Chucky (Wrap (ProtocolError "failed to marshal message")
                     "json: unsupported type: chan int")]
  /\ Transport.msgQueue (final r') = [].
Proof.
  cbn zeta.
  assert (not_connected a_listening_transport) as H1 by (right; reflexivity).
  assert (reliable a_socket) as H2 by constructor.
  split; [exact H1 |]. split; [exact H2 |].
  destruct (flush_drops_unmarshalable a_listening_transport
              [a_ping 1; a_channel; a_ping 2] a_socket H1 H2)
    as (Hr & _ & Hw & Hrep & Hq).
  split; [exact Hr |]. split; [exact Hw |]. split; [exact Hrep | exact Hq].
Defined.

(** The encoder rejects an init envelope whose budget is infinite (the
    bits 7FF0000000000000): the init message is not written, and
    [Connect] returns the ProtocolError that wraps the error of
    [json.Marshal]. *)
Example Connect_rejects_infinite_budget :
  let opts :=
    {| Model := ""; FallbackModel := ""; SystemPrompt := JNull; MaxTurns := 0;
       MaxBudgetUsd := 9218868437227405312; MaxThinkingTokens := 0;
       Tools := JNull; McpServers := []; PermissionMode := "";
       Format := None; IncludePartialMessages := false; Env := [];
       SessionID := ""; ForkSession := false; ResumeSessionAt := "";
       Continue := false |} in
  let r := Connect ready_env
             (CreateSession (Some opts) 0 (NewClient DefaultClientOptions)) in
  result r
  = Returned
      (Some (Chucky (Wrap (ProtocolError "failed to marshal message")
                          "json: unsupported value: +Inf")))
  /\ state (self (final r)) = SessionStateError
  /\ connected (self (final r)) = false
  /\ omap wire_written (output r) = [].
Proof. cbn zeta. repeat split; vm_compute; reflexivity. Qed.

Lemma setStatus_output st t :
  output (Transport.setStatus st t)
  = (if bool_decide (Transport.status t <> st)
        && Transport.OnStatusChange (Transport.handlers t)
     then [Transport.Call_OnStatusChange st] else []).
Proof.
  unfold Transport.setStatus, bind, gets, modify, when.
  cbn [fst snd app Transport.set_status Transport.handlers].
  by destruct (_ && _).
Qed.

(** What [Disconnect] writes for the connection it drops: the close
    frame, if that write goes through, and the close of the socket. *)
Definition hangup (c : option Transport.Conn) : list Transport.Out :=
  match c with
  | Some c =>
      (if bool_decide (fst (Transport.WriteMessage c) = None)
       then [Transport.CloseFrame] else [])
      ++ [Transport.ConnClosed]
  | None => []
  end.

Lemma Disconnect_spec t :
  let r := Transport.Disconnect t in
  let t1 := Transport.set_status Transport.StatusDisconnected
              (Transport.set_conn None (Transport.set_closed t)) in
  result r = None
  /\ final r = t1
  /\ output r
     = hangup (Transport.conn t)
       ++ (if bool_decide (Transport.status t <> Transport.StatusDisconnected)
              && Transport.OnStatusChange (Transport.handlers t)
           then [Transport.Call_OnStatusChange Transport.StatusDisconnected]
           else []).
Proof.
  cbn zeta. unfold Transport.Disconnect.
  rewrite !result_bind, !final_bind, !output_bind.
  cbn [modify gets ret fst snd app Transport.conn Transport.set_closed].
  set (t0 := Transport.set_conn None (Transport.set_closed t)).
  assert (forall (m : Transport.T unit),
            final (m t0) = t0 ->
            final (Transport.setStatus Transport.StatusDisconnected
                     (final (m t0)))
            = Transport.set_status Transport.StatusDisconnected t0
            /\ output (Transport.setStatus Transport.StatusDisconnected
                         (final (m t0)))
               = (if bool_decide (Transport.status t
                                  <> Transport.StatusDisconnected)
                     && Transport.OnStatusChange (Transport.handlers t)
                  then [Transport.Call_OnStatusChange
                          Transport.StatusDisconnected]
                  else [])) as Hlast.
  { intros m ->. split; [apply setStatus_spec |].
    exact (setStatus_output Transport.StatusDisconnected t0). }
  destruct (Transport.conn t) as [c|]; unfold hangup.
  - destruct (Hlast (when (bool_decide (fst (Transport.WriteMessage c) = None))
                          (emit Transport.CloseFrame) ;;
                     emit Transport.ConnClosed)) as (-> & ->).
    { destruct (bool_decide (fst (Transport.WriteMessage c) = None)); reflexivity. }
    split; [done | split; [done |]].
    rewrite app_nil_r.
    destruct (bool_decide (fst (Transport.WriteMessage c) = None));
      reflexivity.
  - destruct (Hlast (ret tt) eq_refl) as (-> & ->). rewrite app_nil_r.
    split; [reflexivity | split; reflexivity].
Qed.

(** X3. [Disconnect] leaves the transport without a connection, with
    status Disconnected and [closeCh] closed, and keeps the queue. A
    second [Disconnect] does nothing: it writes no frame, calls no
    callback and leaves the transport as it is. *)
Theorem Disconnect_twice (t : Transport.WebSocketTransport) :
  let t1 := final (Transport.Disconnect t) in
  let r := Transport.Disconnect t1 in
  Transport.conn t1 = None
  /\ Transport.status t1 = Transport.StatusDisconnected
  /\ Transport.closeCh t1 = true
  /\ Transport.msgQueue t1 = Transport.msgQueue t
  /\ result r = None /\ final r = t1 /\ output r = [].
Proof.
  cbn zeta. destruct (Disconnect_spec t) as (_ & -> & _).
  set (t1 := Transport.set_status _ _).
  destruct (Disconnect_spec t1) as (-> & -> & ->).
  split; [done | split; [done | split; [done | split; [done |]]]].
  split; [done |]. split; [by destruct t |].
  subst t1. cbn [Transport.conn Transport.status Transport.set_status hangup].
  rewrite bool_decide_eq_false_2 by (by intros []). done.
Qed.

(** X4. After [Disconnect], [Send] returns no error and writes nothing,
    however often it is called: the messages pile up in the queue. *)
Theorem Send_after_Disconnect (t : Transport.WebSocketTransport)
    (msgs : list OutgoingMessage) :
  let t1 := final (Transport.Disconnect t) in
  let r := sendAll msgs t1 in
  result r = map (fun _ => None) msgs
  /\ output r = []
  /\ Transport.msgQueue (final r) = Transport.msgQueue t ++ msgs
  /\ Transport.conn (final r) = None.
Proof.
  cbn zeta. destruct (Disconnect_spec t) as (_ & -> & _).
  set (t1 := Transport.set_status _ _).
  destruct (sendAll_queued msgs t1) as (-> & -> & ->); [by right |]. done.
Qed.

Lemma flush_readyCh q :
  forall t,
    Transport.readyCh (final (forEach q flushOne t)) = Transport.readyCh t.
Proof.
  induction q as [|msg q IH]; intros t; [done |].
  cbn [forEach]. rewrite final_bind, IH.
  unfold flushOne, Transport.sendImmediate.
  destruct (Marshal_error msg); cbn.
  { unfold bind, gets. cbn. by destruct (Transport.OnError _). }
  unfold bind, gets. cbn.
  destruct (Transport.conn t) as [c|]; cbn.
  2: { by destruct (Transport.OnError _). }
  destruct (Transport.WriteMessage c) as [[cause|] c']; cbn; [| done].
  by destruct (Transport.OnError _).
Qed.

(** X5. On a transport whose [readyCh] is not closed yet: after a
    [Connect] that fails on the URL or on the dial, the status is Error,
    the connection and the queue are what they were, and [WaitForReady]
    returns the timeout error; after a [Connect] that dials, the status is
    Connected and [WaitForReady] returns no error unless its timer fires
    first. *)
Theorem WaitForReady_after_Connect (t : Transport.WebSocketTransport)
    (d : Transport.DialOutcome) (timeout_first : bool) :
  Transport.readyCh t = false ->
  let rc := Transport.Connect d t in
  let rw := Transport.WaitForReady timeout_first (final rc) in
  let timeout := Some (Chucky (TimeoutError "connection timeout")) in
  match d with
  | Transport.Dialed c =>
      result rc = None
      /\ Transport.status (final rc) = Transport.StatusConnected
      /\ result rw = (if timeout_first then timeout else None)
  | Transport.BadURL cause =>
      result rc = Some (Chucky (Wrap (ConnectionError "invalid URL") cause))
      /\ Transport.status (final rc) = Transport.StatusError
      /\ Transport.conn (final rc) = Transport.conn t
      /\ Transport.msgQueue (final rc) = Transport.msgQueue t
      /\ result rw = timeout
  | Transport.DialFailed cause =>
      result rc
      = Some (Chucky (Wrap (ConnectionError "failed to connect") cause))
      /\ Transport.status (final rc) = Transport.StatusError
      /\ Transport.conn (final rc) = Transport.conn t
      /\ Transport.msgQueue (final rc) = Transport.msgQueue t
      /\ result rw = timeout
  end.
Proof.
  intros Hr. cbn zeta. destruct d as [cause | cause | c].
  - unfold Transport.Connect, Transport.WaitForReady.
    rewrite !result_bind, !final_bind.
    destruct (setStatus_spec Transport.StatusConnecting t) as (-> & _).
    destruct (setStatus_spec Transport.StatusError
                (Transport.set_status Transport.StatusConnecting t))
      as (-> & _).
    cbn [ret gets fst snd Transport.set_status Transport.readyCh
         Transport.status Transport.conn Transport.msgQueue].
    rewrite Hr. done.
  - unfold Transport.Connect, Transport.WaitForReady.
    rewrite !result_bind, !final_bind.
    destruct (setStatus_spec Transport.StatusConnecting t) as (-> & _).
    destruct (setStatus_spec Transport.StatusError
                (Transport.set_status Transport.StatusConnecting t))
      as (-> & _).
    cbn [ret gets fst snd Transport.set_status Transport.readyCh
         Transport.status Transport.conn Transport.msgQueue].
    rewrite Hr. done.
  - destruct (Connect_Dialed c t) as (-> & -> & _).
    destruct (flush_loop (Transport.msgQueue t) (dialed c t))
      as (_ & _ & _ & _ & Hst & _).
    split; [done |]. split; [by rewrite Hst |].
    unfold Transport.WaitForReady. rewrite result_bind.
    cbn [gets fst snd].
    rewrite (flush_readyCh (Transport.msgQueue t) (dialed c t)).
    cbn. by destruct timeout_first.
Qed.

Lemma WaitForReady_after_Connect_witness :
  let rc := Transport.Connect (Transport.DialFailed "refused") a_transport in
  Transport.readyCh a_transport = false
  /\ Transport.status (final rc) = Transport.StatusError
  /\ result (Transport.WaitForReady false (final rc))
     = Some (Chucky (TimeoutError "connection timeout")).
Proof.
  cbn zeta.
  assert (Transport.readyCh a_transport = false) as H1 by reflexivity.
  split; [exact H1 |].
  destruct (WaitForReady_after_Connect a_transport
              (Transport.DialFailed "refused") false H1)
    as (_ & Hs & _ & _ & Hw).
  split; [exact Hs | exact Hw].
Defined.

(** ** More on the session *)

(** The [OnMessage] callback of the session, when there is one. *)
Definition callback (w : World) (msg : IncomingMessage) : list Obs :=
  if OnMessage (handlers (self w)) then [Call_OnMessage msg] else [].

(** The end of [handleMessage] in full: the [select] blocks when
    [msgCh] is full and the session is open; it sends when there is room,
    unless the session is closed and that branch is taken; then comes the
    callback. *)
Lemma forward_spec msg pc w :
  let r := forward msg pc w in
  let sent := has_room w && negb (closeCh (self w) && pc) in
  result r = has_room w || closeCh (self w)
  /\ final r = (if sent
                then with_self (set_msgCh (msgCh (self w) ++ [msg])) w
                else w)
  /\ output r = (if has_room w || closeCh (self w) then callback w msg
                 else []).
Proof.
  cbn zeta. unfold forward, bind, field, gets, update, modify, callback.
  cbn [fst snd]. fold (has_room w).
  destruct (has_room w), (closeCh (self w)), pc;
    cbn [negb andb orb when ret fst snd app with_self self handlers set_msgCh];
    try done;
    match goal with |- context [OnMessage ?h] => by destruct (OnMessage h) end.
Qed.

(** [handleMessage] in full, for what it leaves on [msgCh] and whether it
    returns. *)
Lemma handleMessage_spec msg pc w :
  let r := handleMessage msg pc w in
  let fw := forwarded (connected (self w)) msg in
  let sent := fw && has_room w && negb (closeCh (self w) && pc) in
  let q := msgCh (self w) ++ (if sent then [msg] else []) in
  result r = negb fw || has_room w || closeCh (self w)
  /\ surroundings (final r) = surroundings (with_self (set_msgCh q) w).
Proof.
  cbn zeta.
  pose proof (readySignals_surroundings msg w) as Hs.
  pose proof (readySignals_result msg w) as Hres.
  unfold handleMessage, bind, field, gets.
  cbn -[readySignals forward handleToolCall forwarded has_room].
  assert (forall (w1 : World) m,
            surroundings w1 = surroundings w ->
            result (forward m pc w1) = has_room w || closeCh (self w)
            /\ surroundings (final (forward m pc w1))
               = surroundings
                   (with_self
                      (set_msgCh
                         (msgCh (self w)
                          ++ (if has_room w && negb (closeCh (self w) && pc)
                              then [m] else []))) w))
    as Hpush.
  { intros w1 m H1.
    pose proof (surroundings_inv _ _ H1) as (Hq1 & Hc1 & _).
    destruct (forward_spec m pc w1) as (Hr & Hf & _). rewrite Hr, Hf, Hc1.
    replace (has_room w1) with (has_room w)
      by (unfold has_room; by rewrite Hq1).
    split; [done |].
    destruct (has_room w && negb (closeCh (self w) && pc)).
    - apply surroundings_push; [done | by rewrite Hq1].
    - by rewrite H1, surroundings_same. }
  assert (forall (w1 : World) call,
            surroundings w1 = surroundings w ->
            surroundings (final (handleToolCall call w1))
            = surroundings
                (with_self (set_msgCh (msgCh (self w) ++ [])) w)) as Htool.
  { intros w1 call H1.
    by rewrite handleToolCall_surroundings, H1, surroundings_same. }
  destruct (connected (self w)) eqn:Hconn;
    cbn -[readySignals forward handleToolCall forwarded has_room].
  - destruct msg; cbn -[forward handleToolCall has_room];
      try (by apply Hpush).
    split; [done |]. by apply Htool.
  - destruct Hres as [Hres | (call & ->)].
    + rewrite Hres.
      destruct (forwarded false msg) eqn:Hfw;
        cbn -[readySignals forward handleToolCall has_room].
      * destruct msg; try discriminate Hfw; by apply Hpush.
      * split; [done |]. by rewrite Hs, surroundings_same.
    + cbn -[handleToolCall has_room]. split; [done |]. by apply Htool.
Qed.

(** X6. Once the session is closed the read loop never blocks in
    [handleMessage]: the call returns for every message, also when
    [msgCh] is full, and the read loop is not left waiting. A message
    that finds [msgCh] full is dropped; with room left it is queued or
    dropped, as the [select] chooses. *)
Theorem closed_session_never_blocks (w : World) (msg : IncomingMessage)
    (pc : bool) :
  closeCh (self w) = true ->
  parked w = None ->
  let r := handleMessage msg pc w in
  let w' := final (step (Recv msg pc) w) in
  result r = true
  /\ parked w' = None
  /\ (has_room w = false \/ pc = true ->
      msgCh (self (final r)) = msgCh (self w))
  /\ (has_room w = true -> pc = false ->
      msgCh (self (final r))
      = msgCh (self w)
        ++ (if forwarded (connected (self w)) msg then [msg] else [])).
Proof.
  intros Hc Hp. cbn zeta.
  destruct (handleMessage_spec msg pc w) as (Hr & Hs).
  rewrite Hc, orb_true_r in Hr.
  apply surroundings_inv in Hs as (Hq & _ & _ & _ & Hp' & _).
  cbn [self with_self set_msgCh msgCh parked] in Hq, Hp'.
  rewrite Hc in Hq. cbn [andb] in Hq.
  split; [done |]. split.
  - cbn [step]. unfold readLoop_message, bind, field, gets.
    cbn -[handleMessage]. rewrite Hp.
    destruct (Transport.OnMessage _); [| done].
    cbn -[handleMessage]. rewrite Hr. cbn -[handleMessage]. congruence.
  - split.
    + intros [Hroom | ->]; rewrite Hq.
      * rewrite Hroom, andb_false_r. cbn. by rewrite app_nil_r.
      * rewrite andb_false_r. by rewrite app_nil_r.
    + intros Hroom ->. rewrite Hq, Hroom, !andb_true_r. done.
Qed.

Lemma closed_session_never_blocks_witness :
  let w := final (Close new_world) in
  let msg := Assistant "u1" "s" (JString "2 + 2") in
  closeCh (self w) = true
  /\ parked w = None
  /\ result (handleMessage msg false w) = true
  /\ parked (final (step (Recv msg false) w)) = None.
Proof.
  cbn zeta.
  assert (closeCh (self (final (Close new_world))) = true) as H1
    by (vm_compute; reflexivity).
  assert (parked (final (Close new_world)) = None) as H2
    by (vm_compute; reflexivity).
  split; [exact H1 |]. split; [exact H2 |].
  destruct (closed_session_never_blocks (final (Close new_world))
              (Assistant "u1" "s" (JString "2 + 2")) false H1 H2)
    as (Hr & Hp & _).
  split; [exact Hr | exact Hp].
Defined.

(** X7. A [Stream] goroutine that leaves through [ctx.Done()], or
    through [closeCh] once the session is closed, closes its channel and
    changes nothing else: the state is not set to Completed, and a
    message that it had taken from [msgCh] and not yet handed to its
    consumer is neither handed over nor put back. *)
Theorem stream_cancelled (w : World) (i : nat) (ev : StreamEv)
    (pc : StreamPC) :
  streams w !! i = Some pc ->
  pc <> Finished ->
  ev = Cancel \/ (ev = SeeClose /\ closeCh (self w) = true) ->
  let r := stream_step i ev w in
  output r = [Stream_closed i]
  /\ streams (final r) !! i = Some Finished
  /\ self (final r) = self w
  /\ parked (final r) = parked w.
Proof.
  intros Hi Hpc Hev. cbn zeta.
  assert (i < length (streams w))%nat as Hlt by (by eapply lookup_lt_Some).
  assert (stream_step i ev w = stream_return i w) as ->.
  { unfold stream_step, bind, field, gets. cbn [fst snd]. rewrite Hi.
    destruct Hev as [-> | [-> Hc]]; destruct pc; try done;
      rewrite ?Hc; cbn [when app];
      by destruct (stream_return i w) as [[[] ?] ?]. }
  unfold stream_return, set_pc, bind, gets, modify, emit.
  cbn [fst snd app set_streams streams self parked].
  by rewrite list_lookup_insert_eq.
Qed.

Lemma stream_cancelled_witness :
  let r := stream_step 0 Cancel streaming_world in
  streams streaming_world !! 0%nat = Some Receiving
  /\ output r = [Stream_closed 0]
  /\ streams (final r) !! 0%nat = Some Finished
  /\ self (final r) = self streaming_world.
Proof.
  cbn zeta.
  assert (streams streaming_world !! 0%nat = Some Receiving) as H1
    by (vm_compute; reflexivity).
  split; [exact H1 |].
  assert (Receiving <> Finished) as H2 by discriminate.
  destruct (stream_cancelled streaming_world 0 Cancel Receiving H1 H2
              (or_introl eq_refl))
    as (Ho & Hs & Hself & _).
  split; [exact Ho |]. split; [exact Hs | exact Hself].
Defined.

Lemma handleMessage_connected msg pc w :
  connected (self w) = true ->
  (forall call, msg <> ToolCall call) ->
  let r := handleMessage msg pc w in
  result r = result (forward msg pc w)
  /\ final r = final (forward msg pc w)
  /\ output r = output (forward msg pc w).
Proof.
  intros Hc Hmsg. cbn zeta. unfold handleMessage, bind, field, gets.
  cbn -[forward handleToolCall]. rewrite Hc. cbn -[forward handleToolCall].
  destruct msg; try done. by destruct (Hmsg p).
Qed.

(** X8. An Error envelope that arrives once the session is connected is
    only passed on: it is put on [msgCh] and given to the [OnMessage]
    callback like any other message. The state, [initErr] and [errCh] are
    unchanged and no error callback is called. *)
Theorem error_after_connect (w : World) (p : ErrorPayload) (pc : bool) :
  connected (self w) = true ->
  closeCh (self w) = false ->
  has_room w = true ->
  let r := handleMessage (ErrorEnv p) pc w in
  result r = true
  /\ final r = with_self (set_msgCh (msgCh (self w) ++ [ErrorEnv p])) w
  /\ output r = callback w (ErrorEnv p).
Proof.
  intros Hc Hopen Hroom. cbn zeta.
  destruct (handleMessage_connected (ErrorEnv p) pc w Hc ltac:(done))
    as (-> & -> & ->).
  destruct (forward_spec (ErrorEnv p) pc w) as (-> & -> & ->).
  by rewrite Hroom, Hopen.
Qed.

Lemma error_after_connect_witness :
  let w := final (Connect ready_env new_world) in
  let p := {| err_Message := "boom"; err_Code := "E1";
              err_Details := JNull |} in
  let r := handleMessage (ErrorEnv p) false w in
  connected (self w) = true
  /\ closeCh (self w) = false
  /\ has_room w = true
  /\ result r = true
  /\ final r = with_self (set_msgCh (msgCh (self w) ++ [ErrorEnv p])) w.
Proof.
  cbn zeta.
  assert (connected (self (final (Connect ready_env new_world))) = true)
    as H1 by (vm_compute; reflexivity).
  assert (closeCh (self (final (Connect ready_env new_world))) = false)
    as H2 by (vm_compute; reflexivity).
  assert (has_room (final (Connect ready_env new_world)) = true)
    as H3 by (vm_compute; reflexivity).
  split; [exact H1 |]. split; [exact H2 |]. split; [exact H3 |].
  destruct (error_after_connect (final (Connect ready_env new_world))
              {| err_Message := "boom"; err_Code := "E1";
                 err_Details := JNull |} false H1 H2 H3)
    as (Hr & Hf & _).
  split; [exact Hr | exact Hf].
Defined.

(** *** What the goroutines and the calls keep *)

(** A relation between worlds that every update of the session code
    respects, but for the ready signals of the messages outside [ok] and
    for what [Connect] and the caller set. *)
Section Upkeep.
Variable R : relation World.
Variable ok : IncomingMessage -> Prop.
Context `{!PreOrder R}.
Hypothesis R_state : forall st w, R w (with_self (set_state st) w).
Hypothesis R_errCh : forall q w, R w (with_self (set_errCh q) w).
Hypothesis R_transport : forall t w, R w (with_self (set_transport t) w).
Hypothesis R_msgCh : forall q w, R w (with_self (set_msgCh q) w).
Hypothesis R_closed : forall w, R w (with_self set_closed w).
Hypothesis R_client : forall f w, R w (with_client f w).
Hypothesis R_parked : forall p w, R w (set_parked p w).
Hypothesis R_streams : forall l w, R w (set_streams l w).
Hypothesis R_readySignals : forall msg, ok msg -> keeps R (readySignals msg).

Let TR : relation Transport.WebSocketTransport := fun _ _ => True.

Lemma up_setState st : keeps R (setState st).
Proof. apply keeps_modify. intros w. apply R_state. Qed.

Lemma up_handleError e : keeps R (handleError e).
Proof. by apply (keeps_handleError R). Qed.

Lemma up_onTransport {A} (m : Transport.T A) : keeps R (onTransport m).
Proof. by apply (keeps_onTransport R TR). Qed.

Lemma up_transport_Send msg : keeps R (transport_Send msg).
Proof. unfold transport_Send. repeat keeps_step. apply up_onTransport. Qed.

Lemma up_handleToolCall call : keeps R (handleToolCall call).
Proof. by apply (keeps_handleToolCall R TR). Qed.

Lemma up_forward msg pc : keeps R (forward msg pc).
Proof. unfold forward, field, update. repeat keeps_step. apply R_msgCh. Qed.

Lemma up_handleMessage msg pc : ok msg -> keeps R (handleMessage msg pc).
Proof.
  intros H. unfold handleMessage, field.
  repeat keeps_step; auto using up_forward, up_handleToolCall.
Qed.

Lemma up_removeSession id : keeps R (removeSession id).
Proof. unfold removeSession. repeat keeps_step. apply R_client. Qed.

Lemma up_Close : keeps R Close.
Proof.
  unfold Close, field, transport_Disconnect, update. repeat keeps_step;
    auto using up_transport_Send, up_onTransport, up_removeSession.
Qed.

Lemma up_set_pc i pc : keeps R (set_pc i pc).
Proof. unfold set_pc. repeat keeps_step. apply R_streams. Qed.

Lemma up_stream_return i : keeps R (stream_return i).
Proof. unfold stream_return. repeat keeps_step. apply up_set_pc. Qed.

Lemma up_stream_step i ev : keeps R (stream_step i ev).
Proof.
  unfold stream_step, field, update. repeat keeps_step;
    auto using up_stream_return, up_set_pc, up_setState.
Qed.

(** The events whose message, if any, is in [ok]. *)
Definition ok_event (a : Event) : Prop :=
  match a with
  | Recv msg _ => ok msg
  | _ => True
  end.

Lemma up_step a : ok_event a -> keeps R (step a).
Proof.
  intros H. destruct a; cbn [step].
  - unfold readLoop_message, field. repeat keeps_step;
      auto using up_handleMessage.
  - unfold readLoop_unpark. repeat keeps_step; auto using up_forward.
  - unfold readLoop_badFrame, field. repeat keeps_step.
    apply up_handleError.
  - unfold readLoop_error, field, handleClose. repeat keeps_step;
      auto using up_handleError, up_Close.
  - apply up_onTransport.
  - apply up_Close.
  - apply up_stream_step.
Qed.

Lemma up_run evs : Forall ok_event evs -> keeps R (run evs).
Proof.
  intros H. apply (keeps_forEach R). intros a Ha. apply up_step.
  rewrite Forall_forall in H. by apply H.
Qed.

(** The calls, for a relation that what [Connect] and the caller set
    respects too. *)
Hypothesis R_connected : forall w, R w (with_self (set_connected true) w).
Hypothesis R_handlers : forall h w, R w (with_self (set_handlers h) w).

Lemma up_failWith e : keeps R (failWith e).
Proof. unfold failWith. repeat keeps_step. apply up_setState. Qed.

Lemma up_Connect_select wk : keeps R (Connect_select wk).
Proof.
  unfold Connect_select, field, notifySessionStart, update.
  repeat keeps_step; auto using up_failWith, up_setState.
Qed.

Lemma up_Connect env : Forall ok_event (during env) -> keeps R (Connect env).
Proof.
  intros H. unfold Connect, sendInit, field. repeat keeps_step;
    auto using up_failWith, up_setState, up_onTransport,
      up_transport_Send, up_run, up_Connect_select.
Qed.

Lemma up_Send env uuid message :
  Forall ok_event (during env) -> keeps R (Send env uuid message).
Proof.
  intros H. unfold Send, field. repeat keeps_step;
    auto using up_setState, up_transport_Send, up_Connect.
Qed.

(** The calls and events whose messages are in [ok]. *)
Definition ok_op (o : Op) : Prop :=
  match o with
  | Concurrent a => ok_event a
  | CallConnect env | CallSend env _ _ => Forall ok_event (during env)
  | _ => True
  end.

Lemma up_exec o : ok_op o -> keeps R (exec o).
Proof.
  intros H. destruct o; cbn [exec].
  - by apply up_step.
  - repeat keeps_step. by apply up_Connect.
  - repeat keeps_step. by apply up_Send.
  - unfold Stream. repeat keeps_step. apply R_streams.
  - unfold On, update. keeps_step. apply R_handlers.
Qed.

Lemma up_execAll ops : Forall ok_op ops -> keeps R (execAll ops).
Proof.
  intros H. apply (keeps_forEach R). intros o Ho. apply up_exec.
  rewrite Forall_forall in H. by apply H.
Qed.
End Upkeep.

(** The flags of the session that are only ever set. *)
Definition raised : relation World :=
  fun w w' =>
    (connected (self w) = true -> connected (self w') = true)
    /\ (closeCh (self w) = true -> closeCh (self w') = true)
    /\ (closeOnce (self w) = true -> closeOnce (self w') = true)
    /\ (readyCh (self w) = true -> readyCh (self w') = true)
    /\ (readyOnce (self w) = true -> readyOnce (self w') = true).

#[local] Instance raised_preorder : PreOrder raised.
Proof.
  split.
  - by intros w.
  - intros w1 w2 w3 (?&?&?&?&?) (?&?&?&?&?). unfold raised. naive_solver.
Qed.

Lemma raised_with_self (f : Session -> Session) w :
  (forall s, connected (f s) = connected s \/ connected (f s) = true) ->
  (forall s, closeCh (f s) = closeCh s \/ closeCh (f s) = true) ->
  (forall s, closeOnce (f s) = closeOnce s \/ closeOnce (f s) = true) ->
  (forall s, readyCh (f s) = readyCh s \/ readyCh (f s) = true) ->
  (forall s, readyOnce (f s) = readyOnce s \/ readyOnce (f s) = true) ->
  raised w (with_self f w).
Proof.
  intros H1 H2 H3 H4 H5. unfold raised. cbn [with_self self].
  destruct (H1 (self w)), (H2 (self w)), (H3 (self w)), (H4 (self w)),
    (H5 (self w)); naive_solver congruence.
Qed.

Lemma raised_fire_ready w : raised w (with_self fire_ready w).
Proof.
  apply raised_with_self; intros s; unfold fire_ready;
    destruct (readyOnce s) eqn:E; cbn; auto.
Qed.

Lemma raised_readySignals msg : keeps raised (readySignals msg).
Proof.
  unfold readySignals, update. destruct msg; repeat keeps_step;
    try apply raised_fire_ready;
    apply raised_with_self; intros ?; by left.
Qed.

Lemma ok_event_any a : ok_event (fun _ => True) a.
Proof. by destruct a. Qed.

Lemma ok_op_any o : ok_op (fun _ => True) o.
Proof.
  destruct o; cbn [ok_op]; try done; try apply ok_event_any;
    apply Forall_forall; intros e _; apply ok_event_any.
Qed.

(** X9. The flags [connected], [closeCh] and [readyCh] of a session, and
    the two [sync.Once], are only ever set: whatever is called afterwards
    and whatever arrives, a session that is connected stays connected
    (also through [Close] and through errors), a closed session stays
    closed, and a ready signal that was seen stays seen. *)
Theorem flags_never_reset (w : World) (ops : list Op) :
  let w' := final (execAll ops w) in
  (connected (self w) = true -> connected (self w') = true)
  /\ (closeCh (self w) = true -> closeCh (self w') = true)
  /\ (closeOnce (self w) = true -> closeOnce (self w') = true)
  /\ (readyCh (self w) = true -> readyCh (self w') = true)
  /\ (readyOnce (self w) = true -> readyOnce (self w') = true).
Proof.
  cbn zeta.
  refine (up_execAll raised (fun _ => True) _ _ _ _ _ _ _ _ _ _ _ ops _ w);
    try (by intros; apply raised_with_self; intros; auto);
    try (by intros; unfold raised;
         cbn [with_client set_parked set_streams self]).
  - intros msg _. apply raised_readySignals.
  - apply Forall_forall. intros o _. apply ok_op_any.
Qed.

(** *** The handshake *)

(** What the events of the handshake other than Error envelopes leave
    alone: the error kept for [Connect], the [connected] flag, and
    [readyCh] once it is closed. *)
Definition handshake : relation World :=
  fun w w' =>
    initErr (self w') = initErr (self w)
    /\ connected (self w') = connected (self w)
    /\ (readyCh (self w) = true -> readyCh (self w') = true).

#[local] Instance handshake_preorder : PreOrder handshake.
Proof.
  split.
  - by intros w.
  - intros w1 w2 w3 (?&?&?) (?&?&?). unfold handshake.
    split; [congruence | split; [congruence | auto]].
Qed.

Definition not_error (msg : IncomingMessage) : Prop :=
  forall p, msg <> ErrorEnv p.

Lemma handshake_with_self (f : Session -> Session) w :
  (forall s, initErr (f s) = initErr s) ->
  (forall s, connected (f s) = connected s) ->
  (forall s, readyCh (f s) = readyCh s \/ readyCh (f s) = true) ->
  handshake w (with_self f w).
Proof.
  intros H1 H2 H3. unfold handshake. cbn [with_self self].
  rewrite H1, H2. destruct (H3 (self w)) as [-> | ->]; done.
Qed.

Lemma handshake_fire_ready w : handshake w (with_self fire_ready w).
Proof.
  apply handshake_with_self; intros s; unfold fire_ready;
    destruct (readyOnce s) eqn:E; cbn; auto.
Qed.

Lemma handshake_readySignals msg :
  not_error msg -> keeps handshake (readySignals msg).
Proof.
  intros Hmsg. unfold readySignals, update.
  destruct msg; try (by destruct (Hmsg p)); repeat keeps_step;
    try apply handshake_fire_ready;
    apply handshake_with_self; intros ?; by auto.
Qed.

Lemma handshake_run evs :
  Forall (ok_event not_error) evs -> keeps handshake (run evs).
Proof.
  intros H.
  refine (up_run handshake not_error _ _ _ _ _ _ _ _ _ evs H);
    try (by intros; apply handshake_with_self; intros; auto);
    try (by intros; unfold handshake;
         cbn [with_client set_parked set_streams self]).
  apply handshake_readySignals.
Qed.

(** X10. While the session is not connected, an Error envelope makes
    [Connect] fail also when a ready signal was seen before it: whatever
    else arrives or happens before the [select] of [Connect] looks at
    [readyCh], other Error envelopes apart, [Connect] returns a
    SessionError with the message of the envelope, the state is Error and
    the session stays unconnected. *)
Theorem error_beats_ready (w : World) (p : ErrorPayload) (pc : bool)
    (evs : list Event) :
  connected (self w) = false ->
  readyCh (self w) = readyOnce (self w) ->
  Forall (ok_event not_error) evs ->
  let w1 := final (handleMessage (ErrorEnv p) pc w) in
  let w2 := final (run evs w1) in
  let r := Connect_select ReadyCh w2 in
  result r = Returned (Some (Chucky (SessionError (err_Message p))))
  /\ state (self (final r)) = SessionStateError
  /\ connected (self (final r)) = false.
Proof.
  intros Hc Ho Hevs. cbn zeta.
  set (w1 := final (handleMessage (ErrorEnv p) pc w)).
  assert (readyCh (self w1) = true
          /\ initErr (self w1) = Some (Chucky (SessionError (err_Message p)))
          /\ connected (self w1) = false) as (Hr & He & Hc1).
  { subst w1. unfold handleMessage, bind, field, gets. cbn -[forward].
    rewrite Hc. cbn -[forward].
    rewrite (forward_self readyCh), (forward_self initErr),
      (forward_self connected) by done.
    cbn. unfold fire_ready. cbn. rewrite <- Ho.
    by destruct (readyCh (self w)) eqn:E. }
  destruct (handshake_run evs Hevs w1) as (He2 & Hc2 & Hr2).
  set (w2 := final (run evs w1)) in *.
  pose proof (Connect_select_ready w2 (Hr2 Hr)) as Hsel. cbn zeta in Hsel.
  rewrite He2, He in Hsel. destruct Hsel as (-> & ->).
  cbn [with_self self set_state state connected]. split; [done |].
  split; [done | congruence].
Qed.

Lemma error_beats_ready_witness :
  let p := {| err_Message := "boom"; err_Code := "E1";
              err_Details := JNull |} in
  let ready := Control {| control_Type := MessageTypeControl;
                          control_Payload :=
                            {| Action := ControlActionReady;
                               Data := JNull |} |} in
  let evs := [Recv ready false; Tick 5] in
  let w1 := final (handleMessage (ErrorEnv p) false new_world) in
  let r := Connect_select ReadyCh (final (run evs w1)) in
  connected (self new_world) = false
  /\ readyCh (self new_world) = readyOnce (self new_world)
  /\ Forall (ok_event not_error) evs
  /\ result r = Returned (Some (Chucky (SessionError "boom")))
  /\ state (self (final r)) = SessionStateError.
Proof.
  cbn zeta.
  assert (connected (self new_world) = false) as H1 by reflexivity.
  assert (readyCh (self new_world) = readyOnce (self new_world)) as H2
    by reflexivity.
  assert (Forall (ok_event not_error)
            [Recv (Control {| control_Type := MessageTypeControl;
                              control_Payload :=
                                {| Action := ControlActionReady;
                                   Data := JNull |} |}) false;
             Tick 5]) as H3.
  { constructor; [intros p; discriminate |].
    constructor; [exact I | constructor]. }
  split; [exact H1 |]. split; [exact H2 |]. split; [exact H3 |].
  destruct (error_beats_ready new_world
              {| err_Message := "boom"; err_Code := "E1";
                 err_Details := JNull |} false _ H1 H2 H3)
    as (Hr & Hs & _).
  split; [exact Hr | exact Hs].
Defined.

(** A call into the transport: its result is the result of the method,
    and the transport of the session is then what the method left. *)
Lemma onTransport_spec {A} (m : Transport.T A) w :
  result (onTransport m w) = result (m (transport (self w)))
  /\ transport (self (final (onTransport m w)))
     = final (m (transport (self w))).
Proof.
  unfold onTransport. rewrite !result_bind, !final_bind.
  cbn [field gets update modify ret fst snd]. split; [done |].
  set (w1 := with_self _ w).
  transitivity (transport (self w1)); [| reflexivity].
  apply (keeps_forEach (same_on (fun w => transport (self w)))).
  intros o _. by apply (keeps_deliver (same_on (fun w => transport (self w)))).
Qed.








(** [bind] with the outcome of its first part named. *)
Lemma bind_eq {S O A B} (m : M S O A) (k : A -> M S O B) (s : S) :
  bind m k s
  = (let '(a, s1, o1) := m s in
     let '(b, s2, o2) := k a s1 in
     (b, s2, o1 ++ o2)).
Proof.
  unfold bind. destruct (m s) as [[a s1] o1]. cbn [fst snd].
  by destruct (k a s1) as [[b s2] o2].
Qed.




(** *** Errors *)

(** The errors given to the [OnError] callback of the client and of the
    session, in the output. *)
Definition client_error (o : Obs) : option GoError :=
  match o with
  | Client_OnError e => Some e
  | _ => None
  end.

Definition session_error (o : Obs) : option GoError :=
  match o with
  | Call_OnError e => Some e
  | _ => None
  end.

Lemma handleError_spec e w :
  let r := handleError e w in
  final r
  = (if bool_decide (length (errCh (self w)) < errCh_cap)%nat
     then with_self (set_errCh (errCh (self w) ++ [e])) w else w)
  /\ output r
     = (if client_OnError (client_handlers (client w))
        then [Client_OnError e] else [])
       ++ (if OnError (handlers (self w)) then [Call_OnError e] else []).
Proof.
  cbn zeta. unfold handleError, notifyError, bind, field, gets, update, modify.
  cbn [fst snd app]. destruct (bool_decide _);
    cbn [when ret fst snd app with_self self client handlers set_errCh];
    destruct (client_OnError _), (OnError _); done.
Qed.

(** X12. [handleError] never blocks and [errCh] is never read: of the
    errors reported one after the other, [errCh] keeps the first ones, up
    to its capacity of 10, and the later ones are left out of it. Every
    error, kept or not, is given to the [OnError] callback of the client
    and to that of the session, in order, when they are set. *)
Theorem handleError_keeps_first (w : World) (es : list GoError) :
  (length (errCh (self w)) <= errCh_cap)%nat ->
  let r := forEach es handleError w in
  errCh (self (final r)) = take errCh_cap (errCh (self w) ++ es)
  /\ omap client_error (output r)
     = (if client_OnError (client_handlers (client w)) then es else [])
  /\ omap session_error (output r)
     = (if OnError (handlers (self w)) then es else []).
Proof.
  revert w. induction es as [|e es IH]; intros w Hlen; cbn zeta.
  - cbn [forEach ret fst snd omap]. rewrite app_nil_r, take_ge by done.
    by destruct (client_OnError _), (OnError _).
  - cbn [forEach]. rewrite final_bind, !omap_output_bind.
    destruct (handleError_spec e w) as (Hf & Ho). rewrite Hf, Ho.
    set (w1 := if bool_decide _ then _ else w).
    assert (client_handlers (client w1) = client_handlers (client w)
            /\ handlers (self w1) = handlers (self w)) as (Hch & Hh).
    { subst w1. by destruct (bool_decide _). }
    destruct (IH w1) as (-> & -> & ->).
    { subst w1. destruct (bool_decide _) eqn:E; [| done].
      apply bool_decide_eq_true in E.
      cbn [with_self self set_errCh errCh]. rewrite length_app. cbn. lia. }
    rewrite Hch, Hh. split; [| split].
    + subst w1. destruct (bool_decide _) eqn:E.
      * cbn [with_self self set_errCh errCh]. by rewrite <- app_assoc.
      * apply bool_decide_eq_false in E.
        rewrite !take_app_le by lia. done.
    + rewrite omap_app.
      by destruct (client_OnError _), (OnError _).
    + rewrite omap_app.
      by destruct (client_OnError _), (OnError _).
Qed.

Lemma handleError_keeps_first_witness :
  let es := replicate 12 (OtherErr "late") in
  (length (errCh (self new_world)) <= errCh_cap)%nat
  /\ errCh (self (final (forEach es handleError new_world)))
     = replicate 10 (OtherErr "late").
Proof.
  cbn zeta.
  assert (length (errCh (self new_world)) <= errCh_cap)%nat as H1
    by (vm_compute; lia).
  split; [exact H1 |].
  destruct (handleError_keeps_first new_world
              (replicate 12 (OtherErr "late")) H1) as (He & _).
  exact He.
Defined.

(** *** Around [Close] *)

Lemma transport_Send_transport msg w :
  result (transport_Send msg w)
  = result (Transport.Send msg (transport (self w)))
  /\ transport (self (final (transport_Send msg w)))
     = final (Transport.Send msg (transport (self w)))
  /\ omap wire_written (output (transport_Send msg w))
     = writes (output (Transport.Send msg (transport (self w)))).
Proof.
  unfold transport_Send. rewrite result_bind, final_bind, omap_bind.
  cbn [emit fst snd omap wire_written app].
  destruct (onTransport_spec (Transport.Send msg) w) as (-> & ->).
  by rewrite wire_written_onTransport.
Qed.

Lemma removeSession_self id w : self (final (removeSession id w)) = self w.
Proof.
  unfold removeSession. rewrite !final_bind.
  cbn [modify gets fst snd].
  match goal with |- context [when ?b _] => destruct b end; reflexivity.
Qed.

Lemma when_emit_final (b : bool) (o : Obs) (w : World) :
  final (when b (emit o) w) = w.
Proof. destruct b; reflexivity. Qed.

(** The transport that the first [Close] leaves: the close envelope
    given to [Send], then [Disconnect]. *)
Lemma transport_Disconnect_transport w :
  transport (self (final (transport_Disconnect w)))
  = final (Transport.Disconnect (transport (self w))).
Proof.
  unfold transport_Disconnect. rewrite final_bind.
  cbn [emit fst snd].
  by destruct (onTransport_spec Transport.Disconnect w) as (_ & ->).
Qed.

Lemma Close_transport w :
  closeOnce (self w) = false ->
  transport (self (final (Close w)))
  = final (Transport.Disconnect
             (final (Transport.Send (OutControl closeMsg)
                       (transport (self w))))).
Proof.
  intros H. destruct (Close_first w H) as (_ & -> & _).
  destruct (Close_body w) as [[[] wf] out] eqn:E. cbn [fst snd].
  unfold Close_body in E.
  rewrite bind_eq in E. cbn [update modify] in E. cbv beta iota zeta in E.
  rewrite bind_eq in E.
  pose proof (transport_Send_transport (OutControl closeMsg)
                (with_self set_closed w)) as (_ & Ht2 & _).
  destruct (transport_Send (OutControl closeMsg) (with_self set_closed w))
    as [[r2 w2] o2] eqn:E2.
  cbn [fst snd with_self self set_closed transport] in Ht2.
  cbv beta iota zeta in E.
  rewrite bind_eq in E.
  pose proof (transport_Disconnect_transport w2) as Ht3.
  destruct (transport_Disconnect w2) as [[r3 w3] o3] eqn:E3.
  cbn [fst snd] in Ht3. cbv beta iota zeta in E.
  rewrite bind_eq in E. cbn [field gets] in E. cbv beta iota zeta in E.
  rewrite bind_eq in E.
  pose proof (removeSession_self (sessionID (self w3)) w3) as Hs4.
  destruct (removeSession (sessionID (self w3)) w3) as [[[] w4] o4] eqn:E4.
  cbn [fst snd] in Hs4. cbv beta iota zeta in E.
  rewrite bind_eq in E. cbn [field gets] in E. cbv beta iota zeta in E.
  pose proof (when_emit_final (OnClose (handlers (self w4))) Call_OnClose w4)
    as Hs5.
  destruct (when (OnClose (handlers (self w4))) (emit Call_OnClose) w4)
    as [[[] w5] o5] eqn:E5.
  cbn [fst snd] in Hs5. injection E as <- _.
  rewrite Hs5, Hs4, Ht3, Ht2. reflexivity.
Qed.

(** X13. [Close] on a session whose transport has no connection (it was
    never connected, or the dial failed): the close envelope is not
    written, it is left in the queue of the transport, behind what was
    queued before, and the transport ends up disconnected. *)
Theorem Close_unconnected (w : World) :
  closeOnce (self w) = false ->
  Transport.conn (transport (self w)) = None ->
  let r := Close w in
  let t' := transport (self (final r)) in
  omap wire_written (output r) = []
  /\ Transport.msgQueue t'
     = Transport.msgQueue (transport (self w)) ++ [OutControl closeMsg]
  /\ Transport.conn t' = None
  /\ Transport.status t' = Transport.StatusDisconnected
  /\ closeCh (self (final r)) = true.
Proof.
  intros Ho Hc. cbn zeta. rewrite (Close_transport w Ho).
  destruct (Close_first w Ho) as (_ & Hf & ->).
  rewrite Close_body_wire, Hf.
  rewrite (Send_queued _ _ (or_intror Hc)). cbn [fst snd].
  destruct (Disconnect_spec
              (Transport.set_msgQueue
                 (Transport.msgQueue (transport (self w))
                  ++ [OutControl closeMsg]) (transport (self w))))
    as (_ & -> & _).
  split; [done | split; [done | split; [done | split; [done |]]]].
  by destruct (Close_body_spec w) as (t & q & -> & _).
Qed.

Lemma Close_unconnected_witness :
  let r := Close new_world in
  closeOnce (self new_world) = false
  /\ Transport.conn (transport (self new_world)) = None
  /\ omap wire_written (output r) = []
  /\ Transport.msgQueue (transport (self (final r))) = [OutControl closeMsg].
Proof.
  cbn zeta.
  assert (closeOnce (self new_world) = false) as H1 by reflexivity.
  assert (Transport.conn (transport (self new_world)) = None) as H2
    by reflexivity.
  split; [exact H1 |]. split; [exact H2 |].
  destruct (Close_unconnected new_world H1 H2) as (Hw & Hq & _).
  split; [exact Hw | exact Hq].
Defined.

Lemma Send_rest_wire uuid message w :
  let um := OutUser (userMessage uuid (identity_or_unknown w) message) in
  omap wire_written (output (Send_rest uuid message w))
  = writes (output (Transport.Send um (transport (self w))))
  /\ transport (self (final (Send_rest uuid message w)))
     = final (Transport.Send um (transport (self w))).
Proof.
  cbn zeta. unfold Send_rest.
  rewrite !final_bind, !omap_bind.
  cbn [setState update modify field gets ret fst snd omap app].
  change (if decide (sessionID (self w) = "") then "unknown"
          else sessionID (self w)) with (identity_or_unknown w).
  set (um := OutUser _). set (w1 := with_self _ w).
  destruct (transport_Send_transport um w1) as (_ & -> & ->).
  done.
Qed.

(** X14. [Send] on a connected session after [Close]: the session is
    still taken as connected, so nothing is dialled; [Send] sets the state
    to Processing and returns no error, but the User envelope is not
    written: it is left in the queue of the disconnected transport. *)
Theorem Send_after_Close (w : World) (env : ConnectEnv)
    (uuid message : string) :
  connected (self w) = true ->
  closeOnce (self w) = false ->
  let w1 := final (Close w) in
  let r := Send env uuid message w1 in
  let um := OutUser (userMessage uuid (identity_or_unknown w) message) in
  result r = Returned None
  /\ state (self (final r)) = SessionStateProcessing
  /\ omap wire_written (output r) = []
  /\ Transport.msgQueue (transport (self (final r)))
     = Transport.msgQueue (transport (self w1)) ++ [um]
  /\ Transport.conn (transport (self (final r))) = None.
Proof.
  intros Hc Ho. cbn zeta.
  pose proof (Close_transport w Ho) as Ht.
  destruct (Disconnect_spec
              (final (Transport.Send (OutControl closeMsg)
                        (transport (self w))))) as (_ & Hd & _).
  rewrite Hd in Ht. clear Hd.
  assert (connected (self (final (Close w))) = true
          /\ sessionID (self (final (Close w))) = sessionID (self w))
    as (Hc1 & Hid).
  { destruct (Close_first w Ho) as (_ & -> & _).
    by destruct (Close_body_spec w) as (t & q & -> & _). }
  set (w1 := final (Close w)) in *.
  assert (Transport.conn (transport (self w1)) = None) as Hconn
    by (by rewrite Ht).
  destruct (Send_connected env uuid message w1 Hc1) as (-> & -> & ->).
  destruct (Send_rest_spec uuid message w1) as (-> & -> & _).
  destruct (Send_rest_wire uuid message w1) as (-> & ->).
  assert (identity_or_unknown w1 = identity_or_unknown w) as ->
    by (unfold identity_or_unknown; by rewrite Hid).
  rewrite (Send_queued _ _ (or_intror Hconn)). done.
Qed.

Lemma Send_after_Close_witness :
  let w := final (Connect ready_env new_world) in
  let r := Send ready_env "uuid-1" "2 + 2?" (final (Close w)) in
  connected (self w) = true
  /\ closeOnce (self w) = false
  /\ result r = Returned None
  /\ omap wire_written (output r) = []
  /\ Transport.conn (transport (self (final r))) = None.
Proof.
  cbn zeta.
  assert (connected (self (final (Connect ready_env new_world))) = true)
    as H1 by (vm_compute; reflexivity).
  assert (closeOnce (self (final (Connect ready_env new_world))) = false)
    as H2 by (vm_compute; reflexivity).
  split; [exact H1 |]. split; [exact H2 |].
  destruct (Send_after_Close (final (Connect ready_env new_world)) ready_env
              "uuid-1" "2 + 2?" H1 H2) as (Hr & _ & Hw & _ & Hc).
  split; [exact Hr |]. split; [exact Hw | exact Hc].
Defined.

(** *** What reaches the consumer *)

(** The messages given to the [OnMessage] callback of the session, in
    the output. *)
Definition on_message (o : Obs) : option IncomingMessage :=
  match o with
  | Call_OnMessage msg => Some msg
  | _ => None
  end.

Lemma session_level_on_message : session_level on_message.
Proof. by intros []. Qed.

Lemma omap_none {A B} (f : A -> option B) (l : list A) :
  Forall (fun x => f x = None) l -> omap f l = [].
Proof.
  induction 1 as [|x l Hx _ IH]; [done |]. cbn. by rewrite Hx.
Qed.

Lemma on_message_handleToolCall call w :
  omap on_message (output (handleToolCall call w)) = [].
Proof.
  apply omap_none. by_emits.
  unfold handleToolCall, transport_Send, setState, update, field.
  repeat emits_step; try done.
  - eapply emits_weaken; [| apply emits_onTransport].
    apply session_level_on_message.
  - eapply emits_weaken; [| apply emits_handleError].
    apply session_level_on_message.
Qed.

Lemma on_message_readySignals msg w :
  output (readySignals msg w) = [].
Proof.
  unfold readySignals, update, bind, modify.
  destruct msg; cbn [ret fst snd app when]; try done.
  - destruct (bool_decide _); cbn [ret fst snd app when]; [| done].
    by destruct (bool_decide _).
  - by destruct (_ || _).
Qed.

(** X15. What [handleMessage] passes on, on an open session with room in
    [msgCh]. A tool call is never passed on. While the session is not
    connected a Control envelope with action "ready" or "session_info" is
    kept back: it is not put on [msgCh] and the [OnMessage] callback is
    not called for it. Every other message, and these Control envelopes
    once the session is connected, is appended to [msgCh] and given to the
    callback, if there is one. *)
Theorem what_is_passed_on (w : World) (msg : IncomingMessage) (pc : bool) :
  closeCh (self w) = false ->
  has_room w = true ->
  let r := handleMessage msg pc w in
  let passed :=
    match msg with
    | ToolCall _ => false
    | Control e =>
        connected (self w)
        || negb (bool_decide (Action (control_Payload e) = ControlActionReady)
                 || bool_decide (Action (control_Payload e)
                                 = ControlActionSessionInfo))
    | _ => true
    end in
  result r = true
  /\ msgCh (self (final r)) = msgCh (self w) ++ (if passed then [msg] else [])
  /\ omap on_message (output r)
     = (if passed && OnMessage (handlers (self w)) then [msg] else []).
Proof.
  intros Hc Hroom. cbn zeta.
  change (match msg with
          | ToolCall _ => false
          | Control e =>
              connected (self w)
              || negb (bool_decide (Action (control_Payload e)
                                    = ControlActionReady)
                       || bool_decide (Action (control_Payload e)
                                       = ControlActionSessionInfo))
          | _ => true
          end) with (forwarded (connected (self w)) msg).
  destruct (handleMessage_spec msg pc w) as (Hr & Hs).
  rewrite Hc, Hroom in Hr, Hs. rewrite orb_true_r in Hr. cbn [orb] in Hr.
  cbn [andb negb] in Hs. rewrite !andb_true_r in Hs.
  apply surroundings_inv in Hs as (Hq & _).
  cbn [self with_self set_msgCh msgCh] in Hq.
  split; [done | split; [done |]].
  pose proof (readySignals_surroundings msg w) as Hsur.
  pose proof (readySignals_result msg w) as Hres.
  pose proof (on_message_readySignals msg w) as Hout.
  unfold handleMessage. rewrite omap_bind. cbn [field gets fst snd omap app].
  destruct (connected (self w)) eqn:Hconn; cbn [negb]; cbv beta iota zeta.
  - rewrite omap_bind. cbn [ret fst snd omap app].
    destruct msg;
      try (match goal with
           | |- context [forward ?m pc w] =>
               destruct (forward_spec m pc w) as (_ & _ & ->)
           end;
           rewrite Hroom; unfold callback; cbn [orb app forwarded andb];
           by destruct (OnMessage _)).
    rewrite omap_bind, on_message_handleToolCall. done.
  - rewrite omap_bind, Hout. cbn [omap app].
    apply surroundings_inv in Hsur as (Hq1 & Hc1 & _ & Hh1 & _).
    set (w1 := final (readySignals msg w)) in *.
    destruct Hres as [-> | (call & ->)].
    + destruct (forwarded false msg) eqn:Hfw; cbn [negb ret fst snd andb omap];
        [| done].
      destruct msg; try discriminate Hfw;
        match goal with
        | |- context [forward ?m pc w1] =>
            destruct (forward_spec m pc w1) as (_ & _ & ->)
        end;
        unfold has_room, callback; rewrite Hq1, Hh1; fold (has_room w);
        rewrite Hroom; cbn [orb app]; by destruct (OnMessage _).
    + cbn [readySignals ret fst snd forwarded andb].
      rewrite omap_bind, on_message_handleToolCall. done.
Qed.

Lemma what_is_passed_on_witness :
  let msg := System {| sys_Subtype := SystemSubtypeInit; sys_UUID := "u0";
                       sys_SessionID := "sess-42"; sys_Data := JNull |} in
  let r := handleMessage msg false new_world in
  closeCh (self new_world) = false
  /\ has_room new_world = true
  /\ result r = true
  /\ msgCh (self (final r)) = [msg]
  /\ omap on_message (output r) = [].
Proof.
  cbn zeta.
  assert (closeCh (self new_world) = false) as H1 by reflexivity.
  assert (has_room new_world = true) as H2 by reflexivity.
  split; [exact H1 |]. split; [exact H2 |].
  exact (what_is_passed_on new_world
           (System {| sys_Subtype := SystemSubtypeInit; sys_UUID := "u0";
                      sys_SessionID := "sess-42"; sys_Data := JNull |})
           false H1 H2).
Defined.

(** ** Tools *)

(** The tools that the client-tools servers of the options declare, in
    order. *)
Definition declared (opts : SessionOptions) : list ToolDefinition :=
  flat_map (fun server =>
              match server with
              | McpClientToolsServer _ _ tools => tools
              | _ => []
              end) (McpServers opts).

(** The handlers of the tools called [name] among [tools], in order. *)
Definition handlers_named (name : string) (tools : list ToolDefinition)
  : list ToolHandler :=
  omap (fun tool =>
          if decide (ToolName tool = name) then Handler tool else None) tools.

Lemma extractTools_lookup name tools :
  forall m,
    extractTools tools m !! name
    = match last (handlers_named name tools) with
      | Some h => Some h
      | None => m !! name
      end.
Proof.
  unfold extractTools, handlers_named.
  induction tools as [|tool tools IH]; intros m; [done |].
  cbn [fold_left omap list_omap]. rewrite IH. clear IH.
  destruct (decide (ToolName tool = name)) as [<- | Hne].
  - destruct (Handler tool) as [h|]; [| done].
    rewrite last_cons, lookup_insert_eq.
    by destruct (last _).
  - destruct (Handler tool) as [h|]; [| done].
    by rewrite lookup_insert_ne.
Qed.

Lemma extractToolHandlers_lookup name opts :
  extractToolHandlers opts !! name
  = last (handlers_named name (declared opts)).
Proof.
  unfold extractToolHandlers, declared.
  assert (forall servers m,
            fold_left (fun m server =>
                         match server with
                         | McpClientToolsServer _ _ tools =>
                             extractTools tools m
                         | _ => m
                         end) servers m !! name
            = match last (handlers_named name
                            (flat_map (fun server =>
                                         match server with
                                         | McpClientToolsServer _ _ tools =>
                                             tools
                                         | _ => []
                                         end) servers)) with
              | Some h => Some h
              | None => m !! name
              end) as H.
  { induction servers as [|server servers IH]; intros m; [done |].
    cbn [fold_left flat_map]. rewrite IH. clear IH.
    unfold handlers_named. rewrite omap_app, last_app.
    match goal with
    | |- context [last (omap ?g (flat_map ?f servers))] =>
        destruct (last (omap g (flat_map f servers)))
    end; [done |].
    destruct server; try done. apply extractTools_lookup. }
  rewrite H. by destruct (last _).
Qed.

(** The registry and the options of a session are set at its creation and
    stay as they are. *)
Lemma execAll_registry (ops : list Op) (w : World) :
  toolHandlers (self (final (execAll ops w))) = toolHandlers (self w)
  /\ options (self (final (execAll ops w))) = options (self w).
Proof.
  assert (same_on (fun w => (toolHandlers (self w), options (self w)))
            w (final (execAll ops w))) as H.
  { refine (up_execAll _ (fun _ => True) _ _ _ _ _ _ _ _ _ _ _ ops _ w);
      try (by intros; unfold same_on).
    - intros msg _. unfold readySignals, update.
      destruct msg; repeat keeps_step; try done;
        unfold same_on, fire_ready; cbn [with_self self];
        by match goal with
           | |- context [readyOnce ?s] => destruct (readyOnce s)
           end.
    - apply Forall_forall. intros o _. apply ok_op_any. }
  unfold same_on in H. by injection H as -> ->.
Qed.

(** X16. The handler that a session finds for a tool name, at any time
    of its life, is the handler of the last tool of that name among the
    tools with a handler that the client-tools servers of its options
    declare, in the order of the options; the other kinds of servers
    contribute none, and the options themselves stay as given. *)
Theorem registry_is_declared (opts : SessionOptions) (p : nat) (c : Client)
    (ops : list Op) (name : string) :
  let w := final (execAll ops (CreateSession (Some opts) p c)) in
  toolHandlers (self w) !! name = last (handlers_named name (declared opts))
  /\ options (self w) = opts.
Proof.
  cbn zeta.
  destruct (execAll_registry ops (CreateSession (Some opts) p c)) as [-> ->].
  split; [| reflexivity]. apply extractToolHandlers_lookup.
Qed.

(** X17. A ToolCall for a tool with a registered handler is answered
    with one ToolResult envelope that carries the call identifier: if the
    handler returns an error, an error result whose text is "Tool
    execution error: " followed by the error; otherwise the result of the
    handler as it is, which may be nil. The state is then Processing, and
    the ToolCall is not put on the inbound stream. *)
Theorem tool_call_answer (w : World) (call : ToolCallPayload) (pc : bool)
    (h : ToolHandler) :
  toolHandlers (self w) !! call_ToolName call = Some h ->
  let r := handleMessage (ToolCall call) pc w in
  let out := h (toInput (Input call)) in
  sends (output r)
  = [OutToolResult
       {| toolresult_Type := MessageTypeToolResult;
          toolresult_Payload :=
            {| result_CallID := CallID call;
               result_Result :=
                 match snd out with
                 | Some err =>
                     Some {| Content :=
                               [TextToolContent "text"
                                  ("Tool execution error: " +:+ Error err)];
                             IsError := true |}
                 | None => fst out
                 end |} |}]
  /\ state (self (final r)) = SessionStateProcessing
  /\ result r = true
  /\ msgCh (self (final r)) = msgCh (self w).
Proof.
  intros Hh. cbn zeta.
  destruct (handleMessage_ToolCall call pc w) as (Hres & Hfin & Hout).
  destruct (handleToolCall_spec call w) as (Hsends & Hstate).
  rewrite Hout, Hfin, Hsends, Hres. unfold toolResult. rewrite Hh.
  repeat split; try done. apply handleToolCall_msgCh.
Qed.

(** A session with two tools. *)
Definition adder : ToolHandler :=
  fun input => (Some (Tools.TextResult "4"), None).

Definition greeter (input : list (string * JValue)) : string * option GoError :=
  match input with
  | [] => ("", Some (OtherErr "no name"))
  | _ => ("hello", None)
  end.

Definition two_tools : SessionOptions :=
  {| Model := ""; FallbackModel := ""; SystemPrompt := JNull; MaxTurns := 0;
     MaxBudgetUsd := 0; MaxThinkingTokens := 0; Tools := JNull;
     McpServers :=
       [Tools.CreateSdkMcpServer "calc"
          [Tools.Tool "add" "adds two numbers" JNull (Some adder);
           Tools.Tool "greet" "greets" JNull
             (Some (Tools.SimpleHandler greeter))]];
     PermissionMode := ""; Format := None;
     IncludePartialMessages := false; Env := [];
     SessionID := ""; ForkSession := false; ResumeSessionAt := "";
     Continue := false |}.

Lemma tool_call_answer_witness :
  let w := CreateSession (Some two_tools) 0 (NewClient DefaultClientOptions) in
  let call := {| CallID := "c1"; call_ToolName := "add"; Input := JNull |} in
  toolHandlers (self w) !! "add" = Some adder
  /\ sends (output (handleMessage (ToolCall call) false w))
     = [OutToolResult
          {| toolresult_Type := MessageTypeToolResult;
             toolresult_Payload :=
               {| result_CallID := "c1";
                  result_Result := Some (Tools.TextResult "4") |} |}].
Proof.
  cbn zeta.
  assert (toolHandlers
            (self (CreateSession (Some two_tools) 0
                     (NewClient DefaultClientOptions))) !! "add"
          = Some adder) as H1 by reflexivity.
  split; [exact H1 |].
  destruct (tool_call_answer
              (CreateSession (Some two_tools) 0 (NewClient DefaultClientOptions))
              {| CallID := "c1"; call_ToolName := "add"; Input := JNull |}
              false adder H1) as (Hs & _).
  exact Hs.
Defined.

(** X18. A tool declared with [SimpleHandler fn], the last of its name
    in the options of a session: whatever happened to the session since
    its creation, a ToolCall for it is answered with the text that [fn]
    returns, or, if [fn] fails, with an error result whose text is the
    error itself, without the prefix "Tool execution error: ". *)
Theorem SimpleHandler_answer (opts : SessionOptions) (p : nat) (c : Client)
    (ops : list Op) (call : ToolCallPayload) (pc : bool)
    (fn : list (string * JValue) -> string * option GoError) :
  last (handlers_named (call_ToolName call) (declared opts))
  = Some (Tools.SimpleHandler fn) ->
  let w := final (execAll ops (CreateSession (Some opts) p c)) in
  let out := fn (toInput (Input call)) in
  sends (output (handleMessage (ToolCall call) pc w))
  = [OutToolResult
       {| toolresult_Type := MessageTypeToolResult;
          toolresult_Payload :=
            {| result_CallID := CallID call;
               result_Result :=
                 Some {| Content :=
                           [TextToolContent "text"
                              match snd out with
                              | Some err => Error err
                              | None => fst out
                              end];
                         IsError := bool_decide (snd out <> None) |} |} |}].
Proof.
  intros Hlast. cbn zeta.
  destruct (handleMessage_ToolCall call pc
              (final (execAll ops (CreateSession (Some opts) p c))))
    as (_ & _ & ->).
  destruct (handleToolCall_spec call
              (final (execAll ops (CreateSession (Some opts) p c))))
    as (-> & _).
  destruct (execAll_registry ops (CreateSession (Some opts) p c)) as [-> _].
  unfold toolResult.
  change (toolHandlers (self (CreateSession (Some opts) p c)))
    with (extractToolHandlers opts).
  rewrite extractToolHandlers_lookup, Hlast.
  unfold Tools.SimpleHandler, toolResultEnvelope.
  by destruct (snd (fn (toInput (Input call)))).
Qed.

Lemma SimpleHandler_answer_witness :
  let w := final (execAll [CallConnect ready_env; CallStream]
                    (CreateSession (Some two_tools) 0
                       (NewClient DefaultClientOptions))) in
  let call := {| CallID := "c2"; call_ToolName := "greet"; Input := JNull |} in
  last (handlers_named "greet" (declared two_tools))
  = Some (Tools.SimpleHandler greeter)
  /\ sends (output (handleMessage (ToolCall call) false w))
     = [OutToolResult
          {| toolresult_Type := MessageTypeToolResult;
             toolresult_Payload :=
               {| result_CallID := "c2";
                  result_Result := Some (Tools.ErrorResult "no name") |} |}].
Proof.
  cbn zeta.
  assert (last (handlers_named "greet" (declared two_tools))
          = Some (Tools.SimpleHandler greeter)) as H1 by reflexivity.
  split; [exact H1 |].
  exact (SimpleHandler_answer two_tools 0 (NewClient DefaultClientOptions)
           [CallConnect ready_env; CallStream]
           {| CallID := "c2"; call_ToolName := "greet"; Input := JNull |}
           false greeter H1).
Defined.

(** X19. The tool maps of the init payload and the registry agree: a
    name has a handler in the registry exactly when the options declare a
    tool of that name whose map in the init payload carries
    "executeIn": "client". *)
Theorem announced_iff_registered (opts : SessionOptions) (name : string) :
  is_Some (extractToolHandlers opts !! name)
  <-> exists tool,
        tool ∈ declared opts
        /\ toolMap tool
           = JObject [("name", JString name);
                      ("description", JString (ToolDescription tool));
                      ("inputSchema", InputSchema tool);
                      ("executeIn", JString "client")].
Proof.
  rewrite extractToolHandlers_lookup.
  generalize (declared opts) as tools. intros tools.
  unfold handlers_named. split.
  - intros [h Hh]. apply last_Some_elem_of in Hh.
    apply list_elem_of_omap in Hh as (tool & Hin & Htool).
    exists tool. split; [exact Hin |].
    destruct (decide (ToolName tool = name)) as [<- |]; [| done].
    unfold toolMap. by rewrite Htool.
  - intros (tool & Hin & Hmap).
    assert (exists h, h ∈ omap
              (fun tool => if decide (ToolName tool = name)
                           then Handler tool else None) tools) as [h Hh].
    { unfold toolMap in Hmap.
      destruct (Handler tool) as [h|] eqn:Htool; [| discriminate].
      exists h. apply list_elem_of_omap. exists tool. split; [exact Hin |].
      injection Hmap as ->. by rewrite decide_True. }
    destruct (omap _ tools) as [|a l] using rev_ind.
    + by apply elem_of_nil in Hh.
    + rewrite last_snoc. by eexists.
Qed.

(** X20. Tools added to a builder one at a time, or all at once, give
    the server that [CreateSdkMcpServer] makes: the same tools in the
    same order, under version "1.0.0" unless [Version] was called, also
    after the tools were added. *)
Theorem builder_is_CreateSdkMcpServer (name : string)
    (ts : list ToolDefinition) :
  Tools.Build (fold_left (fun b tool => Tools.Add tool b) ts
                 (Tools.NewMcpServer name))
  = Tools.CreateSdkMcpServer name ts
  /\ Tools.Build (Tools.AddTools ts (Tools.NewMcpServer name))
     = Tools.CreateSdkMcpServer name ts
  /\ forall v,
       Tools.Build (Tools.Version v
                      (fold_left (fun b tool => Tools.Add tool b) ts
                         (Tools.NewMcpServer name)))
       = McpClientToolsServer name v ts.
Proof.
  assert (forall b,
            fold_left (fun b tool => Tools.Add tool b) ts b
            = Tools.AddTools ts b) as H.
  { induction ts as [|tool ts IH]; intros b.
    - unfold Tools.AddTools. cbn [fold_left]. rewrite app_nil_r.
      by destruct b.
    - cbn [fold_left]. rewrite IH. unfold Tools.AddTools, Tools.Add.
      cbn. by rewrite <- app_assoc. }
  rewrite H. by repeat split.
Qed.

(** ** The client *)

(** X21. Options of the client: a field left at its zero value takes the
    default, a field that is set is kept, and a timeout or keep-alive
    interval that is not positive counts as not set. The transport of
    every session of a client made by [NewClient] therefore has a
    positive timeout and a positive keep-alive interval, and a base URL
    that is not empty. *)
Theorem NewClient_defaults (opts : ClientOptions)
    (sopts : option SessionOptions) (p : nat) :
  let o := client_options (NewClient opts) in
  let t := transport (self (CreateSession sopts p (NewClient opts))) in
  BaseURL o
  = (if decide (BaseURL opts = "") then "wss://conjure.chucky.cloud/ws"
     else BaseURL opts)
  /\ Timeout o = (if 0 <? Timeout opts then Timeout opts else 60 * Second)
  /\ KeepAliveInterval o
     = (if 0 <? KeepAliveInterval opts then KeepAliveInterval opts
        else 5 * Minute)
  /\ Token o = Token opts
  /\ Debug o = Debug opts
  /\ Transport.baseURL t = BaseURL o /\ Transport.baseURL t <> ""
  /\ Transport.timeout t = Timeout o /\ 0 < Transport.timeout t
  /\ Transport.keepAliveInterval t = KeepAliveInterval o
  /\ 0 < Transport.keepAliveInterval t
  /\ Transport.token t = Token opts.
Proof.
  cbn zeta.
  cbn [NewClient client_options Merge DefaultClientOptions BaseURL Timeout
         KeepAliveInterval Token Debug CreateSession self newSession
         transport Transport.set_handlers Transport.NewWebSocketTransport
         Transport.baseURL Transport.timeout Transport.keepAliveInterval
         Transport.token Transport.opt_BaseURL Transport.opt_Timeout
         Transport.opt_KeepAliveInterval Transport.opt_Token].
  assert (0 < 60 * Second) as H60 by (unfold Second; lia).
  assert (0 < 5 * Minute) as H5 by (unfold Minute, Second; lia).
  repeat split.
  - by destruct (decide (Token opts = "")) as [-> |].
  - by destruct (Debug opts).
  - by destruct (decide (BaseURL opts = "")).
  - destruct (0 <? Timeout opts) eqn:E;
      [apply Z.ltb_lt in E |]; destruct (decide _); lia.
  - destruct (0 <? Timeout opts) eqn:E;
      [apply Z.ltb_lt in E |]; destruct (decide _); lia.
  - destruct (0 <? KeepAliveInterval opts) eqn:E;
      [apply Z.ltb_lt in E |]; destruct (decide _); lia.
  - destruct (0 <? KeepAliveInterval opts) eqn:E;
      [apply Z.ltb_lt in E |]; destruct (decide _); lia.
  - by destruct (decide (Token opts = "")) as [-> |].
Qed.

(** X22. [Merge] is associative, and merging the zero options or the
    options themselves changes nothing: options can be layered in any
    grouping, the later layer winning where it sets a field. *)
Theorem Merge_layers (a b c : ClientOptions) :
  Merge (Merge a b) c = Merge a (Merge b c)
  /\ Merge a {| BaseURL := ""; Token := ""; Debug := false; Timeout := 0;
                KeepAliveInterval := 0; AutoReconnect := false;
                MaxReconnectAttempts := 0 |} = a
  /\ Merge a a = a.
Proof.
  destruct a as [a1 a2 a3 a4 a5 a6 a7], b as [b1 b2 b3 b4 b5 b6 b7],
    c as [c1 c2 c3 c4 c5 c6 c7].
  unfold Merge. cbn. repeat split; f_equal;
    repeat match goal with
      | |- context [decide ?P] => destruct (decide P); try done
      | |- context [?x <? ?y] => destruct (x <? y) eqn:?; try done
      | |- context [if ?b then _ else _] => destruct b; try done
      end.
Qed.

(** The sessions that a client has created one after the other. *)
Definition creations (l : list (option SessionOptions * nat)) (c : Client)
  : Client :=
  fold_left (fun c op => client (CreateSession (fst op) (snd op) c)) l c.

(** X23. Every new session is registered under the key "", its identity
    at creation: of the sessions that a client creates one after the
    other, the registry gains one entry, which points to the last. *)
Theorem sessions_share_one_key (l : list (option SessionOptions * nat))
    (c : Client) :
  sessions (creations l c)
  = match last l with
    | Some op => <["" := snd op]> (sessions c)
    | None => sessions c
    end.
Proof.
  unfold creations. revert c.
  induction l as [|op l IH]; intros c; [done |].
  cbn [fold_left]. rewrite IH, last_cons.
  destruct (last l) as [op'|]; [| done].
  cbn [CreateSession client set_sessions sessions newSession sessionID].
  apply insert_insert_eq.
Qed.

(** X24. [ResumeSession] keeps the identity to resume in the options of
    the session only: the session starts with the empty identity and
    under the key "", and the init message that it sends, whenever that
    is, carries no session identity, and [Continue] set. The caller's
    options are left with the identity and [Continue] written in. *)
Theorem ResumeSession_identity_not_sent (id : string)
    (opts : option SessionOptions) (p : nat) (c : Client) (ops : list Op) :
  let r := ResumeSession id opts p c in
  let w := final (execAll ops (snd r)) in
  sessionID (self (snd r)) = ""
  /\ sessions (client (snd r)) !! "" = Some p
  /\ SessionID (options (self w)) = id
  /\ (exists e,
        sends (output (sendInit w)) = [OutInit e]
        /\ init_SessionID (init_Payload e) = ""
        /\ init_Continue (init_Payload e) = true)
  /\ (forall o, opts = Some o ->
        exists o', fst r = Some o'
                   /\ SessionID o' = id /\ Continue o' = true
                   /\ McpServers o' = McpServers o /\ Model o' = Model o).
Proof.
  cbn zeta. unfold ResumeSession. cbn [fst snd].
  match goal with
  | |- context [CreateSession (Some ?o) p c] => set (o' := o)
  end.
  destruct (execAll_registry ops (CreateSession (Some o') p c)) as [_ Hopts].
  change (options (self (CreateSession (Some o') p c))) with o' in Hopts.
  split; [reflexivity |].
  split; [apply lookup_insert_eq |].
  split; [by rewrite Hopts |].
  split.
  - exists (initEnvelope o'). split; [| by split].
    unfold sendInit, field. rewrite sends_bind.
    cbn [gets output result final fst snd sends omap list_omap app].
    rewrite Hopts. rewrite sends_transport_Send.
    reflexivity.
  - intros o ->. eexists. split; [reflexivity |]. by cbn.
Qed.

(** ** Tokens and keys *)

(** Whether the byte [c] occurs in [s]. *)
Fixpoint has_byte (c : ascii) (s : string) : bool :=
  match s with
  | EmptyString => false
  | String a s' => bool_decide (a = c) || has_byte c s'
  end.

Lemma Split_without sep s :
  has_byte sep s = false -> Utils.Split s sep = [s].
Proof.
  induction s as [|a s IH]; [done |].
  cbn [has_byte Utils.Split]. intros H.
  apply orb_false_elim in H as [Ha Hs]. apply bool_decide_eq_false in Ha.
  rewrite decide_False by done. by rewrite (IH Hs).
Qed.

Lemma Split_first sep s rest :
  has_byte sep s = false ->
  Utils.Split (s +:+ String sep rest) sep = s :: Utils.Split rest sep.
Proof.
  induction s as [|a s IH].
  - intros _. change ("" +:+ String sep rest) with (String sep rest).
    cbn [Utils.Split]. by rewrite decide_True.
  - change (String a s +:+ String sep rest)
      with (String a (s +:+ String sep rest)).
    cbn [has_byte Utils.Split]. intros H.
    apply orb_false_elim in H as [Ha Hs]. apply bool_decide_eq_false in Ha.
    rewrite decide_False by done. by rewrite (IH Hs).
Qed.

Lemma Split_nonempty s sep : Utils.Split s sep <> [].
Proof.
  destruct s as [|a s]; [done |]. cbn [Utils.Split].
  destruct (decide (a = sep)); [done |].
  by destruct (Utils.Split s sep).
Qed.

(** X25. A key "hmac_<project>_<secret>" gives back its project, if the
    project has no underscore; what follows the project and its
    underscore does not matter, and may be absent. Every key whose first
    part is not "hmac" gives the empty string, whatever follows that
    part; so does every key with no underscore, "hmac" included. *)
Theorem ExtractProjectID_round_trip (project rest : string) :
  has_byte "_" project = false ->
  Utils.ExtractProjectID ("hmac_" +:+ project +:+ "_" +:+ rest) = project
  /\ Utils.ExtractProjectID ("hmac_" +:+ project) = project
  /\ (forall key,
        head (Utils.Split key "_") <> Some "hmac" ->
        Utils.ExtractProjectID key = "")
  /\ (forall first others,
        has_byte "_" first = false -> first <> "hmac" ->
        Utils.ExtractProjectID first = ""
        /\ Utils.ExtractProjectID (first +:+ "_" +:+ others) = "")
  /\ (forall key,
        has_byte "_" key = false -> Utils.ExtractProjectID key = "").
Proof.
  intros H. unfold Utils.ExtractProjectID.
  change ("hmac_" +:+ project +:+ "_" +:+ rest)
    with ("hmac" +:+ String "_" (project +:+ String "_" rest)).
  change ("hmac_" +:+ project) with ("hmac" +:+ String "_" project).
  rewrite !(Split_first "_" "hmac") by done.
  rewrite (Split_first "_" project) by done.
  rewrite (Split_without "_" project) by done.
  split; [done |]. split; [done |]. split; [| split].
  - intros key Hkey.
    destruct (Utils.Split key "_") as [|first [|second parts]]; try done.
    cbn [head] in Hkey. rewrite decide_False; [done | congruence].
  - intros first others Hf Hne. rewrite (Split_without "_" first) by done.
    split; [done |].
    change (first +:+ "_" +:+ others) with (first +:+ String "_" others).
    rewrite (Split_first "_" first) by done.
    pose proof (Split_nonempty others "_") as Hparts.
    destruct (Utils.Split others "_") as [|second parts]; [done |].
    by rewrite decide_False.
  - intros key Hkey. by rewrite (Split_without "_" key).
Qed.

Lemma ExtractProjectID_round_trip_witness :
  has_byte "_" "proj42" = false
  /\ Utils.ExtractProjectID "hmac_proj42_s3cr3t_key" = "proj42"
  /\ Utils.ExtractProjectID "hmac_proj42" = "proj42"
  /\ Utils.ExtractProjectID "key_proj42_s3cr3t_key" = ""
  /\ Utils.ExtractProjectID "hmac" = "".
Proof.
  assert (has_byte "_" "proj42" = false) as H1 by reflexivity.
  split; [exact H1 |].
  destruct (ExtractProjectID_round_trip "proj42" "s3cr3t_key" H1)
    as (Ha & Hb & _ & Hc & Hd).
  split; [exact Ha |]. split; [exact Hb |]. split.
  - refine (proj2 (Hc "key" "proj42_s3cr3t_key" eq_refl _)). discriminate.
  - exact (Hd "hmac" eq_refl).
Defined.

(** The bytes of an encoding are in the alphabet, or are the padding. *)
Definition base64_byte (a : ascii) : Prop :=
  a = "="%char \/ has_byte a Utils.encodeURL = true.

Lemma get_has_byte n s a : String.get n s = Some a -> has_byte a s = true.
Proof.
  revert n. induction s as [|b s IH]; intros n; [done |].
  destruct n as [|n]; cbn [String.get has_byte].
  - intros [= ->]. by rewrite bool_decide_true.
  - intros H. rewrite (IH _ H). apply orb_true_r.
Qed.

Fixpoint all_bytes (P : ascii -> Prop) (s : string) : Prop :=
  match s with
  | EmptyString => True
  | String a s' => P a /\ all_bytes P s'
  end.

Lemma enc_base64 val shift : base64_byte (Utils.enc val shift).
Proof.
  right. unfold Utils.enc.
  destruct (String.get _ Utils.encodeURL) as [a|] eqn:E.
  - exact (get_has_byte _ _ _ E).
  - reflexivity.
Qed.

Lemma EncodeToString_bytes src :
  all_bytes base64_byte (Utils.EncodeToString src).
Proof.
  assert (forall n src, (String.length src < n)%nat ->
            all_bytes base64_byte (Utils.EncodeToString src)) as H.
  { induction n as [|n IH]; intros s Hs; [lia |].
    destruct s as [|a [|b [|c rest]]]; cbn [Utils.EncodeToString all_bytes].
    - done.
    - repeat split; try apply enc_base64; by left.
    - repeat split; try apply enc_base64; by left.
    - repeat split; try apply enc_base64. apply IH.
      cbn [String.length] in Hs. lia. }
  apply (H (S (String.length src))). lia.
Qed.

Lemma TrimRight_bytes P s c :
  all_bytes P s -> all_bytes P (Utils.TrimRight s c).
Proof.
  induction s as [|a s IH]; [done |].
  cbn [all_bytes Utils.TrimRight]. intros [Ha Hs].
  destruct (Utils.TrimRight s c) as [|b t] eqn:E.
  - by destruct (decide (a = c)).
  - split; [exact Ha | exact (IH Hs)].
Qed.

Lemma all_bytes_has_byte P c s :
  ~ P c -> all_bytes P s -> has_byte c s = false.
Proof.
  intros Hc. induction s as [|a s IH]; [done |].
  cbn [all_bytes has_byte]. intros [Ha Hs].
  rewrite (IH Hs), orb_false_r. apply bool_decide_eq_false.
  intros Heq. apply Hc. by rewrite <- Heq.
Qed.

Lemma base64URLEncode_no_dot data :
  has_byte "." (Utils.base64URLEncode data) = false.
Proof.
  apply (all_bytes_has_byte base64_byte).
  - intros [H | H]; discriminate.
  - apply TrimRight_bytes, EncodeToString_bytes.
Qed.

Lemma append_assoc (s1 s2 s3 : string) :
  s1 +:+ (s2 +:+ s3) = (s1 +:+ s2) +:+ s3.
Proof.
  induction s1 as [|a s1 IH]; [done |].
  change (String a s1 +:+ (s2 +:+ s3)) with (String a (s1 +:+ (s2 +:+ s3))).
  by rewrite IH.
Qed.

Lemma VerifyToken_parts HMAC (header payload signature secret : string) :
  has_byte "." header = false ->
  has_byte "." payload = false ->
  has_byte "." signature = false ->
  Utils.VerifyToken HMAC
    (header +:+ "." +:+ payload +:+ "." +:+ signature) secret
  = (bool_decide
       (signature
        = Utils.base64URLEncode
            (Utils.signHS256 HMAC (header +:+ "." +:+ payload) secret)),
     None).
Proof.
  intros Hh Hp Hs. unfold Utils.VerifyToken.
  change (header +:+ "." +:+ payload +:+ "." +:+ signature)
    with (header +:+ String "." (payload +:+ String "." signature)).
  rewrite (Split_first "." header) by done.
  rewrite (Split_first "." payload) by done.
  by rewrite (Split_without "." signature).
Qed.

(** X26. A token made by [CreateToken] verifies under the secret it was
    made with, whatever the options and the time: it has three parts
    separated by ".", the first of which is the encoding of the header
    {"alg":"HS256","typ":"JWT"}, and [CreateToken] returns no error. *)
Theorem CreateToken_verifies (HMAC : string -> string -> string)
    (Marshal : Utils.BudgetTokenPayload -> string) (now : Z)
    (opts : Utils.CreateTokenOptions) :
  let r := Utils.CreateToken HMAC Marshal now opts in
  snd r = None
  /\ Utils.VerifyToken HMAC (fst r) (Utils.Secret opts) = (true, None)
  /\ exists payload signature,
       fst r = "eyJhbGciOiJIUzI1NiIsInR5cCI6IkpXVCJ9" +:+ "." +:+ payload
               +:+ "." +:+ signature
       /\ Utils.Split (fst r) "."
          = ["eyJhbGciOiJIUzI1NiIsInR5cCI6IkpXVCJ9"; payload; signature].
Proof.
  cbn zeta. unfold Utils.CreateToken. cbn [fst snd].
  set (payload := Utils.base64URLEncode (Marshal _)).
  assert (Utils.base64URLEncode Utils.headerJSON
          = "eyJhbGciOiJIUzI1NiIsInR5cCI6IkpXVCJ9") as Hheader
    by (vm_compute; reflexivity).
  set (signature := Utils.base64URLEncode (Utils.signHS256 HMAC _ _)).
  assert (has_byte "." (Utils.base64URLEncode Utils.headerJSON) = false)
    as Hh by apply base64URLEncode_no_dot.
  assert (has_byte "." payload = false) as Hp
    by apply base64URLEncode_no_dot.
  assert (has_byte "." signature = false) as Hs
    by apply base64URLEncode_no_dot.
  rewrite Hheader in Hh |- *.
  rewrite <- append_assoc.
  change ("eyJhbGciOiJIUzI1NiIsInR5cCI6IkpXVCJ9"
          +:+ ("." +:+ payload) +:+ "." +:+ signature)
    with ("eyJhbGciOiJIUzI1NiIsInR5cCI6IkpXVCJ9" +:+ "." +:+ payload
          +:+ "." +:+ signature).
  split; [reflexivity |]. split.
  - rewrite (VerifyToken_parts HMAC _ payload signature) by done.
    by rewrite bool_decide_true.
  - exists payload, signature. split; [reflexivity |].
    change ("eyJhbGciOiJIUzI1NiIsInR5cCI6IkpXVCJ9" +:+ "." +:+ payload
            +:+ "." +:+ signature)
      with ("eyJhbGciOiJIUzI1NiIsInR5cCI6IkpXVCJ9"
            +:+ String "." (payload +:+ String "." signature)).
    rewrite (Split_first "." "eyJhbGciOiJIUzI1NiIsInR5cCI6IkpXVCJ9") by done.
    rewrite (Split_first "." payload) by done.
    by rewrite (Split_without "." signature).
Qed.

(** The number of occurrences of the byte [c] in [s]. *)
Fixpoint count_byte (c : ascii) (s : string) : nat :=
  match s with
  | EmptyString => 0
  | String a s' => (if decide (a = c) then 1 else 0) + count_byte c s'
  end.

Lemma Split_length s sep :
  length (Utils.Split s sep) = S (count_byte sep s).
Proof.
  induction s as [|a s IH]; [done |].
  cbn [Utils.Split count_byte].
  destruct (decide (a = sep)).
  - cbn [length]. by rewrite IH.
  - destruct (Utils.Split s sep) as [|part parts]; [done |].
    cbn [length] in *. lia.
Qed.

(** X27. [VerifyToken] fails with "invalid token format", and the answer
    false, exactly on the tokens that do not have two "."; on the others
    it returns no error, and the answer depends on the secret and on the
    three parts only: nothing in the header or in the payload, such as
    the time of expiry, is looked at. *)
Theorem VerifyToken_format (HMAC : string -> string -> string)
    (token secret : string) :
  (count_byte "." token <> 2%nat ->
   Utils.VerifyToken HMAC token secret
   = (false, Some (OtherErr "invalid token format")))
  /\ (count_byte "." token = 2%nat ->
      exists header payload signature,
        Utils.Split token "." = [header; payload; signature]
        /\ Utils.VerifyToken HMAC token secret
           = (bool_decide
                (signature
                 = Utils.base64URLEncode
                     (HMAC secret (header +:+ "." +:+ payload))),
              None)).
Proof.
  pose proof (Split_length token ".") as Hlen.
  unfold Utils.VerifyToken, Utils.signHS256.
  destruct (Utils.Split token ".") as [|h [|p [|s [|x l]]]];
    cbn [length] in Hlen; split; intros H; try done; try lia.
  by exists h, p, s.
Qed.

(** ** Several streams *)

(** The message that an action hands to the consumer of a stream. *)
Definition delivered (o : Obs) : option IncomingMessage :=
  match o with
  | Stream_out _ msg => Some msg
  | _ => None
  end.

(** The messages that the goroutines of [Stream] have taken from [msgCh]
    and hold for their consumers. *)
Definition hold (pc : StreamPC) : list IncomingMessage :=
  match pc with
  | Sending msg => [msg]
  | _ => []
  end.

Definition held (l : list StreamPC) : list IncomingMessage :=
  flat_map hold l.

(** The messages inside the session: held by a goroutine of [Stream], in
    [msgCh], or with the read loop blocked on [msgCh]. *)
Definition in_flight (w : World) : list IncomingMessage :=
  held (streams w) ++ upstream w.

Lemma held_insert l j pc pc' :
  l !! j = Some pc ->
  held (<[j := pc']> l) ++ hold pc ≡ₚ held l ++ hold pc'.
Proof.
  revert j. induction l as [|x l IH]; intros [|j] H; try done.
  - injection H as ->. cbn [held flat_map]. solve_Permutation.
  - cbn in H. specialize (IH j H). unfold held in *.
    cbn [list_insert insert flat_map]. change (list_insert j pc' l)
      with (<[j := pc']> l).
    rewrite <- !app_assoc. by rewrite IH.
Qed.

Lemma undelivered_quiet {A} (m : Sess A) :
  (forall i, emits (quiet i) m) ->
  emits (fun o => delivered o = None) m.
Proof.
  intros H w. apply Forall_forall. intros o Ho.
  destruct o as [| | | | | | | | | j msg |]; try done.
  specialize (H j w). rewrite Forall_forall in H. specialize (H _ Ho).
  unfold quiet in H. cbn in H. by rewrite bool_decide_true in H.
Qed.

Lemma undelivered_nil l :
  Forall (fun o => delivered o = None) l -> omap delivered l = [].
Proof.
  induction 1 as [|o l Ho _ IH]; [done |]. cbn. by rewrite Ho.
Qed.

Lemma undelivered_Close : emits (fun o => delivered o = None) Close.
Proof.
  apply undelivered_quiet. intros i.
  unfold Close, transport_Disconnect, transport_Send, removeSession,
    field, update.
  repeat emits_step; first [done | apply quiet_onTransport].
Qed.

(** The events other than the moves of the streams hand nothing to a
    consumer. *)
Lemma undelivered_step a :
  (forall j ev, a <> StreamStep j ev) ->
  emits (fun o => delivered o = None) (step a).
Proof.
  intros Ha. destruct a as [msg pc | pc | cause | cause | now | | j ev];
    cbn [step].
  - unfold readLoop_message, field. repeat emits_step.
    apply undelivered_quiet; intros ?; apply quiet_handleMessage.
  - unfold readLoop_unpark. repeat emits_step.
    apply undelivered_quiet; intros ?; apply quiet_forward.
  - unfold readLoop_badFrame, field. repeat emits_step.
    apply undelivered_quiet; intros ?; apply quiet_handleError.
  - unfold readLoop_error, field, handleClose. repeat emits_step.
    + apply undelivered_quiet; intros ?; apply quiet_handleError.
    + apply undelivered_Close.
  - apply undelivered_quiet; intros ?; apply quiet_onTransport.
  - apply undelivered_Close.
  - by destruct (Ha j ev).
Qed.

(** What is in [msgCh], with the read loop and with the streams. *)
Definition cargo (w : World) :=
  (msgCh (self w), parked w, streams w).

Lemma cargo_in_flight w w' : cargo w' = cargo w -> in_flight w' = in_flight w.
Proof.
  unfold cargo, in_flight, upstream. intros H. injection H as -> -> ->. done.
Qed.

Lemma cargo_Close : keeps (same_on cargo) Close.
Proof. apply up_Close; first [exact _ | by intros]. Qed.

Lemma cargo_step a w :
  match a with
  | BadFrame _ | ReadError _ | Tick _ | CallClose => True
  | _ => False
  end ->
  cargo (final (step a w)) = cargo w.
Proof.
  intros Ha. revert w. change (keeps (same_on cargo) (step a)).
  destruct a as [msg pc | pc | cause | cause | now | | j ev];
    try done; cbn [step].
  - unfold readLoop_badFrame, field. repeat keeps_step.
    apply up_handleError; first [exact _ | by intros].
  - unfold readLoop_error, field, handleClose. repeat keeps_step.
    + apply up_handleError; first [exact _ | by intros].
    + apply cargo_Close.
  - apply up_onTransport; first [exact _ | by intros].
  - apply cargo_Close.
Qed.

Lemma stream_step_in_flight j ev w :
  let r := stream_step j ev w in
  omap delivered (output r) ++ in_flight (final r) ⊆+ in_flight w.
Proof.
  cbn zeta. unfold in_flight, upstream.
  unfold stream_step, stream_return, set_pc, setState, update, field,
    bind, gets, modify, emit, when, ret.
  cbn [fst snd].
  destruct (streams w !! j) as [[|msg|]|] eqn:Hj; [| | done | done].
  - pose proof (held_insert _ _ _ Finished Hj) as Hfin.
    cbn [hold] in Hfin. rewrite !app_nil_r in Hfin.
    destruct ev.
    + destruct (msgCh (self w)) as [|msg q] eqn:Hq; cbn; rewrite ?Hq; [done |].
      pose proof (held_insert _ _ _ (Sending msg) Hj) as Hs.
      cbn [hold] in Hs. rewrite app_nil_r in Hs. rewrite Hs.
      solve_submseteq.
    + cbn. by rewrite Hfin.
    + destruct (closeCh (self w)); cbn; [by rewrite Hfin | done].
  - pose proof (held_insert _ _ _ Finished Hj) as Hfin.
    pose proof (held_insert _ _ _ Receiving Hj) as Hrec.
    cbn [hold] in Hfin, Hrec. rewrite !app_nil_r in Hfin, Hrec.
    destruct ev.
    + destruct (isResult msg); cbn; [rewrite <- Hfin | rewrite <- Hrec];
        solve_submseteq.
    + cbn. rewrite <- Hfin. solve_submseteq.
    + destruct (closeCh (self w)); cbn; [| done].
      rewrite <- Hfin. solve_submseteq.
Qed.

Lemma readLoop_message_deaf msg pc w :
  parked w = None ->
  Transport.OnMessage (Transport.handlers (transport (self w))) = false ->
  readLoop_message msg pc w = (tt, w, []).
Proof.
  intros Hp Hh. unfold readLoop_message, bind, field, gets.
  cbn -[handleMessage]. by rewrite Hp, Hh.
Qed.

(** One event: what is handed to the consumers and what is inside
    afterwards was inside before, or has just arrived. *)
Lemma step_in_flight a w :
  omap delivered (output (step a w)) ++ in_flight (final (step a w))
  ⊆+ in_flight w ++ inbound [a] w.
Proof.
  assert ((forall j ev, a <> StreamStep j ev) ->
          omap delivered (output (step a w)) = []) as Hnone.
  { intros Ha. exact (undelivered_nil _ (undelivered_step a Ha w)). }
  destruct a as [msg pc | pc | cause | cause | now | | j ev];
    try (rewrite Hnone by done; cbn [app]);
    try (match goal with
         | |- in_flight (final (step ?a w)) ⊆+ _ =>
             rewrite (cargo_in_flight _ _ (cargo_step a w I))
         end; cbn [inbound app]; by rewrite app_nil_r).
  - (* a message arrives *)
    cbn [step inbound]. rewrite app_nil_r.
    destruct (parked w) as [h|] eqn:Hp.
    { rewrite (readLoop_message_busy msg pc h w Hp). cbn [fst snd].
      by rewrite app_nil_r. }
    destruct (Transport.OnMessage
                (Transport.handlers (transport (self w)))) eqn:Hh.
    2:{ rewrite (readLoop_message_deaf msg pc w Hp Hh). cbn [fst snd].
        by apply submseteq_inserts_r. }
    destruct (readLoop_message_free msg pc w Hp Hh) as (_ & ->).
    destruct (handleMessage_spec msg pc w) as (Hr & Hs).
    apply surroundings_inv in Hs as (Hq & _ & _ & _ & Hp' & Hst & _).
    cbn [with_self set_msgCh self msgCh parked streams] in Hq, Hp', Hst.
    unfold in_flight, upstream.
    destruct (result (handleMessage msg pc w)) eqn:Hres.
    + rewrite Hq, Hp', Hst, Hp.
      destruct (_ && _ && _); cbn [option_list];
        rewrite ?app_nil_r, <- ?app_assoc; [reflexivity |].
      rewrite app_assoc. by apply submseteq_inserts_r.
    + cbn [set_parked self parked streams]. rewrite Hq, Hst, Hp.
      assert (forwarded (connected (self w)) msg && has_room w = false)
        as -> by (destruct (forwarded _ msg), (has_room w); done).
      cbn [andb option_list]. rewrite ?app_nil_r, <- ?app_assoc.
      reflexivity.
  - (* the read loop retries *)
    cbn [step inbound app]. rewrite app_nil_r.
    destruct (parked w) as [h|] eqn:Hp.
    2:{ by rewrite (readLoop_unpark_free pc w Hp). }
    destruct (readLoop_unpark_busy pc h w Hp) as (_ & ->).
    destruct (forward_spec h pc w) as (Hr & Hf & _).
    rewrite Hr, Hf. unfold in_flight, upstream.
    destruct (has_room w) eqn:Hroom, (closeCh (self w)), pc;
      cbn [orb andb negb set_parked with_self set_msgCh self msgCh parked
           streams option_list];
      rewrite ?Hp; cbn [option_list]; solve_submseteq.
  - (* a stream moves *)
    cbn [inbound app step]. rewrite app_nil_r.
    apply stream_step_in_flight.
Qed.

(** X28. However many times [Stream] was called, and whatever happens
    (messages arrive, goroutines of [Stream] move or are cancelled, the
    session is closed, the connection fails): the messages handed to the
    consumers of the streams, together with those still inside the
    session, are among the messages that were inside before and those
    that the read loop has received since, each counted as often as it
    occurs. So a message goes to one consumer at most, once for each time
    it arrived, and nothing is handed over that did not arrive. *)
Theorem nothing_delivered_twice (evs : list Event) (w : World) :
  let r := run evs w in
  omap delivered (output r) ++ in_flight (final r)
  ⊆+ in_flight w ++ inbound evs w
  /\ (in_flight w = [] -> omap delivered (output r) ⊆+ inbound evs w).
Proof.
  cbn zeta.
  assert (omap delivered (output (run evs w)) ++ in_flight (final (run evs w))
          ⊆+ in_flight w ++ inbound evs w) as H.
  { revert w. induction evs as [|a evs IH]; intros w.
    - cbn. by rewrite app_nil_r.
    - cbn [run forEach inbound]. rewrite output_bind, final_bind, omap_app.
      fold (run evs). specialize (IH (final (step a w))).
      pose proof (step_in_flight a w) as Hstep.
      cbn [inbound] in Hstep. rewrite app_nil_r in Hstep.
      rewrite <- app_assoc.
      trans (omap delivered (output (step a w))
             ++ in_flight (final (step a w))
             ++ inbound evs (final (step a w))).
      { apply submseteq_app; [reflexivity | exact IH]. }
      rewrite !app_assoc. apply submseteq_app; [exact Hstep | reflexivity]. }
  split; [exact H |].
  intros H0. rewrite H0 in H. cbn [app] in H.
  etrans; [| exact H]. apply submseteq_inserts_r. done.
Qed.
